(** * vitest-coverage-merge: the reconciliation engine

    A shallow embedding of [smart-merge.ts] (Location Keyer, Lookup Index
    Builder, Source Selector, File Merger, Map Orchestrator) and of
    [normalize.ts] (Normalizer), of the loading part of [mergeCoverage]
    ([index.ts]) and of the command line ([cli.ts]: [parseArgs], [main]),
    with the properties of the design document, and further properties of
    the code, stated and proved over it.

    Conventions of the embedding.
    - A JavaScript object that is iterated ([statementMap], [fnMap],
      [branchMap], a coverage map) is the list of its entries in
      [Object.entries] order; its keys are pairwise distinct, which theorems
      that depend on it assume as [NoDup].
    - A JavaScript object or [Map] that is only read and written by key
      ([s], [f], [b], the lookup indexes) is a [gmap].
    - A File Coverage Record has its seven fields ([FileCoverageData]); the
      [|| {}] guards of the program for an absent map have no case here.
    - Execution counts are istanbul hit counters, natural numbers ([N]);
      line and column numbers are integers ([Z]), a column may be [null].
    - [JSON.parse(JSON.stringify(x))] of parsed JSON data is [x].
    - [file in m] and [m[file]] read the own entries of a coverage map.
    - A source text is the list of its UTF-16 code units.
    - A call that throws returns [None].
    - The disk is a function from paths to the state of a file; a directory
      exists and cannot be read.  [path.join], [path.resolve] and
      [JSON.parse] are parameters of the definitions that call them.
    - [main] is followed up to its call of [mergeCoverage], [mergeCoverage]
      up to its merged data; what they print is not modelled, except the
      message of an error exit. *)

From Stdlib Require Import ZArith NArith Lia Ascii String.
From stdpp Require Import base option list sorting gmap strings pretty.

Open Scope Z_scope.

(** [a ?? b] of JavaScript on a possibly-undefined value. *)
Definition nullish {A} (a b : option A) : option A :=
  match a with Some x => Some x | None => b end.

Module SmartMerge.

(** ** Data model (the types of smart-merge.ts and of istanbul) *)

Record Position := { line : Z; column : option Z }.

(** [type Location = { start: { line; column } }]: the end position and the
    other istanbul fields are never read by the merge. *)
Record Location := { start : Position }.
Record FnEntry := { fn_loc : Location }.
Record BranchEntry := { br_loc : Location }.

Record FileCoverageData := {
  path : string;
  statementMap : list (string * Location);
  s : gmap string N;
  fnMap : list (string * FnEntry);
  f : gmap string N;
  branchMap : list (string * BranchEntry);
  b : gmap string (list N)
}.

Record CoverageLookups := {
  stmts : gmap string N;
  stmtsByLine : gmap Z N;
  fns : gmap string N;
  fnsByLine : gmap Z N;
  branches : gmap string (list N);
  branchesByLine : gmap Z (list N)
}.

(** ** Location Keyer *)

(** [`${loc.start.line}:${loc.start.column}`]; [null] prints as "null". *)
Definition locationKey (loc : Location) : string :=
  pretty (line (start loc)) +:+ ":" +:+
  match column (start loc) with Some c => pretty c | None => "null" end.

Definition lineKey (loc : Location) : Z := line (start loc).

(** ** Lookup Index Builder *)

(** One iteration of the statement loop (and of the function loop, which is
    the same code over [fnMap], [f] and [fn.loc]). *)
Definition countStep {E} (getLoc : E → Location) (counts : gmap string N)
    (acc : gmap string N * gmap Z N) (entry : string * E) : gmap string N * gmap Z N :=
  let count := default 0%N (counts !! entry.1) in
  if (0 <? count)%N then
    let ln := lineKey (getLoc entry.2) in
    (<[locationKey (getLoc entry.2) := count]> acc.1,
     <[ln := N.max (default 0%N (acc.2 !! ln)) count]> acc.2)
  else acc.

(** One iteration of the branch loop: the line index is written only when the
    line is not yet present. *)
Definition branchStep (bc : gmap string (list N))
    (acc : gmap string (list N) * gmap Z (list N)) (entry : string * BranchEntry)
    : gmap string (list N) * gmap Z (list N) :=
  let counts := default [] (bc !! entry.1) in
  if existsb (λ c, (0 <? c)%N) counts then
    let ln := lineKey (br_loc entry.2) in
    (<[locationKey (br_loc entry.2) := counts]> acc.1,
     match acc.2 !! ln with
     | Some _ => acc.2
     | None => <[ln := counts]> acc.2
     end)
  else acc.

Definition buildLookups (data : FileCoverageData) : CoverageLookups :=
  let st := foldl (countStep id (s data)) (∅, ∅) (statementMap data) in
  let fn := foldl (countStep fn_loc (f data)) (∅, ∅) (fnMap data) in
  let br := foldl (branchStep (b data)) (∅, ∅) (branchMap data) in
  {| stmts := st.1; stmtsByLine := st.2;
     fns := fn.1; fnsByLine := fn.2;
     branches := br.1; branchesByLine := br.2 |}.

(** ** Source Selector *)

Definition getTotalItems (cov : FileCoverageData) : nat :=
  (length (statementMap cov) + length (branchMap cov) + length (fnMap cov))%nat.

(** [{ cov, idx }] *)
Record Indexed := { cov : FileCoverageData; idx : nat }.

(** [start.line === 1 && (start.column === 0 || start.column === null)] *)
Definition isLine1Directive (loc : Location) : bool :=
  bool_decide (line (start loc) = 1) &&
  (bool_decide (column (start loc) = Some 0) || bool_decide (column (start loc) = None)).

Definition hasDirective (cov : FileCoverageData) : bool :=
  existsb (λ entry, isLine1Directive entry.2) (statementMap cov).

(** The body of the partition loop: [withDirective.push] or
    [withoutDirective.push]. *)
Definition partitionStep (acc : list Indexed * list Indexed) (item : Indexed)
    : list Indexed * list Indexed :=
  if hasDirective (cov item) then (acc.1 ++ [item], acc.2) else (acc.1, acc.2 ++ [item]).

Definition preferLater (best current : Indexed) : Indexed :=
  if (idx best <? idx current)%nat then current else best.

Definition preferFewer (best current : Indexed) : Indexed :=
  if (getTotalItems (cov current) <? getTotalItems (cov best))%nat then current else best.

(** [coverages.map((cov, idx) => ({ cov, idx })).filter(...)]: the sources
    with at least one declared item, each with its original index. *)
Definition nonEmptyWithIndex (coverages : list FileCoverageData) : list Indexed :=
  filter (λ item, (0 < getTotalItems (cov item))%nat)
         (imap (λ i c, {| cov := c; idx := i |}) coverages).

(** [Array.prototype.reduce] without an initial value on a non-empty array
    folds from the first element. [coverages[0]] of an empty array is
    [undefined], here [None]. *)
Definition selectBestSource (coverages : list FileCoverageData) : option FileCoverageData :=
  match nonEmptyWithIndex coverages with
  | [] => coverages !! 0%nat
  | [only] => Some (cov only)
  | first :: rest =>
    let parts := foldl partitionStep ([], []) (first :: rest) in
    match parts.2 with
    | w :: ws => Some (cov (foldl preferLater w ws))
    | [] => Some (cov (foldl preferFewer first rest))
    end
  end.

(** ** File Merger *)

(** The inner loop over [allLookups] for one statement (or function) entry:
    [count = exact.get(locKey) ?? byLine.get(line)], kept when it exceeds the
    running [maxCount]. *)
Definition maxStep (exact : CoverageLookups → gmap string N)
    (byLine : CoverageLookups → gmap Z N) (locKey : string) (ln : Z)
    (maxCount : N) (lookup : CoverageLookups) : N :=
  match nullish (exact lookup !! locKey) (byLine lookup !! ln) with
  | Some count => if (maxCount <? count)%N then count else maxCount
  | None => maxCount
  end.

(** One iteration of the outer statement loop (and of the function loop). *)
Definition mergeCountStep {E} (getLoc : E → Location)
    (exact : CoverageLookups → gmap string N) (byLine : CoverageLookups → gmap Z N)
    (allLookups : list CoverageLookups) (counts : gmap string N) (entry : string * E)
    : gmap string N :=
  let locKey := locationKey (getLoc entry.2) in
  let ln := lineKey (getLoc entry.2) in
  let maxCount :=
    foldl (maxStep exact byLine locKey ln) (default 0%N (counts !! entry.1)) allLookups in
  <[entry.1 := maxCount]> counts.

(** [baseCounts.map((c, i) => Math.max(c, counts[i] || 0))] *)
Definition maxWith (baseCounts counts : list N) : list N :=
  imap (λ i c, N.max c (default 0%N (counts !! i))) baseCounts.

(** The inner loop over [allLookups] for one branch entry: [baseCounts] is
    read once before the loop, each hit overwrites [merged.b[key]]. *)
Definition branchHit (key locKey : string) (ln : Z) (baseCounts : list N)
    (bc : gmap string (list N)) (lookup : CoverageLookups) : gmap string (list N) :=
  match nullish (branches lookup !! locKey) (branchesByLine lookup !! ln) with
  | Some counts => <[key := maxWith baseCounts counts]> bc
  | None => bc
  end.

Definition mergeBranchStep (allLookups : list CoverageLookups)
    (bc : gmap string (list N)) (entry : string * BranchEntry) : gmap string (list N) :=
  let locKey := locationKey (br_loc entry.2) in
  let ln := lineKey (br_loc entry.2) in
  let baseCounts := default [] (bc !! entry.1) in
  foldl (branchHit entry.1 locKey ln baseCounts) bc allLookups.

(** [None] is the thrown [Error('No coverages to merge')]. *)
Definition mergeFileCoverages (coverages : list FileCoverageData) : option FileCoverageData :=
  match coverages with
  | [] => None
  | [only] => Some only
  | first :: _ =>
    bestSource ← selectBestSource coverages;
    let allLookups := buildLookups <$> coverages in
    Some {| path := path first;
            statementMap := statementMap bestSource;
            s := foldl (mergeCountStep id stmts stmtsByLine allLookups)
                       (s bestSource) (statementMap bestSource);
            fnMap := fnMap bestSource;
            f := foldl (mergeCountStep fn_loc fns fnsByLine allLookups)
                       (f bestSource) (fnMap bestSource);
            branchMap := branchMap bestSource;
            b := foldl (mergeBranchStep allLookups) (b bestSource) (branchMap bestSource) |}
  end.

(** ** Map Orchestrator *)

(** [m[file]] on a coverage map. *)
Fixpoint objGet {V} (o : list (string * V)) (k : string) : option V :=
  match o with
  | [] => None
  | entry :: o' => if decide (entry.1 = k) then Some entry.2 else objGet o' k
  end.

(** The [Set] of file names, in insertion order. *)
Definition addFile (allFiles : list string) (file : string) : list string :=
  if decide (file ∈ allFiles) then allFiles else allFiles ++ [file].

Definition collectFiles (coverageMaps : list (list (string * FileCoverageData))) : list string :=
  foldl (λ allFiles m, foldl addFile allFiles m.*1) [] coverageMaps.

(** [coverageMaps.filter((m) => file in m).map((m) => m[file])] *)
Definition fileCoveragesOf (coverageMaps : list (list (string * FileCoverageData)))
    (file : string) : list FileCoverageData :=
  omap (λ m, objGet m file) coverageMaps.

Definition mergeOneFile (coverageMaps : list (list (string * FileCoverageData)))
    (file : string) : option (string * FileCoverageData) :=
  let fileCoverages := fileCoveragesOf coverageMaps file in
  match fileCoverages with
  | [only] => Some (file, only)
  | _ => record ← mergeFileCoverages fileCoverages; Some (file, record)
  end.

Definition smartMergeCoverage (coverageMaps : list (list (string * FileCoverageData)))
    : option (list (string * FileCoverageData)) :=
  match coverageMaps with
  | [] => Some []
  | [only] => Some only
  | _ => mapM (mergeOneFile coverageMaps) (collectFiles coverageMaps)
  end.

End SmartMerge.

Module Normalize.
Import SmartMerge.

(** ** Strings and the source-text provider ([fs]) *)

(** The text of a source file is a JavaScript string, the list of its UTF-16
    code units; [js] is an ASCII literal of the program. *)
Definition js (literal : string) : list N :=
  N_of_ascii <$> list_ascii_of_string literal.

Inductive FileState :=
  | Missing
  | Unreadable
  | Readable (text : list N).

Definition existsSync (fs : string → FileState) (filePath : string) : bool :=
  match fs filePath with Missing => false | _ => true end.

(** [None] when [readFileSync] throws. *)
Definition readFileSync (fs : string → FileState) (filePath : string) : option (list N) :=
  match fs filePath with Readable text => Some text | _ => None end.

(** [text.split('\n')] *)
Fixpoint splitLines (text : list N) : list (list N) :=
  match text with
  | [] => [[]]
  | c :: rest =>
    if (c =? 10)%N then [] :: splitLines rest
    else match splitLines rest with
         | cur :: more => (c :: cur) :: more
         | [] => [[c]]
         end
  end.

(** What [String.prototype.trim] strips, the WhiteSpace and LineTerminator
    code points of ECMAScript: TAB, LF, VT, FF, CR, SP, NBSP, U+1680,
    U+2000..U+200A, LS, PS, U+202F, U+205F, U+3000 and U+FEFF. *)
Definition isWhiteSpace (c : N) : bool :=
  ((9 <=? c) && (c <=? 13) || (c =? 32) || (c =? 160) || (c =? 5760) ||
   (8192 <=? c) && (c <=? 8202) || (c =? 8232) || (c =? 8233) || (c =? 8239) ||
   (c =? 8287) || (c =? 12288) || (c =? 65279))%N.

Fixpoint trimStart (t : list N) : list N :=
  match t with
  | [] => []
  | c :: rest => if isWhiteSpace c then trimStart rest else t
  end.

Fixpoint trimEnd (t : list N) : list N :=
  match t with
  | [] => []
  | c :: rest =>
    match trimEnd rest with
    | [] => if isWhiteSpace c then [] else [c]
    | kept => c :: kept
    end
  end.

Definition trim (t : list N) : list N := trimEnd (trimStart t).

Fixpoint startsWith (t prefix : list N) : bool :=
  match prefix, t with
  | [], _ => true
  | _ :: _, [] => false
  | p :: prefix', c :: t' => (c =? p)%N && startsWith t' prefix'
  end.

(** The double quote. *)
Definition dq : string := String "034"%char EmptyString.

(** ** Normalizer *)

Definition isDirective (l : list N) : bool :=
  bool_decide (l = js "'use server'") ||
  bool_decide (l = js (dq +:+ "use server" +:+ dq)) ||
  bool_decide (l = js "'use server';") ||
  bool_decide (l = js (dq +:+ "use server" +:+ dq +:+ ";")) ||
  bool_decide (l = js "'use client'") ||
  bool_decide (l = js (dq +:+ "use client" +:+ dq)) ||
  bool_decide (l = js "'use client';") ||
  bool_decide (l = js (dq +:+ "use client" +:+ dq +:+ ";")).

Inductive RemovalType := import_ | directive.

Record NormalizeFileResult := { fileImportsRemoved : nat; fileDirectivesRemoved : nat }.

Record NormalizeResult := {
  coverageMap : list (string * FileCoverageData);
  importsRemoved : nat;
  directivesRemoved : nat
}.

(** [lines[lineNum - 1]?.trim() || ''] *)
Definition lineContentAt (lines : list (list N)) (lineNum : Z) : list N :=
  if lineNum - 1 <? 0 then []
  else match lines !! Z.to_nat (lineNum - 1) with
       | Some l => trim l
       | None => []
       end.

Definition classify (lineContent : list N) : option RemovalType :=
  if startsWith lineContent (js "import ") || startsWith lineContent (js "import{")
  then Some import_
  else if isDirective lineContent then Some directive
  else None.

(** The first loop: the keys to remove, in [statementMap] order. *)
Definition keysToRemove (lines : list (list N)) (stmtMap : list (string * Location))
    : list (string * RemovalType) :=
  omap (λ entry, (λ ty, (entry.1, ty)) <$> classify (lineContentAt lines (line (start entry.2))))
       stmtMap.

(** [delete o[key]] on an iterated object. *)
Definition objDelete {V} (key : string) (o : list (string * V)) : list (string * V) :=
  filter (λ entry, entry.1 ≠ key) o.

(** The second loop: delete the entry and its count, bump one counter. *)
Definition removeStep (acc : FileCoverageData * NormalizeFileResult)
    (item : string * RemovalType) : FileCoverageData * NormalizeFileResult :=
  let fileData := acc.1 in
  ({| path := path fileData;
      statementMap := objDelete item.1 (statementMap fileData);
      s := delete item.1 (s fileData);
      fnMap := fnMap fileData; f := f fileData;
      branchMap := branchMap fileData; b := b fileData |},
   match item.2 with
   | import_ => {| fileImportsRemoved := S (fileImportsRemoved acc.2);
                   fileDirectivesRemoved := fileDirectivesRemoved acc.2 |}
   | directive => {| fileImportsRemoved := fileImportsRemoved acc.2;
                     fileDirectivesRemoved := S (fileDirectivesRemoved acc.2) |}
   end).

(** The guarded read: [Some []] when the path does not exist, [None] when
    [readFileSync] throws (the [catch] block). *)
Definition readLines (fs : string → FileState) (filePath : string)
    : option (list (list N)) :=
  if existsSync fs filePath then splitLines <$> readFileSync fs filePath else Some [].

Definition noRemovals : NormalizeFileResult :=
  {| fileImportsRemoved := 0; fileDirectivesRemoved := 0 |}.

(** The record is mutated in place: the new record is returned with the
    counters. *)
Definition normalizeFileCoverage (fs : string → FileState) (filePath : string)
    (fileData : FileCoverageData) : FileCoverageData * NormalizeFileResult :=
  match readLines fs filePath with
  | None => (fileData, noRemovals)
  | Some lines =>
    if decide (length lines = 0%nat) then (fileData, noRemovals)
    else foldl removeStep (fileData, noRemovals) (keysToRemove lines (statementMap fileData))
  end.

Definition normalizeEntry (fs : string → FileState) (acc : NormalizeResult)
    (entry : string * FileCoverageData) : NormalizeResult :=
  let result := normalizeFileCoverage fs entry.1 entry.2 in
  {| coverageMap := coverageMap acc ++ [(entry.1, result.1)];
     importsRemoved := importsRemoved acc + fileImportsRemoved result.2;
     directivesRemoved := directivesRemoved acc + fileDirectivesRemoved result.2 |}.

Definition normalizeCoverage (fs : string → FileState)
    (cm : list (string * FileCoverageData)) : NormalizeResult :=
  foldl (normalizeEntry fs)
        {| coverageMap := []; importsRemoved := 0; directivesRemoved := 0 |} cm.

End Normalize.

(** * Vocabulary of the statements *)

Module Spec.
Import SmartMerge.

(** A string without the separator [":"] and without the letter ["n"]: what
    a printed number is made of. *)
Fixpoint plain (t : string) : Prop :=
  match t with
  | EmptyString => True
  | String c rest => c ≠ ":"%char ∧ c ≠ "n"%char ∧ plain rest
  end.

(** The count an entry writes under the exact key [k]: its current count
    when that is nonzero. *)
Definition liveAt {E} (getLoc : E → Location) (counts : gmap string N) (k : string)
    (entry : string * E) : option N :=
  let count := default 0%N (counts !! entry.1) in
  if decide (locationKey (getLoc entry.2) = k ∧ count ≠ 0%N) then Some count else None.

(** The count an entry on line [ln] contributes to a lookup index: its
    current count when that is nonzero. *)
Definition liveCount {E} (getLoc : E → Location) (counts : gmap string N) (ln : Z)
    (entry : string * E) : option N :=
  let count := default 0%N (counts !! entry.1) in
  if decide (lineKey (getLoc entry.2) = ln ∧ count ≠ 0%N) then Some count else None.



(** The counts array a branch entry on line [ln] contributes: its array when
    at least one outcome count is nonzero. *)
Definition liveBranch (bc : gmap string (list N)) (ln : Z)
    (entry : string * BranchEntry) : option (list N) :=
  let counts := default [] (bc !! entry.1) in
  if decide (lineKey (br_loc entry.2) = ln ∧ Exists (λ c, c ≠ 0%N) counts)
  then Some counts else None.

Definition branchArraysOnLine (data : FileCoverageData) (ln : Z) : list (list N) :=
  omap (liveBranch (b data) ln) (branchMap data).


(** A statement entry starting at line 1 with column 0 or column [null]. *)
Definition hasPseudoStatement (c : FileCoverageData) : Prop :=
  ∃ key loc, (key, loc) ∈ statementMap c ∧ line (start loc) = 1 ∧
             (column (start loc) = Some 0 ∨ column (start loc) = None).

(** [c] is the source at original index [i] and declares at least one item. *)
Definition candidateAt (coverages : list FileCoverageData) (i : nat)
    (c : FileCoverageData) : Prop :=
  coverages !! i = Some c ∧ (0 < getTotalItems c)%nat.

(** The total item count of a record: its statements, its branches and its
    functions, counted whatever their execution counts. *)
Definition totalItems (c : FileCoverageData) : nat :=
  (length (statementMap c) + length (branchMap c) + length (fnMap c))%nat.

(** [c] is the source at original index [i] and its total item count is not
    zero. *)
Definition nonzeroAt (coverages : list FileCoverageData) (i : nat)
    (c : FileCoverageData) : Prop :=
  coverages !! i = Some c ∧ totalItems c ≠ 0%nat.

(** What one source contributes to a baseline entry located at [loc]: the
    value under the exact key, else the value under the line key. *)
Definition stmtContribution (loc : Location) (src : FileCoverageData) : option N :=
  nullish (stmts (buildLookups src) !! locationKey loc)
          (stmtsByLine (buildLookups src) !! lineKey loc).

Definition fnContribution (loc : Location) (src : FileCoverageData) : option N :=
  nullish (fns (buildLookups src) !! locationKey loc)
          (fnsByLine (buildLookups src) !! lineKey loc).

Definition branchContribution (loc : Location) (src : FileCoverageData) : option (list N) :=
  nullish (branches (buildLookups src) !! locationKey loc)
          (branchesByLine (buildLookups src) !! lineKey loc).

(** An entry with nonzero count [c] under the exact key of [loc], and one on
    the line of [loc]. *)
Definition liveExactMatch {E} (getLoc : E → Location) (counts : gmap string N)
    (entries : list (string * E)) (loc : Location) (c : N) : Prop :=
  ∃ key e, (key, e) ∈ entries ∧ locationKey (getLoc e) = locationKey loc ∧
           default 0%N (counts !! key) = c ∧ c ≠ 0%N.

Definition liveLineMatch {E} (getLoc : E → Location) (counts : gmap string N)
    (entries : list (string * E)) (loc : Location) (c : N) : Prop :=
  ∃ key e, (key, e) ∈ entries ∧ lineKey (getLoc e) = lineKey loc ∧
           default 0%N (counts !! key) = c ∧ c ≠ 0%N.

(** How a contribution relates to the entries of its source: it is the count
    of a matching entry with nonzero count; an exact match is used when there
    is one; and there is no contribution exactly when no entry with nonzero
    count matches, by exact key or by line. *)
Definition contributesByMatch {E} (getLoc : E → Location) (counts : gmap string N)
    (entries : list (string * E)) (contribution : Location → option N) : Prop :=
  ∀ loc,
    (∀ c, contribution loc = Some c →
          liveExactMatch getLoc counts entries loc c ∨
          liveLineMatch getLoc counts entries loc c) ∧
    ((∃ c, liveExactMatch getLoc counts entries loc c) →
     ∃ c, contribution loc = Some c ∧ liveExactMatch getLoc counts entries loc c) ∧
    (contribution loc = None ↔
     ∀ c, ¬ liveExactMatch getLoc counts entries loc c ∧
          ¬ liveLineMatch getLoc counts entries loc c).

(** The input map at position [i] holds [record] under [file], and no other
    input map has an entry for [file]. *)
Definition presentOnlyAt (coverageMaps : list (list (string * FileCoverageData)))
    (i : nat) (file : string) (record : FileCoverageData) : Prop :=
  (∃ m, coverageMaps !! i = Some m ∧ objGet m file = Some record) ∧
  ∀ j m, j ≠ i → coverageMaps !! j = Some m → objGet m file = None.

(** [merged] has the length of [base] and is nowhere below it. *)
Definition neverBelow (base merged : list N) : Prop :=
  length merged = length base ∧
  ∀ i c, base !! i = Some c → ∃ c', merged !! i = Some c' ∧ (c ≤ c')%N.

End Spec.

Module NormalizeSpec.
Import SmartMerge Normalize.

Global Instance RemovalType_eq_dec : EqDecision RemovalType.
Proof. solve_decision. Defined.

(** How the Normalizer classifies a statement entry, given the lines of the
    source text: by the trimmed line at the entry's 1-indexed start line. *)
Definition stmtKind (lines : list (list N)) (entry : string * Location) : option RemovalType :=
  classify (lineContentAt lines (line (start entry.2))).

(** A line that begins with the import keyword followed by a space or by an
    opening brace. *)
Definition isImportLine (l : list N) : Prop :=
  ∃ rest, l = js "import " ++ rest ∨ l = js "import{" ++ rest.

Definition useClientLiterals : list (list N) :=
  js <$> [ "'use client'"; dq +:+ "use client" +:+ dq;
           "'use client';"; dq +:+ "use client" +:+ dq +:+ ";" ].

Definition useServerLiterals : list (list N) :=
  js <$> [ "'use server'"; dq +:+ "use server" +:+ dq;
           "'use server';"; dq +:+ "use server" +:+ dq +:+ ";" ].

(** The eight directive literals. *)
Definition directiveLiterals : list (list N) := useServerLiterals ++ useClientLiterals.

(** The source text of [filePath] cannot be had: the path does not exist or
    reading it throws. *)
Definition unreadable (fs : string → FileState) (filePath : string) : Prop :=
  fs filePath = Missing ∨ fs filePath = Unreadable.

(** The lines of a text, put together again with line feeds between them. *)
Fixpoint joinLines (lines : list (list N)) : list N :=
  match lines with
  | [] => []
  | [l] => l
  | l :: rest => l ++ 10%N :: joinLines rest
  end.

(** [lines] are the lines of [text]: the pieces between its line feeds. *)
Definition linesOf (text : list N) (lines : list (list N)) : Prop :=
  lines ≠ [] ∧ Forall (λ l, 10%N ∉ l) lines ∧ joinLines lines = text.

(** White space, as trimming understands it: the white space and line
    terminator code points of ECMAScript (TAB, LF, VT, FF, CR, SP, NBSP,
    U+1680, U+2000 to U+200A, LS, PS, U+202F, U+205F, U+3000, U+FEFF). *)
Definition whiteSpaceCodes : list N :=
  [9; 10; 11; 12; 13; 32; 160; 5760; 8192; 8193; 8194; 8195; 8196; 8197; 8198; 8199;
   8200; 8201; 8202; 8232; 8233; 8239; 8287; 12288; 65279]%N.

Definition whiteSpace (c : N) : Prop := c ∈ whiteSpaceCodes.

(** [t] is [l] without its surrounding white space: [l] is [t] between two
    runs of white space, and [t] neither begins nor ends with white space. *)
Definition trimmed (l t : list N) : Prop :=
  ∃ pre post, l = pre ++ t ++ post ∧ Forall whiteSpace pre ∧ Forall whiteSpace post ∧
    (∀ c, head t = Some c → ¬ whiteSpace c) ∧ (∀ c, last t = Some c → ¬ whiteSpace c).

(** [t] is the trimmed content of the 1-indexed line [n] of [lines]; it is
    empty where there is no such line. *)
Definition lineContent (lines : list (list N)) (n : Z) (t : list N) : Prop :=
  (∃ l, 1 ≤ n ∧ lines !! Z.to_nat (n - 1) = Some l ∧ trimmed l t) ∨
  ((n < 1 ∨ Z.of_nat (length lines) < n) ∧ t = []).

(** The statement entry starts on a line whose trimmed content is an import
    line, or one of the eight directive literals. *)
Definition removable (lines : list (list N)) (entry : string * Location)
    (ty : RemovalType) : Prop :=
  ∃ t, lineContent lines (line (start entry.2)) t ∧
    match ty with
    | import_ => isImportLine t
    | directive => t ∈ directiveLiterals
    end.

(** The scenario as it is worded: the first line is a 'use client'
    directive, the second line is an import, and one statement entry starts
    on each of the two lines. *)
Definition statedScenario (lines : list (list N))
    (stmtMap : list (string * Location)) : Prop :=
  (∃ t, lineContent lines 1 t ∧ t ∈ useClientLiterals) ∧
  (∃ t, lineContent lines 2 t ∧ isImportLine t) ∧
  length (filter (λ entry, line (start entry.2) = 1) stmtMap) = 1%nat ∧
  length (filter (λ entry, line (start entry.2) = 2) stmtMap) = 1%nat.

(** The scenario, with what it leaves unsaid: no statement entry starts on
    another line that holds an import or a directive. *)
Definition directiveThenImport (lines : list (list N))
    (stmtMap : list (string * Location)) : Prop :=
  statedScenario lines stmtMap ∧
  ∀ entry ty, entry ∈ stmtMap → line (start entry.2) ≠ 1 → line (start entry.2) ≠ 2 →
              ¬ removable lines entry ty.

(** The record after the removal loop has deleted [items]. *)
Definition removed (fileData : FileCoverageData) (items : list (string * RemovalType))
    : FileCoverageData :=
  {| path := path fileData;
     statementMap := filter (λ entry, entry.1 ∉ items.*1) (statementMap fileData);
     s := foldl (λ counts item, delete item.1 counts) (s fileData) items;
     fnMap := fnMap fileData; f := f fileData;
     branchMap := branchMap fileData; b := b fileData |}.

End NormalizeSpec.

Module MoreSpec.
Import SmartMerge Normalize.

(** The array a branch entry writes under the exact key [k]: its counts array
    when at least one outcome count is nonzero. *)
Definition liveBranchAt (bc : gmap string (list N)) (k : string)
    (entry : string * BranchEntry) : option (list N) :=
  let counts := default [] (bc !! entry.1) in
  if decide (locationKey (br_loc entry.2) = k ∧ Exists (λ c, c ≠ 0%N) counts)
  then Some counts else None.

(** A branch entry of [src] whose counts array [counts] has a nonzero count,
    under the exact key of [loc], and one on the line of [loc]. *)
Definition liveBranchExactMatch (src : FileCoverageData) (loc : Location)
    (counts : list N) : Prop :=
  ∃ key br, (key, br) ∈ branchMap src ∧ locationKey (br_loc br) = locationKey loc ∧
            default [] (b src !! key) = counts ∧ Exists (λ c, c ≠ 0%N) counts.

Definition liveBranchLineMatch (src : FileCoverageData) (loc : Location)
    (counts : list N) : Prop :=
  ∃ key br, (key, br) ∈ branchMap src ∧ lineKey (br_loc br) = lineKey loc ∧
            default [] (b src !! key) = counts ∧ Exists (λ c, c ≠ 0%N) counts.



(** The entries of an iterated object have pairwise distinct keys and start
    on pairwise distinct lines. *)
Definition onePerLine {E} (getLoc : E → Location) (entries : list (string * E)) : Prop :=
  NoDup entries.*1 ∧ NoDup ((λ entry, lineKey (getLoc entry.2)) <$> entries).

(** The general path of the orchestrator: one merged entry per collected
    file. *)
Definition mergeEachFile (coverageMaps : list (list (string * FileCoverageData)))
    : option (list (string * FileCoverageData)) :=
  mapM (mergeOneFile coverageMaps) (collectFiles coverageMaps).

(** What normalization may do to an entry of a coverage map: keep its key
    and everything of its record but [statementMap] and [s], from which it
    may only delete. *)
Definition onlyStatementsDeleted (before after : string * FileCoverageData) : Prop :=
  after.1 = before.1 ∧
  path after.2 = path before.2 ∧
  fnMap after.2 = fnMap before.2 ∧ f after.2 = f before.2 ∧
  branchMap after.2 = branchMap before.2 ∧ b after.2 = b before.2 ∧
  statementMap after.2 `sublist_of` statementMap before.2 ∧
  s after.2 ⊆ s before.2.

(** The ids that have a count are the statement ids. *)
Definition countsMatchStatements (data : FileCoverageData) : Prop :=
  dom (s data) =@{gset string} list_to_set (statementMap data).*1.

(** The number of statement entries of a coverage map. *)
Definition statementTotal (cm : list (string * FileCoverageData)) : nat :=
  sum_list_with (λ entry, length (statementMap entry.2)) cm.

(** The text with every line feed turned into carriage return, line feed. *)
Definition toCRLF (text : list N) : list N :=
  text ≫= λ c, if (c =? 10)%N then [13%N; 10%N] else [c].

End MoreSpec.

(** * The entry point ([index.ts]) *)

Module Index.
Import SmartMerge Normalize.

(** [normalize] and [reporters] are optional: [None] when the caller left
    them out. *)
Record MergeOptions := {
  inputDirs : list string;
  outputDir : string;
  normalize : option bool;
  reporters : option (list string)
}.

(** The variables of the loading loop of [mergeCoverage]. *)
Record Loaded := {
  coverageMaps : list (list (string * FileCoverageData));
  totalImportsRemoved : nat;
  totalDirectivesRemoved : nat
}.

Section loading.

(** [path.join], and [JSON.parse] on the text of an artifact: the coverage
    map the text denotes, [None] when it throws. *)
Variable join : string → string → string.
Variable parse : list N → option (list (string * FileCoverageData)).
Variable fs : string → FileState.

(** One turn of the loop over [inputDirs]; [None] when [readFileSync] or
    [JSON.parse] throws. *)
Definition loadDir (normalize : bool) (acc : Loaded) (dir : string) : option Loaded :=
  let coverageFile := join dir "coverage-final.json" in
  if negb (existsSync fs coverageFile) then Some acc
  else
    rawData ← readFileSync fs coverageFile;
    coverageData ← parse rawData;
    if normalize then
      let result := normalizeCoverage fs coverageData in
      Some {| coverageMaps := coverageMaps acc ++ [coverageMap result];
              totalImportsRemoved := totalImportsRemoved acc + importsRemoved result;
              totalDirectivesRemoved := totalDirectivesRemoved acc + directivesRemoved result |}
    else
      Some {| coverageMaps := coverageMaps acc ++ [coverageData];
              totalImportsRemoved := totalImportsRemoved acc;
              totalDirectivesRemoved := totalDirectivesRemoved acc |}.

Fixpoint loadDirs (normalize : bool) (acc : Loaded) (dirs : list string) : option Loaded :=
  match dirs with
  | [] => Some acc
  | dir :: rest => acc' ← loadDir normalize acc dir; loadDirs normalize acc' rest
  end.

(** [mergeCoverage] up to its constant [mergedData]: the artifacts are
    loaded, normalized unless [normalize] is [false], and merged.  The rest
    of the function hands [mergedData] to the report libraries. *)
Definition mergedData (options : MergeOptions) : option (list (string * FileCoverageData)) :=
  let normalize := default true (normalize options) in
  loaded ← loadDirs normalize
    {| coverageMaps := []; totalImportsRemoved := 0; totalDirectivesRemoved := 0 |}
    (inputDirs options);
  smartMergeCoverage (coverageMaps loaded).

End loading.

End Index.

(** * Vocabulary of the entry point *)

Module IndexSpec.
Import SmartMerge Normalize.

(** The directory holds the artifact. *)
Definition hasArtifact (join : string → string → string) (fs : string → FileState)
    (dir : string) : Prop :=
  existsSync fs (join dir "coverage-final.json") = true.

#[global] Instance hasArtifact_dec join fs dir : Decision (hasArtifact join fs dir).
Proof. unfold hasArtifact. apply _. Defined.

(** The coverage map of the artifact of a directory, normalized or not;
    [None] when the artifact cannot be read or parsed. *)
Definition artifact (join : string → string → string)
    (parse : list N → option (list (string * FileCoverageData)))
    (fs : string → FileState) (normalize : bool) (dir : string)
    : option (list (string * FileCoverageData)) :=
  rawData ← readFileSync fs (join dir "coverage-final.json");
  coverageData ← parse rawData;
  Some (if normalize then coverageMap (normalizeCoverage fs coverageData) else coverageData).

(** The artifact is missing, or it can be read and parsed. *)
Definition loadable (join : string → string → string)
    (parse : list N → option (list (string * FileCoverageData)))
    (fs : string → FileState) (dir : string) : Prop :=
  fs (join dir "coverage-final.json") = Missing ∨
  ∃ text, fs (join dir "coverage-final.json") = Readable text ∧ is_Some (parse text).

(** The keys of every statement map are pairwise distinct, as the keys of
    an object are. *)
Definition distinctStatementIds (cm : list (string * FileCoverageData)) : Prop :=
  ∀ entry, entry ∈ cm → NoDup (statementMap entry.2).*1.

End IndexSpec.

(** * The command line ([cli.ts]) *)

Module Cli.
Import Normalize.

Record ParsedArgs := {
  inputDirs : list string;
  outputDir : option string;
  normalize : bool;
  help : bool;
  version : bool;
  error : option string
}.

(** The [while] loop of [parseArgs] on the arguments from index [i] on. *)
Fixpoint parseLoop (args : list string) (result : ParsedArgs) : ParsedArgs :=
  match args with
  | [] => result
  | arg :: rest =>
    if decide (arg = "-h" ∨ arg = "--help") then
      {| inputDirs := inputDirs result; outputDir := outputDir result;
         normalize := normalize result; help := true; version := version result;
         error := error result |}
    else if decide (arg = "-v" ∨ arg = "--version") then
      {| inputDirs := inputDirs result; outputDir := outputDir result;
         normalize := normalize result; help := help result; version := true;
         error := error result |}
    else if decide (arg = "-o" ∨ arg = "--output") then
      match rest with
      | [] =>
        {| inputDirs := inputDirs result; outputDir := outputDir result;
           normalize := normalize result; help := help result; version := version result;
           error := Some "Missing output directory after -o/--output" |}
      | dir :: rest' =>
        parseLoop rest'
          {| inputDirs := inputDirs result; outputDir := Some dir;
             normalize := normalize result; help := help result; version := version result;
             error := error result |}
      end
    else if decide (arg = "--normalize") then
      parseLoop rest
        {| inputDirs := inputDirs result; outputDir := outputDir result;
           normalize := true; help := help result; version := version result;
           error := error result |}
    else if String.prefix "-" arg then
      {| inputDirs := inputDirs result; outputDir := outputDir result;
         normalize := normalize result; help := help result; version := version result;
         error := Some ("Unknown option: " +:+ arg) |}
    else
      parseLoop rest
        {| inputDirs := inputDirs result ++ [arg]; outputDir := outputDir result;
           normalize := normalize result; help := help result; version := version result;
           error := error result |}
  end.

Definition parseArgs (args : list string) : ParsedArgs :=
  parseLoop args
    {| inputDirs := []; outputDir := None; normalize := false; help := false;
       version := false; error := None |}.

(** What [main] does before it ends: it prints the usage or the version and
    exits with 0, prints an error and exits with 1, or calls [mergeCoverage]
    after it has logged the skipped directories. *)
Inductive Outcome :=
  | Usage
  | Version
  | Failure (message : string)
  | Merge (options : Index.MergeOptions) (skippedDirs : list string).

(** The truth value of a [string | null]. *)
Definition truthy (value : option string) : bool :=
  match value with
  | Some text => bool_decide (text ≠ "")
  | None => false
  end.

Section main.

(** [path.resolve] on its list of arguments, and the disk. *)
Variable resolve : list string → string.
Variable fs : string → FileState.

(** One turn of the validation loop on [(validDirs, skippedDirs)]. *)
Definition validate (acc : list string * list string) (dir : string)
    : list string * list string :=
  let resolvedDir := resolve [dir] in
  let coverageFile := resolve [resolvedDir; "coverage-final.json"] in
  if negb (existsSync fs resolvedDir) then (acc.1, acc.2 ++ [dir])
  else if negb (existsSync fs coverageFile) then (acc.1, acc.2 ++ [dir])
  else (acc.1 ++ [resolvedDir], acc.2).

Definition main (args : list string) : Outcome :=
  if decide (length args = 0%nat) then Usage
  else
    let parsed := parseArgs args in
    if truthy (error parsed) then Failure ("Error: " +:+ default "" (error parsed))
    else if help parsed then Usage
    else if version parsed then Version
    else if decide (length (inputDirs parsed) < 2)%nat then
      Failure "Error: At least 2 coverage directories are required"
    else if negb (truthy (outputDir parsed)) then
      Failure "Error: Output directory is required (-o <dir>)"
    else
      let dirs := foldl validate ([], []) (inputDirs parsed) in
      if decide (length dirs.1 < 2)%nat then
        Failure "Error: Need at least 2 valid coverage directories to merge"
      else
        Merge {| Index.inputDirs := dirs.1;
                 Index.outputDir := resolve [default "" (outputDir parsed)];
                 Index.normalize := Some (normalize parsed);
                 Index.reporters := None |}
              dirs.2.

End main.

End Cli.

(** * Vocabulary of the command line *)

Module CliSpec.
Import Normalize.

(** The three things a command line is made of: a directory, an output
    option in its short or long spelling with its value, and the
    normalization flag. *)
Inductive Token :=
  | Dir (dir : string)
  | Output (long : bool) (dir : string)
  | NormalizeFlag.

#[global] Instance Token_eq_dec : EqDecision Token.
Proof. solve_decision. Defined.

Definition render (token : Token) : list string :=
  match token with
  | Dir dir => [dir]
  | Output long dir => [if long then "--output" else "-o"; dir]
  | NormalizeFlag => ["--normalize"]
  end.

Definition renderAll (tokens : list Token) : list string := tokens ≫= render.

(** No directory of the line starts with a dash. *)
Definition wellFormed (tokens : list Token) : Prop :=
  ∀ dir, Dir dir ∈ tokens → String.prefix "-" dir = false.

Definition dirsOf (tokens : list Token) : list string :=
  omap (λ token, match token with Dir dir => Some dir | _ => None end) tokens.

Definition outputsOf (tokens : list Token) : list string :=
  omap (λ token, match token with Output _ dir => Some dir | _ => None end) tokens.

Definition helpFlag (arg : string) : Prop := arg = "-h" ∨ arg = "--help".
Definition versionFlag (arg : string) : Prop := arg = "-v" ∨ arg = "--version".
Definition outputFlag (arg : string) : Prop := arg = "-o" ∨ arg = "--output".

(** An argument that starts with a dash and is no option of the program. *)
Definition unknownOption (arg : string) : Prop :=
  String.prefix "-" arg = true ∧ ¬ helpFlag arg ∧ ¬ versionFlag arg ∧
  ¬ outputFlag arg ∧ arg ≠ "--normalize".

(** What ends the parsing of an argument list: its end, a help or version
    flag, an unknown option, or an output flag in the last place. *)
Inductive Stop : list string → Prop :=
  | stop_end : Stop []
  | stop_help flag rest : helpFlag flag → Stop (flag :: rest)
  | stop_version flag rest : versionFlag flag → Stop (flag :: rest)
  | stop_unknown arg rest : unknownOption arg → Stop (arg :: rest)
  | stop_missing flag : outputFlag flag → Stop [flag].

(** A directory that exists and holds the artifact. *)
Definition usable (resolve : list string → string) (fs : string → FileState)
    (dir : string) : Prop :=
  existsSync fs (resolve [dir]) = true ∧
  existsSync fs (resolve [resolve [dir]; "coverage-final.json"]) = true.

#[global] Instance usable_dec resolve fs dir : Decision (usable resolve fs dir).
Proof. unfold usable. apply _. Defined.

End CliSpec.

(** * Sample records *)

Module Samples.
Import SmartMerge.

Definition at_ (l c : Z) : Location := {| start := {| line := l; column := Some c |} |}.

Definition filePath : string := "/path/to/file.ts".

(** Two runs of one file that took different outcomes of the same branch. *)
Definition unitBranch : FileCoverageData :=
  {| path := filePath;
     statementMap := [("0", at_ 2 0)]; s := {["0" := 1%N]};
     fnMap := []; f := ∅;
     branchMap := [("0", {| br_loc := at_ 2 0 |})]; b := {["0" := [1%N; 0%N]]} |}.

Definition componentBranch : FileCoverageData :=
  {| path := filePath;
     statementMap := [("0", at_ 2 0)]; s := {["0" := 1%N]};
     fnMap := []; f := ∅;
     branchMap := [("0", {| br_loc := at_ 2 0 |})]; b := {["0" := [0%N; 1%N]]} |}.

(** The records of the test "should merge two coverage maps". *)
Definition unitStatements : FileCoverageData :=
  {| path := filePath;
     statementMap := [("0", at_ 1 0); ("1", at_ 2 0)]; s := {["0" := 1%N; "1" := 0%N]};
     fnMap := []; f := ∅; branchMap := []; b := ∅ |}.

Definition componentStatements : FileCoverageData :=
  {| path := filePath;
     statementMap := [("0", at_ 1 0); ("1", at_ 2 0)]; s := {["0" := 0%N; "1" := 1%N]};
     fnMap := []; f := ∅; branchMap := []; b := ∅ |}.

(** The records of the test "should prefer coverage without L1:0 directive". *)
Definition unitDirective : FileCoverageData :=
  {| path := filePath;
     statementMap := [("0", at_ 1 0); ("1", at_ 2 0)]; s := {["0" := 1%N; "1" := 1%N]};
     fnMap := []; f := ∅; branchMap := []; b := ∅ |}.

Definition componentPlain : FileCoverageData :=
  {| path := filePath;
     statementMap := [("0", at_ 2 0)]; s := {["0" := 1%N]};
     fnMap := []; f := ∅; branchMap := []; b := ∅ |}.

(** The maps of the test "should handle files only in one source". *)
Definition oneStatement (p : string) : FileCoverageData :=
  {| path := p;
     statementMap := [("0", at_ 1 0)]; s := {["0" := 1%N]};
     fnMap := []; f := ∅; branchMap := []; b := ∅ |}.

Definition unitOnly : list (string * FileCoverageData) :=
  [("/path/to/unit-only.ts", oneStatement "/path/to/unit-only.ts")].

Definition componentOnly : list (string * FileCoverageData) :=
  [("/path/to/component-only.ts", oneStatement "/path/to/component-only.ts")].

Definition branchRuns : list FileCoverageData := [unitBranch; componentBranch].
Definition statementRuns : list FileCoverageData := [unitStatements; componentStatements].
Definition directiveRuns : list FileCoverageData := [unitDirective; componentPlain].
Definition disjointMaps : list (list (string * FileCoverageData)) := [unitOnly; componentOnly].

(** The source and the record of the test "should remove use client
    directive from coverage". *)
Definition nl : string := String "010"%char EmptyString.

Definition clientSource : list N :=
  Normalize.js ("'use client'" +:+ nl +:+ "import React from 'react'" +:+ nl +:+ "const x = 1").

Definition clientRecord : FileCoverageData :=
  {| path := filePath;
     statementMap := [("0", at_ 1 0); ("1", at_ 2 0); ("2", at_ 3 0)];
     s := {["0" := 1%N; "1" := 1%N; "2" := 1%N]};
     fnMap := []; f := ∅; branchMap := []; b := ∅ |}.

Definition clientFs (p : string) : Normalize.FileState :=
  if decide (p = filePath) then Normalize.Readable clientSource else Normalize.Missing.

(** A client source with a second import, and a record with one statement
    on each of its three lines. *)
Definition twoImportsSource : list N :=
  Normalize.js ("'use client'" +:+ nl +:+ "import React from 'react'" +:+ nl +:+
                "import { x } from './x'").

Definition twoImportsFs (p : string) : Normalize.FileState :=
  if decide (p = filePath) then Normalize.Readable twoImportsSource else Normalize.Missing.

(** A map with the record above and one whose source is missing. *)
Definition clientMap : list (string * FileCoverageData) :=
  [(filePath, clientRecord);
   ("/path/to/nonexistent.ts", oneStatement "/path/to/nonexistent.ts")].

End Samples.

Module MoreSamples.
Import SmartMerge Samples.



(** A record taken from a longer version of the client source: its second
    statement starts on line 7, the source on disk has three lines. *)
Definition staleRecord : FileCoverageData :=
  {| path := filePath;
     statementMap := [("0", at_ 1 0); ("1", at_ 7 0)];
     s := {["0" := 1%N; "1" := 4%N]};
     fnMap := []; f := ∅; branchMap := []; b := ∅ |}.

(** The client source checked out with carriage returns. *)
Definition crlfFs (p : string) : Normalize.FileState :=
  if decide (p = filePath) then Normalize.Readable (MoreSpec.toCRLF clientSource)
  else Normalize.Missing.

(** [path.resolve] and [path.join] of a process whose working directory is
    [/cwd], on paths without dot segments. *)
Definition cwdResolve (paths : list string) : string :=
  foldl (λ acc p, if String.prefix "/" p then p else acc +:+ "/" +:+ p) "/cwd" paths.

Definition slashJoin (dir file : string) : string := dir +:+ "/" +:+ file.

(** A disk with the client source, the artifacts of two runs and a
    directory without one; reading a directory fails. *)
Definition disk (p : string) : Normalize.FileState :=
  if decide (p = filePath) then Normalize.Readable clientSource
  else if decide (p = "/cwd/coverage/unit") then Normalize.Unreadable
  else if decide (p = "/cwd/coverage/unit/coverage-final.json") then
    Normalize.Readable (Normalize.js "unit")
  else if decide (p = "/cwd/coverage/component") then Normalize.Unreadable
  else if decide (p = "/cwd/coverage/component/coverage-final.json") then
    Normalize.Readable (Normalize.js "component")
  else if decide (p = "/cwd/coverage/empty") then Normalize.Unreadable
  else Normalize.Missing.

(** What the two artifacts of [disk] denote. *)
Definition diskParse (text : list N) : option (list (string * FileCoverageData)) :=
  if decide (text = Normalize.js "unit") then Some clientMap
  else if decide (text = Normalize.js "component") then Some [(filePath, clientRecord)]
  else None.

(** The command line of the usage text, with a directory that holds no
    artifact. *)
Definition usageLine : list CliSpec.Token :=
  [CliSpec.Dir "coverage/unit"; CliSpec.Dir "coverage/empty";
   CliSpec.Dir "coverage/component"; CliSpec.Output false "coverage/merged";
   CliSpec.NormalizeFlag].

End MoreSamples.

(** * The Location Keyer *)

Module KeyerProps.
Import SmartMerge Spec Samples.

Lemma pretty_N_go_plain (x : N) (t : string) : plain t → plain (pretty_N_go x t).
Proof.
  revert t. induction (N.lt_wf_0 x) as [x _ IH]; intros t Ht.
  assert (x = 0 ∨ 0 < x)%N as [->|Hpos] by lia; [by rewrite pretty_N_go_0|].
  rewrite pretty_N_go_step by done. apply IH; [by apply N.div_lt|].
  cbn [plain]. split_and!; [| |done]; unfold pretty_N_char; by repeat case_match.
Qed.

Lemma pretty_N_plain (x : N) : plain (pretty x).
Proof.
  unfold pretty, pretty_N. case_decide; [by cbn|]. by apply pretty_N_go_plain.
Qed.

Lemma pretty_Z_plain (z : Z) : plain (pretty z).
Proof.
  destruct z as [|x|x]; unfold pretty, pretty_Z; [by cbn|apply pretty_N_plain|].
  cbn [String.append plain]. split_and!; [done..|apply pretty_N_plain].
Qed.

(** The separator splits a key in one way only. *)
Lemma plain_split (a a' rest rest' : string) :
  plain a → plain a' → a +:+ ":" +:+ rest = a' +:+ ":" +:+ rest' → a = a' ∧ rest = rest'.
Proof.
  revert a'. induction a as [|c a IH]; intros [|c' a'] Ha Ha' Heq; cbn in Heq.
  - by injection Heq.
  - injection Heq as <- _. by destruct Ha' as [? _].
  - injection Heq as -> _. by destruct Ha as [? _].
  - injection Heq as <- Heq. destruct Ha as (_ & _ & Ha), Ha' as (_ & _ & Ha').
    destruct (IH a' Ha Ha' Heq) as [-> ->]. done.
Qed.

Lemma locationKey_same_start (loc1 loc2 : Location) :
  locationKey loc1 = locationKey loc2 → start loc1 = start loc2.
Proof.
  destruct loc1 as [[l1 c1]], loc2 as [[l2 c2]]. unfold locationKey. cbn [start line column].
  intros [Hline Hcol]%plain_split; [|apply pretty_Z_plain..].
  apply (inj pretty) in Hline as ->. f_equal.
  destruct c1 as [c1|], c2 as [c2|]; [|exfalso..|done].
  - by apply (inj pretty) in Hcol as ->.
  - pose proof (pretty_Z_plain c1) as Hplain. rewrite Hcol in Hplain.
    by destruct Hplain as (_ & ? & _).
  - pose proof (pretty_Z_plain c2) as Hplain. rewrite <- Hcol in Hplain.
    by destruct Hplain as (_ & ? & _).
Qed.

(** Two locations have the same exact key only when they start at the same
    line and the same column; a [null] column is not column 0. *)
Lemma locationKey_inj (loc1 loc2 : Location) :
  locationKey loc1 = locationKey loc2 → loc1 = loc2.
Proof.
  intros Hstart%locationKey_same_start. destruct loc1, loc2. cbn in Hstart. by subst.
Qed.

Lemma locationKey_inj_witness :
  locationKey (at_ 2 0) = locationKey {| start := {| line := 2; column := Some 0 |} |} ∧
  at_ 2 0 = {| start := {| line := 2; column := Some 0 |} |}.
Proof. split; [reflexivity|]. exact (locationKey_inj _ _ eq_refl). Defined.

(** A [null] column and column 0 give different keys. *)
Example locationKey_null_is_not_zero :
  locationKey {| start := {| line := 1; column := None |} |} = "1:null" ∧
  locationKey {| start := {| line := 1; column := Some 0 |} |} = "1:0".
Proof. split; reflexivity. Qed.

End KeyerProps.

(** * The Lookup Index Builder *)

Module LookupProps.
Import SmartMerge Spec.

Lemma omap_cons_eq {A B} (g : A → option B) (x : A) (l : list A) :
  omap g (x :: l) = match g x with Some y => y :: omap g l | None => omap g l end.
Proof. reflexivity. Qed.

Lemma some_positive_iff (counts : list N) :
  existsb (λ c, (0 <? c)%N) counts = true ↔ Exists (λ c, c ≠ 0%N) counts.
Proof.
  rewrite existsb_exists, Exists_exists. split.
  - intros (c & Hin & Hc). exists c. split; [by apply list_elem_of_In|].
    apply N.ltb_lt in Hc. lia.
  - intros (c & Hin & Hc). exists c. split; [by apply list_elem_of_In|].
    apply N.ltb_lt. lia.
Qed.

Section count_loop.
Context {E : Type} (getLoc : E → Location) (counts : gmap string N).

(** What the loop leaves in the line index at [ln]: the running maximum of
    the live counts on that line. *)
Lemma countStep_byLine (entries : list (string * E)) acc (ln : Z) :
  (foldl (countStep getLoc counts) acc entries).2 !! ln =
    match omap (liveCount getLoc counts ln) entries with
    | [] => acc.2 !! ln
    | live => Some (foldl N.max (default 0%N (acc.2 !! ln)) live)
    end.
Proof.
  revert acc. induction entries as [|entry entries IH]; intros acc; [done|].
  cbn [foldl]. rewrite IH, omap_cons_eq. clear IH.
  generalize (omap (liveCount getLoc counts ln) entries). intros live.
  unfold countStep, liveCount.
  generalize (default 0%N (counts !! entry.1)). intros c.
  destruct (N.ltb_spec 0 c) as [Hpos|Hzero].
  - case_decide as Hln.
    + destruct Hln as [<- _]. cbn [snd]. rewrite lookup_insert_eq. cbn.
      by destruct live.
    + cbn [snd]. rewrite lookup_insert_ne by (intros ?; apply Hln; split; [done|lia]).
      done.
  - case_decide as Hln; [lia|done].
Qed.

(** Every count stored in either index is nonzero. *)
Lemma countStep_positive (entries : list (string * E)) acc :
  (∀ k c, acc.1 !! k = Some c → c ≠ 0%N) →
  (∀ l c, acc.2 !! l = Some c → c ≠ 0%N) →
  let r := foldl (countStep getLoc counts) acc entries in
  (∀ k c, r.1 !! k = Some c → c ≠ 0%N) ∧ (∀ l c, r.2 !! l = Some c → c ≠ 0%N).
Proof.
  revert acc. induction entries as [|entry entries IH]; intros acc H1 H2; [done|].
  cbn [foldl]. apply IH; unfold countStep;
    destruct (N.ltb_spec 0 (default 0%N (counts !! entry.1))); cbn [fst snd]; try done.
  - intros k c. rewrite lookup_insert. case_decide; [|by apply H1].
    intros [= <-]. lia.
  - intros l c. rewrite lookup_insert. case_decide; [|by apply H2].
    intros [= <-]. lia.
Qed.
End count_loop.

Lemma foldl_max_bound (live : list N) (m0 : N) :
  (m0 ≤ foldl N.max m0 live)%N ∧ ∀ c, c ∈ live → (c ≤ foldl N.max m0 live)%N.
Proof.
  revert m0. induction live as [|c live IH]; intros m0; cbn [foldl].
  - split; [lia|]. intros c Hc. by apply elem_of_nil in Hc.
  - destruct (IH (N.max m0 c)) as [Hm Hall]. split; [lia|].
    intros c' [->|Hin]%elem_of_cons; [lia|by apply Hall].
Qed.

Lemma foldl_max_attained (live : list N) (m0 : N) :
  foldl N.max m0 live = m0 ∨ foldl N.max m0 live ∈ live.
Proof.
  revert m0. induction live as [|c live IH]; intros m0; cbn [foldl]; [by left|].
  destruct (IH (N.max m0 c)) as [Heq|Hin].
  - rewrite Heq. destruct (N.max_spec m0 c) as [[_ ->]|[_ ->]].
    + right. apply elem_of_cons. by left.
    + by left.
  - right. apply elem_of_cons. by right.
Qed.

Lemma liveCount_nonzero {E} (getLoc : E → Location) counts ln (entries : list (string * E)) c :
  c ∈ omap (liveCount getLoc counts ln) entries → c ≠ 0%N.
Proof.
  rewrite list_elem_of_omap. intros (entry & _ & Hlive). unfold liveCount in Hlive.
  case_decide as H; [|done]. injection Hlive as <-. by destruct H.
Qed.

(** The line index holds the maximum of the live counts on the line. *)
Lemma byLine_is_max {E} (getLoc : E → Location) counts (entries : list (string * E)) ln m :
  (foldl (countStep getLoc counts) (∅, ∅) entries).2 !! ln = Some m ↔
  m ∈ omap (liveCount getLoc counts ln) entries ∧
  ∀ c, c ∈ omap (liveCount getLoc counts ln) entries → (c ≤ m)%N.
Proof.
  rewrite countStep_byLine. cbn [snd]. rewrite lookup_empty. cbn [default].
  pose proof (liveCount_nonzero getLoc counts ln entries) as Hnz.
  destruct (omap _ entries) as [|c live] eqn:Hlive.
  - split; [done|]. intros [Hin _]. by apply elem_of_nil in Hin.
  - pose proof (foldl_max_bound (c :: live) 0) as [_ Hall].
    pose proof (foldl_max_attained (c :: live) 0) as Hatt.
    split.
    + intros [= <-]. split; [|done].
      destruct Hatt as [Hz|Hin]; [|done].
      specialize (Hall c (list_elem_of_here _ _)). specialize (Hnz c (list_elem_of_here _ _)). lia.
    + intros [Hin Hle]. f_equal. apply N.le_antisymm.
      * apply Hle. destruct Hatt as [Hz|Hin']; [|done].
        specialize (Hall c (list_elem_of_here _ _)). specialize (Hnz c (list_elem_of_here _ _)). lia.
      * by apply Hall.
Qed.

(** What the branch loop leaves in the line index at [ln]: the first live
    array on that line, unless the line was already present. *)
Lemma branchStep_byLine bc (entries : list (string * BranchEntry)) acc (ln : Z) :
  (foldl (branchStep bc) acc entries).2 !! ln =
    nullish (acc.2 !! ln) (head (omap (liveBranch bc ln) entries)).
Proof.
  revert acc. induction entries as [|entry entries IH]; intros acc.
  - cbn. by destruct (acc.2 !! ln).
  - cbn [foldl]. rewrite IH, omap_cons_eq. clear IH.
    generalize (omap (liveBranch bc ln) entries). intros live.
    unfold branchStep, liveBranch.
    destruct (existsb _ _) eqn:Hsome.
    + apply some_positive_iff in Hsome. cbn [snd]. case_decide as Hln.
      * destruct Hln as [<- _]. destruct (acc.2 !! _) eqn:Hacc; cbn.
        -- by rewrite Hacc.
        -- by rewrite lookup_insert_eq.
      * assert (lineKey (br_loc entry.2) ≠ ln) by (intros ?; by apply Hln).
        destruct (acc.2 !! lineKey _); [done|]. by rewrite lookup_insert_ne.
    + case_decide as Hln; [|done]. destruct Hln as [_ Hex].
      apply some_positive_iff in Hex. congruence.
Qed.


End LookupProps.

(** * The Source Selector *)

Module SelectorProps.
Import SmartMerge Spec Samples.

Lemma hasDirective_spec (c : FileCoverageData) :
  hasDirective c = true ↔ hasPseudoStatement c.
Proof.
  unfold hasDirective, hasPseudoStatement, isLine1Directive.
  rewrite existsb_exists. split.
  - intros ([key loc] & Hin & Hd). exists key, loc.
    apply list_elem_of_In in Hin. cbn in Hd.
    apply andb_true_iff in Hd as [H1 H2]. apply orb_true_iff in H2.
    apply bool_decide_eq_true in H1.
    split_and!; [done..|].
    destruct H2 as [H2|H2]; apply bool_decide_eq_true in H2; auto.
  - intros (key & loc & Hin & H1 & H2). exists (key, loc).
    split; [by apply list_elem_of_In|]. cbn.
    apply andb_true_iff. split; [by apply bool_decide_eq_true|].
    apply orb_true_iff. destruct H2; [left|right]; by apply bool_decide_eq_true.
Qed.

Lemma elem_of_nonEmptyWithIndex (coverages : list FileCoverageData) (item : Indexed) :
  item ∈ nonEmptyWithIndex coverages ↔ candidateAt coverages (idx item) (cov item).
Proof.
  unfold nonEmptyWithIndex, candidateAt. rewrite list_elem_of_filter, elem_of_lookup_imap.
  split.
  - intros [Hpos (i & c & -> & Hi)]. done.
  - intros [Hi Hpos]. split; [done|]. exists (idx item), (cov item).
    split; [by destruct item|done].
Qed.

(** Candidates are listed by increasing original index. *)
Lemma imap_idx_sorted (l : list FileCoverageData) (k : nat) :
  StronglySorted (λ x y, idx x < idx y)%nat (imap (λ i c, {| cov := c; idx := k + i |}) l).
Proof.
  revert k. induction l as [|c l IH]; intros k; [constructor|].
  rewrite imap_cons. constructor.
  - erewrite imap_ext; [apply (IH (S k))|]. intros i x _. cbn. f_equal. lia.
  - apply Forall_forall. intros item (i & x & -> & _)%elem_of_lookup_imap. cbn. lia.
Qed.

Lemma StronglySorted_filter_keep {A} (R : relation A) (P : A → Prop)
    `{!∀ x, Decision (P x)} (l : list A) :
  StronglySorted R l → StronglySorted R (filter P l).
Proof.
  induction 1 as [|x l Hl IH Hx]; [constructor|].
  rewrite filter_cons. case_decide; [|done].
  constructor; [done|]. apply Forall_forall. intros y [_ Hy]%list_elem_of_filter.
  rewrite Forall_forall in Hx. by apply Hx.
Qed.

Lemma nonEmptyWithIndex_sorted (coverages : list FileCoverageData) :
  StronglySorted (λ x y, idx x < idx y)%nat (nonEmptyWithIndex coverages).
Proof.
  unfold nonEmptyWithIndex. apply StronglySorted_filter_keep.
  apply (imap_idx_sorted coverages 0).
Qed.

(** The partition loop appends each item to one of the two arrays. *)
Lemma partition_without (items : list Indexed) (acc : list Indexed * list Indexed) :
  (foldl partitionStep acc items).2 =
    acc.2 ++ filter (λ item, hasDirective (cov item) = false) items.
Proof.
  revert acc. induction items as [|item items IH]; intros acc; cbn [foldl].
  - by rewrite filter_nil, app_nil_r.
  - rewrite IH, filter_cons. unfold partitionStep.
    destruct (hasDirective (cov item)); cbn [snd].
    + by rewrite decide_False by done.
    + rewrite decide_True by done. by rewrite <- app_assoc.
Qed.

(** [reduce] with [current.idx > best.idx ? current : best]. *)
Lemma preferLater_fold (w : Indexed) (ws : list Indexed) :
  foldl preferLater w ws ∈ w :: ws ∧
  ∀ x, x ∈ w :: ws → (idx x ≤ idx (foldl preferLater w ws))%nat.
Proof.
  revert w. induction ws as [|c ws IH]; intros w; cbn [foldl].
  - split; [left|]. by intros x ->%list_elem_of_singleton.
  - destruct (IH (preferLater w c)) as [Hin Hmax]. unfold preferLater in *.
    destruct (Nat.ltb_spec (idx w) (idx c)) as [Hlt|Hge].
    + split.
      * by right.
      * intros x [->|Hx]%elem_of_cons; [|by apply Hmax].
        specialize (Hmax c (list_elem_of_here _ _)). lia.
    + split.
      * apply elem_of_cons in Hin as [->|Hin]; [left|right; by right].
      * intros x [->|[->|Hx]%elem_of_cons]%elem_of_cons.
        -- apply Hmax. left.
        -- specialize (Hmax w (list_elem_of_here _ _)). lia.
        -- apply Hmax. by right.
Qed.

(** [reduce] with [items(current) < items(best) ? current : best]: the
    result is the first item of minimal size. *)
Lemma preferFewer_fold (rest pre0 post0 : list Indexed) (best : Indexed) :
  (∀ x, x ∈ pre0 → (getTotalItems (cov best) < getTotalItems (cov x))%nat) →
  (∀ x, x ∈ post0 → (getTotalItems (cov best) ≤ getTotalItems (cov x))%nat) →
  let r := foldl preferFewer best rest in
  ∃ pre post, pre0 ++ best :: post0 ++ rest = pre ++ r :: post ∧
    (∀ x, x ∈ pre → (getTotalItems (cov r) < getTotalItems (cov x))%nat) ∧
    (∀ x, x ∈ post → (getTotalItems (cov r) ≤ getTotalItems (cov x))%nat).
Proof.
  revert pre0 post0 best. induction rest as [|c rest IH]; intros pre0 post0 best Hpre Hpost.
  - cbn. exists pre0, post0. by rewrite app_nil_r.
  - cbn [foldl]. cbv zeta.
    destruct (Nat.ltb_spec (getTotalItems (cov c)) (getTotalItems (cov best))) as [Hlt|Hge].
    + assert (preferFewer best c = c) as ->.
      { unfold preferFewer. by apply Nat.ltb_lt in Hlt as ->. }
      destruct (IH (pre0 ++ best :: post0) [] c) as (pre & post & Heq & H1 & H2).
      * intros x [Hx|[->|Hx]%elem_of_cons]%elem_of_app.
        -- specialize (Hpre x Hx). lia.
        -- lia.
        -- specialize (Hpost x Hx). lia.
      * intros x Hx. by apply elem_of_nil in Hx.
      * exists pre, post. split; [|done]. rewrite <- Heq. cbn. by rewrite <- app_assoc.
    + assert (preferFewer best c = best) as ->.
      { unfold preferFewer. by apply Nat.ltb_ge in Hge as ->. }
      destruct (IH pre0 (post0 ++ [c]) best) as (pre & post & Heq & H1 & H2).
      * done.
      * intros x [Hx|Hx%list_elem_of_singleton]%elem_of_app; [by apply Hpost|by subst].
      * exists pre, post. split; [|done]. rewrite <- Heq. by rewrite <- (app_assoc post0).
Qed.

(** The selection rule over the candidate list. *)
Lemma selectBestSource_spec (coverages : list FileCoverageData) :
  nonEmptyWithIndex coverages ≠ [] →
  ∃ item, item ∈ nonEmptyWithIndex coverages ∧
    selectBestSource coverages = Some (cov item) ∧
    (∀ x, x ∈ nonEmptyWithIndex coverages → hasDirective (cov x) = false →
          hasDirective (cov item) = false ∧ (idx x ≤ idx item)%nat) ∧
    ((∀ x, x ∈ nonEmptyWithIndex coverages → hasDirective (cov x) = true) →
     ∀ x, x ∈ nonEmptyWithIndex coverages →
          (getTotalItems (cov item) ≤ getTotalItems (cov x))%nat ∧
          (getTotalItems (cov x) = getTotalItems (cov item) → idx item ≤ idx x)%nat).
Proof.
  intros Hne. unfold selectBestSource.
  pose proof (nonEmptyWithIndex_sorted coverages) as Hsorted.
  destruct (nonEmptyWithIndex coverages) as [|first rest] eqn:Hcands; [done|].
  destruct rest as [|second rest].
  { exists first. split_and!; [left|done|..].
    - by intros x ->%list_elem_of_singleton Hx.
    - by intros _ x ->%list_elem_of_singleton. }
  set (cands := first :: second :: rest) in *.
  cbv zeta. rewrite partition_without. cbn [snd app].
  destruct (filter _ cands) as [|w ws] eqn:Hwithout.
  - (* every candidate has the directive: fewest items, first on ties *)
    destruct (preferFewer_fold (second :: rest) [] [] first) as (pre & post & Heq & H1 & H2).
    { intros x Hx. by apply elem_of_nil in Hx. }
    { intros x Hx. by apply elem_of_nil in Hx. }
    cbn [app] in Heq. fold cands in Heq.
    set (r := foldl preferFewer first (second :: rest)) in *.
    exists r. split_and!.
    + rewrite Heq. apply elem_of_app. right. left.
    + done.
    + intros x Hx Hno. exfalso.
      assert (x ∈ filter (λ item, hasDirective (cov item) = false) cands) as Hin
        by (by apply list_elem_of_filter).
      rewrite Hwithout in Hin. by apply elem_of_nil in Hin.
    + intros _ x Hx. rewrite Heq in Hx, Hsorted.
      apply StronglySorted_app in Hsorted as (_ & _ & Hr).
      apply StronglySorted_cons in Hr as [Hr _]. rewrite Forall_forall in Hr.
      apply elem_of_app in Hx as [Hx|[->|Hx]%elem_of_cons].
      * specialize (H1 x Hx). lia.
      * lia.
      * specialize (H2 x Hx). specialize (Hr x Hx). lia.
  - (* some candidate lacks the directive: the latest of those *)
    destruct (preferLater_fold w ws) as [Hin Hmax].
    rewrite <- Hwithout in Hin, Hmax.
    exists (foldl preferLater w ws). apply list_elem_of_filter in Hin as [Hno Hin].
    split_and!; [done..| |].
    + intros x Hx Hxno. split; [done|]. apply Hmax. by apply list_elem_of_filter.
    + intros Hall. specialize (Hall _ Hin). congruence.
Qed.

Lemma candidates_nonempty (coverages : list FileCoverageData) i c :
  candidateAt coverages i c → nonEmptyWithIndex coverages ≠ [].
Proof.
  intros Hc Hnil.
  assert ({| cov := c; idx := i |} ∈ nonEmptyWithIndex coverages) as Hin
    by (by apply elem_of_nonEmptyWithIndex).
  rewrite Hnil in Hin. by apply elem_of_nil in Hin.
Qed.

Lemma getTotalItems_totalItems (c : FileCoverageData) : getTotalItems c = totalItems c.
Proof. reflexivity. Qed.

Lemma candidateAt_nonzeroAt (coverages : list FileCoverageData) (i : nat)
    (c : FileCoverageData) :
  candidateAt coverages i c ↔ nonzeroAt coverages i c.
Proof.
  unfold candidateAt, nonzeroAt. rewrite getTotalItems_totalItems.
  split; intros [Hc Hn]; (split; [done|lia]).
Qed.

(** C3. With at least one source whose total item count (statements,
    branches and functions) is not zero, the selected baseline is one of the
    sources with a nonzero count; if some of those lack the line-1
    pseudo-statement it is the one of greatest original index among them; if
    all of them have it, it has the fewest total items, and the smallest
    original index among those that have as few. *)
Theorem selectBestSource_rule (coverages : list FileCoverageData) :
  (∃ i c, nonzeroAt coverages i c) →
  ∃ i best, selectBestSource coverages = Some best ∧ nonzeroAt coverages i best ∧
    ((∃ j c, nonzeroAt coverages j c ∧ ¬ hasPseudoStatement c) →
       ¬ hasPseudoStatement best ∧
       ∀ j c, nonzeroAt coverages j c → ¬ hasPseudoStatement c → (j ≤ i)%nat) ∧
    ((∀ j c, nonzeroAt coverages j c → hasPseudoStatement c) →
       ∀ j c, nonzeroAt coverages j c →
         (totalItems best ≤ totalItems c)%nat ∧
         (totalItems c = totalItems best → i ≤ j)%nat).
Proof.
  intros (i0 & c0 & Hc0%candidateAt_nonzeroAt).
  destruct (selectBestSource_spec coverages) as (item & Hin & Hsel & Hlater & Hfewer).
  { by eapply candidates_nonempty. }
  exists (idx item), (cov item). apply elem_of_nonEmptyWithIndex in Hin.
  split_and!; [done|by apply candidateAt_nonzeroAt| |].
  - intros (j & c & Hc%candidateAt_nonzeroAt & Hno).
    assert (hasDirective c = false) as Hc'.
    { destruct (hasDirective c) eqn:Hd; [|done]. by apply hasDirective_spec in Hd. }
    destruct (Hlater {| cov := c; idx := j |}) as [Hbest _];
      [by apply elem_of_nonEmptyWithIndex|done|].
    split.
    + rewrite <- hasDirective_spec. congruence.
    + intros j' c' Hj'%candidateAt_nonzeroAt Hno'.
      apply (Hlater {| cov := c'; idx := j' |}); [by apply elem_of_nonEmptyWithIndex|].
      cbn. destruct (hasDirective c') eqn:Hd; [|done]. by apply hasDirective_spec in Hd.
  - intros Hall j c Hc%candidateAt_nonzeroAt. rewrite <- !getTotalItems_totalItems.
    apply (Hfewer (λ x Hx, proj2 (hasDirective_spec _)
                     (Hall _ _ (proj1 (candidateAt_nonzeroAt _ _ _)
                                  (proj1 (elem_of_nonEmptyWithIndex _ _) Hx))))
                  {| cov := c; idx := j |}).
    by apply elem_of_nonEmptyWithIndex.
Qed.


Lemma selectBestSource_rule_witness :
  (∃ i c, nonzeroAt directiveRuns i c) ∧
  ∃ i best, selectBestSource directiveRuns = Some best ∧ nonzeroAt directiveRuns i best ∧
    ((∃ j c, nonzeroAt directiveRuns j c ∧ ¬ hasPseudoStatement c) →
       ¬ hasPseudoStatement best ∧
       ∀ j c, nonzeroAt directiveRuns j c → ¬ hasPseudoStatement c → (j ≤ i)%nat) ∧
    ((∀ j c, nonzeroAt directiveRuns j c → hasPseudoStatement c) →
       ∀ j c, nonzeroAt directiveRuns j c →
         (totalItems best ≤ totalItems c)%nat ∧
         (totalItems c = totalItems best → i ≤ j)%nat).
Proof.
  assert (∃ i c, nonzeroAt directiveRuns i c) as Hcandidate.
  { exists 0%nat, unitDirective. split; [reflexivity|cbn; lia]. }
  split; [exact Hcandidate|]. exact (selectBestSource_rule directiveRuns Hcandidate).
Defined.


End SelectorProps.

(** * The File Merger *)

Module MergerProps.
Import SmartMerge Spec.

Lemma selectBestSource_total (coverages : list FileCoverageData) :
  coverages ≠ [] → is_Some (selectBestSource coverages).
Proof.
  intros Hne. unfold selectBestSource.
  destruct (nonEmptyWithIndex coverages) as [|first [|second rest]]; [|done|].
  - destruct coverages; [done|]. by eexists.
  - cbv zeta. by destruct (_.2).
Qed.

(** The merge of two or more records, unfolded. *)
Lemma mergeFileCoverages_many (coverages : list FileCoverageData) :
  (2 ≤ length coverages)%nat →
  ∃ first best, head coverages = Some first ∧ selectBestSource coverages = Some best ∧
    mergeFileCoverages coverages = Some
      {| path := path first;
         statementMap := statementMap best;
         s := foldl (mergeCountStep id stmts stmtsByLine (buildLookups <$> coverages))
                    (s best) (statementMap best);
         fnMap := fnMap best;
         f := foldl (mergeCountStep fn_loc fns fnsByLine (buildLookups <$> coverages))
                    (f best) (fnMap best);
         branchMap := branchMap best;
         b := foldl (mergeBranchStep (buildLookups <$> coverages)) (b best) (branchMap best) |}.
Proof.
  intros Hlen. destruct coverages as [|first [|second rest]]; [cbn in Hlen; lia..|].
  destruct (selectBestSource_total (first :: second :: rest)) as [best Hbest]; [done|].
  exists first, best. split_and!; [done..|].
  unfold mergeFileCoverages. by rewrite Hbest.
Qed.

Section count_merge.
Context {E : Type} (getLoc : E → Location).
Context (exact : CoverageLookups → gmap string N) (byLine : CoverageLookups → gmap Z N).

Lemma maxStep_max locKey ln (m : N) (lookup : CoverageLookups) :
  maxStep exact byLine locKey ln m lookup =
    match nullish (exact lookup !! locKey) (byLine lookup !! ln) with
    | Some c => N.max c m
    | None => m
    end.
Proof.
  unfold maxStep. destruct (nullish _ _) as [c|]; [|done].
  destruct (N.ltb_spec m c); lia.
Qed.

(** The inner loop computes the maximum of the start value and of what each
    lookup yields. *)
Lemma maxStep_fold locKey ln (lookups : list CoverageLookups) (m : N) :
  foldl (maxStep exact byLine locKey ln) m lookups =
    foldr N.max m (omap (λ lookup, nullish (exact lookup !! locKey) (byLine lookup !! ln))
                        lookups).
Proof.
  revert m. induction lookups as [|lookup lookups IH]; intros m; [done|].
  cbn [foldl]. rewrite IH, LookupProps.omap_cons_eq, maxStep_max.
  destruct (nullish _ _) as [c|]; [|done]. cbn [foldr].
  generalize (omap (λ lookup0, nullish (exact lookup0 !! locKey) (byLine lookup0 !! ln))
                   lookups).
  intros l. induction l as [|x l IHl]; cbn [foldr]; lia.
Qed.

Lemma foldr_max_ge (l : list N) (m : N) :
  (m ≤ foldr N.max m l)%N ∧ ∀ c, c ∈ l → (c ≤ foldr N.max m l)%N.
Proof.
  induction l as [|x l [IH1 IH2]]; cbn [foldr].
  - split; [lia|]. intros c Hc. by apply elem_of_nil in Hc.
  - split; [lia|]. intros c [->|Hc]%elem_of_cons; [lia|].
    specialize (IH2 c Hc). lia.
Qed.


Context (lookups : list CoverageLookups).

Lemma mergeCountStep_other (entries : list (string * E)) counts key :
  key ∉ entries.*1 →
  foldl (mergeCountStep getLoc exact byLine lookups) counts entries !! key = counts !! key.
Proof.
  revert counts. induction entries as [|entry entries IH]; intros counts Hnot; [done|].
  cbn [foldl]. rewrite fmap_cons, not_elem_of_cons in Hnot. destruct Hnot as [Hne Hnot].
  rewrite IH by done. unfold mergeCountStep. by rewrite lookup_insert_ne.
Qed.

(** With distinct keys, each entry's count is written exactly once. *)
Lemma mergeCountStep_at (entries : list (string * E)) counts key e :
  NoDup entries.*1 → (key, e) ∈ entries →
  foldl (mergeCountStep getLoc exact byLine lookups) counts entries !! key =
    Some (foldl (maxStep exact byLine (locationKey (getLoc e)) (lineKey (getLoc e)))
                (default 0%N (counts !! key)) lookups).
Proof.
  revert counts. induction entries as [|entry entries IH]; intros counts Hnd Hin.
  { by apply elem_of_nil in Hin. }
  rewrite fmap_cons in Hnd. apply NoDup_cons in Hnd as [Hfresh Hnd].
  cbn [foldl]. apply elem_of_cons in Hin as [<-|Hin].
  - rewrite mergeCountStep_other by done. unfold mergeCountStep. cbn [fst snd].
    by rewrite lookup_insert_eq.
  - assert (entry.1 ≠ key) as Hne.
    { intros <-. apply Hfresh. apply list_elem_of_fmap. by exists (entry.1, e). }
    rewrite IH by done. unfold mergeCountStep. by rewrite lookup_insert_ne.
Qed.

(** The loop never lowers a count and never removes one. *)
Lemma mergeCountStep_mono (entries : list (string * E)) counts key c :
  counts !! key = Some c →
  ∃ c', foldl (mergeCountStep getLoc exact byLine lookups) counts entries !! key = Some c'
        ∧ (c ≤ c')%N.
Proof.
  revert counts c. induction entries as [|entry entries IH]; intros counts c Hc.
  { exists c. split; [done|lia]. }
  cbn [foldl]. unfold mergeCountStep at 2.
  destruct (decide (entry.1 = key)) as [->|Hne].
  - edestruct IH as (c' & Hc' & Hle); [apply lookup_insert_eq|].
    exists c'. split; [done|]. rewrite maxStep_fold, Hc in Hle. cbn [default] in Hle.
    etrans; [|exact Hle]. apply (proj1 (foldr_max_ge _ _)).
  - destruct (IH (<[entry.1 := foldl (maxStep exact byLine (locationKey (getLoc entry.2))
                                             (lineKey (getLoc entry.2)))
                                     (default 0%N (counts !! entry.1)) lookups]> counts) c)
      as (c' & Hc' & Hle); [by rewrite lookup_insert_ne|].
    by exists c'.
Qed.
End count_merge.

Lemma neverBelow_refl (base : list N) : neverBelow base base.
Proof. split; [done|]. intros i c Hc. exists c. split; [done|lia]. Qed.

Lemma neverBelow_trans (l1 l2 l3 : list N) :
  neverBelow l1 l2 → neverBelow l2 l3 → neverBelow l1 l3.
Proof.
  intros [Hlen1 H1] [Hlen2 H2]. split; [congruence|].
  intros i c Hc. destruct (H1 i c Hc) as (c' & Hc' & Hle).
  destruct (H2 i c' Hc') as (c'' & Hc'' & Hle'). exists c''. split; [done|lia].
Qed.

Lemma maxWith_neverBelow (baseCounts counts : list N) :
  neverBelow baseCounts (maxWith baseCounts counts).
Proof.
  unfold maxWith. split; [apply length_imap|].
  intros i c Hc. rewrite list_lookup_imap, Hc. cbn.
  eexists. split; [done|lia].
Qed.

Section branch_merge.
Context (key locKey : string) (ln : Z) (baseCounts : list N).

(** The inner branch loop: every hit overwrites the previous write, so the
    last lookup that yields an array decides the entry. *)
Lemma branchHit_fold (lookups : list CoverageLookups) (bc : gmap string (list N)) :
  foldl (branchHit key locKey ln baseCounts) bc lookups =
    match last (omap (λ lookup, nullish (branches lookup !! locKey)
                                        (branchesByLine lookup !! ln)) lookups) with
    | Some counts => <[key := maxWith baseCounts counts]> bc
    | None => bc
    end.
Proof.
  revert bc. induction lookups as [|lookup lookups IH]; intros bc; [done|].
  cbn [foldl]. rewrite IH, LookupProps.omap_cons_eq. unfold branchHit.
  destruct (nullish _ _) as [counts|]; [|done].
  rewrite last_cons. destruct (last _) as [later|]; [|done].
  by rewrite insert_insert_eq.
Qed.
End branch_merge.

Lemma mergeBranchStep_mono (lookups : list CoverageLookups)
    (entries : list (string * BranchEntry)) (bc : gmap string (list N)) key counts :
  bc !! key = Some counts →
  ∃ counts', foldl (mergeBranchStep lookups) bc entries !! key = Some counts' ∧
             neverBelow counts counts'.
Proof.
  revert bc counts. induction entries as [|entry entries IH]; intros bc counts Hc.
  { exists counts. split; [done|apply neverBelow_refl]. }
  cbn [foldl]. unfold mergeBranchStep at 2. rewrite branchHit_fold.
  destruct (last _) as [hit|]; [|by apply IH].
  destruct (decide (entry.1 = key)) as [->|Hne].
  - edestruct IH as (counts' & Hc' & Hge); [apply lookup_insert_eq|].
    exists counts'. split; [done|]. rewrite Hc in Hge. cbn [default] in Hge.
    eapply neverBelow_trans; [apply maxWith_neverBelow|done].
  - apply IH. by rewrite lookup_insert_ne.
Qed.

(** C4. Merging two or more records never decreases a count of the selected
    baseline: every statement and function count, and every index of every
    branch array of the baseline, is present in the merged record with a
    value at least as large. *)
Theorem merge_never_decreases (coverages : list FileCoverageData) :
  (2 ≤ length coverages)%nat →
  ∃ best merged,
    selectBestSource coverages = Some best ∧ mergeFileCoverages coverages = Some merged ∧
    (∀ key c, s best !! key = Some c → ∃ c', s merged !! key = Some c' ∧ (c ≤ c')%N) ∧
    (∀ key c, f best !! key = Some c → ∃ c', f merged !! key = Some c' ∧ (c ≤ c')%N) ∧
    (∀ key counts i c, b best !! key = Some counts → counts !! i = Some c →
       ∃ counts' c', b merged !! key = Some counts' ∧ counts' !! i = Some c' ∧ (c ≤ c')%N).
Proof.
  intros Hlen. destruct (mergeFileCoverages_many coverages Hlen) as (first & best & _ & Hbest & ->).
  eexists best, _. split_and!; [done..| | |]; cbn [s f b].
  - intros key c Hc. by apply mergeCountStep_mono.
  - intros key c Hc. by apply mergeCountStep_mono.
  - intros key counts i c Hcounts Hc.
    destruct (mergeBranchStep_mono (buildLookups <$> coverages) (branchMap best)
                (b best) key counts Hcounts) as (counts' & Hc' & _ & Hge).
    destruct (Hge i c Hc) as (c' & Hi & Hle). by exists counts', c'.
Qed.

Lemma merge_never_decreases_witness :
  (2 ≤ length Samples.branchRuns)%nat ∧
  ∃ best merged,
    selectBestSource Samples.branchRuns = Some best ∧
    mergeFileCoverages Samples.branchRuns = Some merged ∧
    (∀ key c, s best !! key = Some c → ∃ c', s merged !! key = Some c' ∧ (c ≤ c')%N) ∧
    (∀ key c, f best !! key = Some c → ∃ c', f merged !! key = Some c' ∧ (c ≤ c')%N) ∧
    (∀ key counts i c, b best !! key = Some counts → counts !! i = Some c →
       ∃ counts' c', b merged !! key = Some counts' ∧ counts' !! i = Some c' ∧ (c ≤ c')%N).
Proof.
  assert (2 ≤ length Samples.branchRuns)%nat as Hlen by (cbn; lia).
  split; [exact Hlen|]. exact (merge_never_decreases Samples.branchRuns Hlen).
Defined.

End MergerProps.

(** * Statement and function counts of the merged record *)

Module CountProps.
Import SmartMerge Spec.

Section exact_index.
Context {E : Type} (getLoc : E → Location) (counts : gmap string N).

(** The exact index keeps the last write under each key. *)
Lemma countStep_exact (entries : list (string * E)) acc (k : string) :
  (foldl (countStep getLoc counts) acc entries).1 !! k =
    nullish (last (omap (liveAt getLoc counts k) entries)) (acc.1 !! k).
Proof.
  revert acc. induction entries as [|entry entries IH]; intros acc; [done|].
  cbn [foldl]. rewrite IH, LookupProps.omap_cons_eq. clear IH.
  generalize (omap (liveAt getLoc counts k) entries). intros live.
  unfold countStep, liveAt.
  generalize (default 0%N (counts !! entry.1)). intros c.
  destruct (N.ltb_spec 0 c) as [Hpos|Hzero].
  - case_decide as Hk.
    + destruct Hk as [<- _]. cbn [fst]. rewrite lookup_insert_eq, last_cons.
      by destruct (last live).
    + cbn [fst]. rewrite lookup_insert_ne by (intros ?; apply Hk; split; [done|lia]).
      done.
  - case_decide as Hk; [lia|done].
Qed.

Lemma elem_of_liveAt (entries : list (string * E)) (loc : Location) (c : N) :
  c ∈ omap (liveAt getLoc counts (locationKey loc)) entries ↔ liveExactMatch getLoc counts entries loc c.
Proof.
  rewrite list_elem_of_omap. unfold liveAt, liveExactMatch. split.
  - intros ([key e] & Hin & Hlive). case_decide as H; [|done].
    injection Hlive as <-. destruct H. by exists key, e.
  - intros (key & e & Hin & Hk & Hc & Hnz). exists (key, e). split; [done|].
    cbn [fst snd]. rewrite decide_True by (by rewrite Hc). by rewrite Hc.
Qed.

Lemma elem_of_liveCount (entries : list (string * E)) (loc : Location) (c : N) :
  c ∈ omap (liveCount getLoc counts (lineKey loc)) entries ↔
  liveLineMatch getLoc counts entries loc c.
Proof.
  rewrite list_elem_of_omap. unfold liveCount, liveLineMatch. split.
  - intros ([key e] & Hin & Hlive). case_decide as H; [|done].
    injection Hlive as <-. destruct H. by exists key, e.
  - intros (key & e & Hin & Hk & Hc & Hnz). exists (key, e). split; [done|].
    cbn [fst snd]. rewrite decide_True by (by rewrite Hc). by rewrite Hc.
Qed.

(** The two-tier lookup into the indexes built by the count loop. *)
Lemma contribution_by_match (entries : list (string * E)) :
  contributesByMatch getLoc counts entries
    (λ loc, nullish ((foldl (countStep getLoc counts) (∅, ∅) entries).1 !! locationKey loc)
                    ((foldl (countStep getLoc counts) (∅, ∅) entries).2 !! lineKey loc)).
Proof.
  intros loc. cbv beta. rewrite countStep_exact. cbn [fst]. rewrite lookup_empty.
  pose proof (elem_of_liveAt entries loc) as Hexact.
  pose proof (elem_of_liveCount entries loc) as Hline.
  pose proof (LookupProps.byLine_is_max getLoc counts entries (lineKey loc)) as Hmax.
  pose proof (LookupProps.countStep_byLine getLoc counts entries (∅, ∅) (lineKey loc)) as Hby.
  cbn [snd] in Hby. rewrite lookup_empty in Hby.
  destruct (last (omap (liveAt getLoc counts (locationKey loc)) entries)) as [c0|] eqn:Hlast; cbn [nullish].
  - apply last_Some_elem_of in Hlast. split_and!.
    + intros c [= <-]. left. by apply Hexact.
    + intros _. exists c0. split; [done|by apply Hexact].
    + split; [done|]. intros Hnone. exfalso.
      destruct (Hnone c0) as [Hn _]. by apply Hn, Hexact.
  - apply last_None in Hlast. split_and!.
    + intros c Hc. right. apply Hline. by apply Hmax.
    + intros (c & Hc). apply Hexact in Hc. rewrite Hlast in Hc. by apply elem_of_nil in Hc.
    + rewrite Hby. clear Hby Hmax.
      destruct (omap (liveCount getLoc counts (lineKey loc)) entries) as [|c l].
      * split; [|done]. intros _ c. rewrite <- Hexact, <- Hline, Hlast.
        split; apply not_elem_of_nil.
      * split; [done|]. intros Hnone. exfalso.
        destruct (Hnone c) as [_ Hn]. apply Hn, Hline. left.
Qed.
End exact_index.

Lemma stmtContribution_by_match (src : FileCoverageData) :
  contributesByMatch id (s src) (statementMap src) (λ loc, stmtContribution loc src).
Proof. apply (contribution_by_match id (s src) (statementMap src)). Qed.

Lemma fnContribution_by_match (src : FileCoverageData) :
  contributesByMatch fn_loc (f src) (fnMap src) (λ loc, fnContribution loc src).
Proof. apply (contribution_by_match fn_loc (f src) (fnMap src)). Qed.

Lemma omap_fmap_compose {A B C} (g : A → B) (h : B → option C) (l : list A) :
  omap h (g <$> l) = omap (h ∘ g) l.
Proof. induction l as [|x l IH]; [done|]. cbn. by rewrite IH. Qed.

Section count_merge_order.
Context {E : Type} (getLoc : E → Location).
Context (exact : CoverageLookups → gmap string N) (byLine : CoverageLookups → gmap Z N).

End count_merge_order.



End CountProps.

(** * Branch counts of the merged record *)

Module BranchProps.
Import SmartMerge Spec Samples.

(** Case split on whether any lookup yielded an array. *)
Ltac split_last_hit :=
  match goal with |- context [last ?l] => generalize (last l); intros [?|] end.

Lemma mergeBranchStep_other (lookups : list CoverageLookups)
    (entries : list (string * BranchEntry)) (bc : gmap string (list N)) key :
  key ∉ entries.*1 → foldl (mergeBranchStep lookups) bc entries !! key = bc !! key.
Proof.
  revert bc. induction entries as [|entry entries IH]; intros bc Hnot; [done|].
  cbn [foldl]. rewrite fmap_cons, not_elem_of_cons in Hnot. destruct Hnot as [Hne Hnot].
  rewrite IH by done. unfold mergeBranchStep. rewrite MergerProps.branchHit_fold.
  split_last_hit; [|done]. by rewrite lookup_insert_ne.
Qed.

Lemma mergeBranchStep_at (lookups : list CoverageLookups)
    (entries : list (string * BranchEntry)) (bc : gmap string (list N)) key branch :
  NoDup entries.*1 → (key, branch) ∈ entries →
  foldl (mergeBranchStep lookups) bc entries !! key =
    match last (omap (λ lookup, nullish (branches lookup !! locationKey (br_loc branch))
                                        (branchesByLine lookup !! lineKey (br_loc branch)))
                     lookups) with
    | Some counts => Some (maxWith (default [] (bc !! key)) counts)
    | None => bc !! key
    end.
Proof.
  revert bc. induction entries as [|entry entries IH]; intros bc Hnd Hin.
  { by apply elem_of_nil in Hin. }
  rewrite fmap_cons in Hnd. apply NoDup_cons in Hnd as [Hfresh Hnd].
  cbn [foldl]. apply elem_of_cons in Hin as [<-|Hin].
  - rewrite mergeBranchStep_other by done. unfold mergeBranchStep. cbn [fst snd].
    rewrite MergerProps.branchHit_fold. split_last_hit; [|done].
    by rewrite lookup_insert_eq.
  - assert (entry.1 ≠ key) as Hne.
    { intros <-. apply Hfresh. apply list_elem_of_fmap. by exists (entry.1, branch). }
    rewrite IH by done.
    assert (mergeBranchStep lookups bc entry !! key = bc !! key) as ->; [|done].
    unfold mergeBranchStep. rewrite MergerProps.branchHit_fold.
    split_last_hit; [|done]. by rewrite lookup_insert_ne.
Qed.

(** What the branch loop computes: the baseline's array raised index by
    index to the array of the last source that contributes one; the arrays
    of earlier contributing sources are overwritten. *)
Lemma merge_branch_last_hit (coverages : list FileCoverageData) :
  (2 ≤ length coverages)%nat →
  ∃ best merged,
    selectBestSource coverages = Some best ∧ mergeFileCoverages coverages = Some merged ∧
    branchMap merged = branchMap best ∧
    (NoDup (branchMap best).*1 → ∀ key branch, (key, branch) ∈ branchMap merged →
       b merged !! key =
         match last (omap (branchContribution (br_loc branch)) coverages) with
         | Some counts => Some (maxWith (default [] (b best !! key)) counts)
         | None => b best !! key
         end).
Proof.
  intros Hlen.
  destruct (MergerProps.mergeFileCoverages_many coverages Hlen)
    as (first & best & _ & Hbest & Hmerged).
  eexists best, _. split_and!; [exact Hbest|exact Hmerged|done|]. cbn [b branchMap].
  intros Hnd key branch Hin.
  rewrite (mergeBranchStep_at _ _ _ key branch Hnd Hin).
  by rewrite CountProps.omap_fmap_compose.
Qed.

Lemma merge_branch_last_hit_witness :
  (2 ≤ length branchRuns)%nat ∧
  ∃ best merged,
    selectBestSource branchRuns = Some best ∧ mergeFileCoverages branchRuns = Some merged ∧
    branchMap merged = branchMap best ∧
    (NoDup (branchMap best).*1 → ∀ key branch, (key, branch) ∈ branchMap merged →
       b merged !! key =
         match last (omap (branchContribution (br_loc branch)) branchRuns) with
         | Some counts => Some (maxWith (default [] (b best !! key)) counts)
         | None => b best !! key
         end).
Proof.
  assert (2 ≤ length branchRuns)%nat as Hlen by (cbn; lia).
  split; [exact Hlen|]. exact (merge_branch_last_hit branchRuns Hlen).
Defined.

(** C1, on two records whose branch arrays are [1, 0] and [0, 1]: the second
    record is the baseline, both contribute their array at the branch's
    exact key, the elementwise maximum is [1, 1], and the merged array is
    [0, 1]. *)
Example merge_branch_overwrites_earlier_source :
  selectBestSource [unitBranch; componentBranch] = Some componentBranch ∧
  branchContribution (at_ 2 0) unitBranch = Some [1%N; 0%N] ∧
  branchContribution (at_ 2 0) componentBranch = Some [0%N; 1%N] ∧
  maxWith (maxWith [0%N; 1%N] [1%N; 0%N]) [0%N; 1%N] = [1%N; 1%N] ∧
  (mergeFileCoverages [unitBranch; componentBranch] ≫= λ merged, b merged !! "0")
    = Some [0%N; 1%N].
Proof. split_and!; by vm_compute. Qed.

End BranchProps.

(** * The Map Orchestrator *)

Module OrchestratorProps.
Import SmartMerge Spec Samples.

Lemma objGet_is_Some {V} (o : list (string * V)) (k : string) :
  is_Some (objGet o k) ↔ k ∈ o.*1.
Proof.
  induction o as [|entry o IH]; cbn [objGet].
  - split; [by intros [? ?]|]. intros H. by apply elem_of_nil in H.
  - rewrite fmap_cons, elem_of_cons. case_decide as Hk.
    + split; [by left|by eexists].
    + rewrite IH. split; [by right|]. by intros [?|?].
Qed.

Lemma elem_of_addFiles (keys acc : list string) (file : string) :
  file ∈ foldl addFile acc keys ↔ file ∈ acc ∨ file ∈ keys.
Proof.
  revert acc. induction keys as [|k keys IH]; intros acc; cbn [foldl].
  - rewrite elem_of_nil. tauto.
  - rewrite IH, elem_of_cons. unfold addFile. case_decide as Hk.
    + split; [tauto|]. intros [?|[->|?]]; tauto.
    + rewrite elem_of_app, list_elem_of_singleton. tauto.
Qed.

Lemma elem_of_collectFiles (coverageMaps : list (list (string * FileCoverageData)))
    (file : string) :
  file ∈ collectFiles coverageMaps ↔ ∃ m, m ∈ coverageMaps ∧ file ∈ m.*1.
Proof.
  unfold collectFiles.
  assert (∀ acc, file ∈ foldl (λ allFiles m, foldl addFile allFiles m.*1) acc coverageMaps
                 ↔ file ∈ acc ∨ ∃ m, m ∈ coverageMaps ∧ file ∈ m.*1) as Hgen.
  { induction coverageMaps as [|m ms IH]; intros acc; cbn [foldl].
    - split; [by left|]. intros [?|(m & Hm & _)]; [done|]. by apply elem_of_nil in Hm.
    - rewrite IH, elem_of_addFiles. split.
      + intros [[?|?]|(m' & Hm' & ?)]; [by left|right..].
        * exists m. split; [left|done].
        * exists m'. split; [by right|done].
      + intros [?|(m' & [->|Hm']%elem_of_cons & ?)]; [by left; left|by left; right|].
        right. by exists m'. }
  rewrite Hgen, elem_of_nil. split; [by intros [?|?]|by right].
Qed.

Lemma mergeFileCoverages_total (coverages : list FileCoverageData) :
  coverages ≠ [] → is_Some (mergeFileCoverages coverages).
Proof.
  destruct coverages as [|first [|second rest]]; [done|by eexists|]. intros _.
  destruct (MergerProps.mergeFileCoverages_many (first :: second :: rest)) as (? & ? & _ & _ & ->);
    [cbn; lia|by eexists].
Qed.

Lemma fileCoveragesOf_nonempty (coverageMaps : list (list (string * FileCoverageData)))
    (file : string) :
  file ∈ collectFiles coverageMaps → fileCoveragesOf coverageMaps file ≠ [].
Proof.
  intros (m & Hm & [record Hrec]%objGet_is_Some)%elem_of_collectFiles Hnil.
  assert (record ∈ fileCoveragesOf coverageMaps file) as Hin.
  { apply list_elem_of_omap. by exists m. }
  rewrite Hnil in Hin. by apply elem_of_nil in Hin.
Qed.

Lemma mergeOneFile_key (coverageMaps : list (list (string * FileCoverageData)))
    (file : string) (r : string * FileCoverageData) :
  mergeOneFile coverageMaps file = Some r → r.1 = file.
Proof.
  unfold mergeOneFile.
  destruct (fileCoveragesOf coverageMaps file) as [|c [|c' l]];
    [|by intros [= <-]|]; (destruct (mergeFileCoverages _); intros; by simplify_eq/=).
Qed.

Lemma mergeOneFile_total (coverageMaps : list (list (string * FileCoverageData)))
    (file : string) :
  file ∈ collectFiles coverageMaps → is_Some (mergeOneFile coverageMaps file).
Proof.
  intros Hne%fileCoveragesOf_nonempty. unfold mergeOneFile.
  destruct (mergeFileCoverages_total _ Hne) as [merged Hmerged].
  destruct (fileCoveragesOf coverageMaps file) as [|c [|c' l]]; [done|by eexists|].
  rewrite Hmerged. by eexists.
Qed.

(** The orchestrator never throws: [mergeFileCoverages] is only called with
    the records of a file that some input map contains. *)
Lemma smartMergeCoverage_total (coverageMaps : list (list (string * FileCoverageData))) :
  is_Some (smartMergeCoverage coverageMaps).
Proof.
  unfold smartMergeCoverage. destruct coverageMaps as [|m [|m' ms]]; [by eexists..|].
  apply mapM_is_Some, Forall_forall. intros file Hfile. by apply mergeOneFile_total.
Qed.

(** Reading the merged map: the entry of a collected file is what
    [mergeOneFile] produced for it. *)
Lemma objGet_mapM (g : string → option (string * FileCoverageData))
    (files : list string) (merged : list (string * FileCoverageData)) (file : string) :
  (∀ x r, g x = Some r → r.1 = x) →
  mapM g files = Some merged → file ∈ files →
  objGet merged file = snd <$> g file.
Proof.
  intros Hkey Hmap%mapM_Some Hin.
  induction Hmap as [|x r files merged Hx _ IH]; [by apply elem_of_nil in Hin|].
  cbn [objGet]. pose proof (Hkey x r Hx) as Hr. case_decide as Hk.
  - assert (x = file) as -> by congruence. by rewrite Hx.
  - apply IH. apply elem_of_cons in Hin as [->|Hin]; [congruence|done].
Qed.

Lemma omap_all_None {A B} (g : A → option B) (l : list A) :
  (∀ x, x ∈ l → g x = None) → omap g l = [].
Proof.
  induction l as [|x l IH]; intros Hnone; [done|].
  rewrite LookupProps.omap_cons_eq, (Hnone x) by left. apply IH.
  intros y Hy. apply Hnone. by right.
Qed.

Lemma fileCoveragesOf_single (coverageMaps : list (list (string * FileCoverageData)))
    (i : nat) (file : string) (record : FileCoverageData) :
  presentOnlyAt coverageMaps i file record → fileCoveragesOf coverageMaps file = [record].
Proof.
  intros [(m & Hi & Hm) Hothers]. unfold fileCoveragesOf.
  rewrite <- (take_drop_middle coverageMaps i m Hi), omap_app, LookupProps.omap_cons_eq, Hm.
  rewrite !omap_all_None; [done|..].
  - intros m' (j & Hj)%list_elem_of_lookup. rewrite lookup_drop in Hj.
    apply (Hothers (S i + j)%nat); [lia|done].
  - intros m' (j & Hj)%list_elem_of_lookup.
    apply lookup_take_Some in Hj as [Hj Hlt]. apply (Hothers j); [lia|done].
Qed.

(** C7. With two or more input maps, a file that exactly one of them contains
    is given, in the merged map, the record of that map unchanged. *)
Theorem single_source_file_copied (coverageMaps : list (list (string * FileCoverageData)))
    (i : nat) (file : string) (record : FileCoverageData) :
  (2 ≤ length coverageMaps)%nat →
  presentOnlyAt coverageMaps i file record →
  ∃ merged, smartMergeCoverage coverageMaps = Some merged ∧
            objGet merged file = Some record.
Proof.
  intros Hlen Honly.
  destruct (smartMergeCoverage_total coverageMaps) as [merged Hmerged].
  exists merged. split; [done|].
  pose proof (fileCoveragesOf_single _ _ _ _ Honly) as Hsingle.
  destruct Honly as [(m & Hi & Hm) _].
  assert (file ∈ collectFiles coverageMaps) as Hfile.
  { apply elem_of_collectFiles. exists m. split; [by eapply list_elem_of_lookup_2|].
    apply objGet_is_Some. by eexists. }
  unfold smartMergeCoverage in Hmerged.
  destruct coverageMaps as [|m0 [|m1 ms]]; [cbn in Hlen; lia..|].
  rewrite (objGet_mapM _ _ _ file (mergeOneFile_key _) Hmerged Hfile).
  unfold mergeOneFile. by rewrite Hsingle.
Qed.

Lemma single_source_file_copied_witness :
  (2 ≤ length disjointMaps)%nat ∧
  presentOnlyAt disjointMaps 0 "/path/to/unit-only.ts" (oneStatement "/path/to/unit-only.ts") ∧
  ∃ merged, smartMergeCoverage disjointMaps = Some merged ∧
            objGet merged "/path/to/unit-only.ts" =
              Some (oneStatement "/path/to/unit-only.ts").
Proof.
  assert (2 ≤ length disjointMaps)%nat as Hlen by (cbn; lia).
  assert (presentOnlyAt disjointMaps 0 "/path/to/unit-only.ts"
            (oneStatement "/path/to/unit-only.ts")) as Honly.
  { split.
    - exists unitOnly. split; reflexivity.
    - intros [|[|j]] m Hj Hm; [congruence| |discriminate Hm].
      injection Hm as <-. reflexivity. }
  split; [exact Hlen|]. split; [exact Honly|].
  exact (single_source_file_copied disjointMaps 0 _ _ Hlen Honly).
Defined.

Lemma mapM_keys (g : string → option (string * FileCoverageData))
    (files : list string) (merged : list (string * FileCoverageData)) :
  (∀ x r, g x = Some r → r.1 = x) → mapM g files = Some merged → merged.*1 = files.
Proof.
  intros Hkey Hmap%mapM_Some.
  induction Hmap as [|x r files merged Hx _ IH]; [done|].
  rewrite fmap_cons, IH. f_equal. by apply Hkey.
Qed.

(** The orchestrator always returns a map, and the files of that map are the
    files of the input maps: [mergeFileCoverages] is never called without a
    record, so its error cannot occur. *)
Theorem smartMergeCoverage_never_throws
    (coverageMaps : list (list (string * FileCoverageData))) :
  ∃ merged, smartMergeCoverage coverageMaps = Some merged ∧
    ∀ file, file ∈ merged.*1 ↔ ∃ m, m ∈ coverageMaps ∧ file ∈ m.*1.
Proof.
  destruct (smartMergeCoverage_total coverageMaps) as [merged Hmerged].
  exists merged. split; [done|]. intros file.
  unfold smartMergeCoverage in Hmerged.
  destruct coverageMaps as [|m0 [|m1 ms]].
  - injection Hmerged as <-. split; [by intros ?%elem_of_nil|].
    by intros (m & ?%elem_of_nil & _).
  - injection Hmerged as <-. split.
    + intros Hfile. exists m0. split; [left|done].
    + by intros (m & ->%list_elem_of_singleton & Hfile).
  - rewrite (mapM_keys _ _ _ (mergeOneFile_key _) Hmerged). apply elem_of_collectFiles.
Qed.

(** No input map gives the empty map, one input map gives a copy of it. *)
Lemma smartMergeCoverage_degenerate :
  smartMergeCoverage [] = Some [] ∧ ∀ m, smartMergeCoverage [m] = Some m.
Proof. split; [reflexivity|]. intros m. reflexivity. Qed.

(** Two sources of one file with the same shape and disjoint nonzero
    statement ids: the merged counts are 1 and 1. *)
Example merge_disjoint_statement_counts :
  (s <$> mergeFileCoverages statementRuns) = Some {["0" := 1%N; "1" := 1%N]}.
Proof. by vm_compute. Qed.

(** The first source has a leading statement at line 1, column 0, that the
    second lacks: the second is the baseline and the merged record has one
    statement id fewer than the first source. *)
Example merge_prefers_source_without_pseudo_statement :
  selectBestSource directiveRuns = Some componentPlain ∧
  (statementMap <$> mergeFileCoverages directiveRuns) = Some [("0", at_ 2 0)].
Proof. split; by vm_compute. Qed.

End OrchestratorProps.

(** * The Normalizer *)

Module NormalizerProps.
Import SmartMerge Normalize NormalizeSpec Samples.

Lemma splitLines_nonempty (text : list N) : splitLines text ≠ [].
Proof.
  induction text as [|c rest IH]; cbn [splitLines]; [done|].
  destruct (c =? 10)%N; [done|]. by destruct (splitLines rest).
Qed.

Lemma normalizeFileCoverage_readable fs filePath fileData text :
  fs filePath = Readable text →
  normalizeFileCoverage fs filePath fileData =
    foldl removeStep (fileData, noRemovals)
          (keysToRemove (splitLines text) (statementMap fileData)).
Proof.
  intros Hfs. unfold normalizeFileCoverage, readLines, existsSync, readFileSync.
  rewrite Hfs. cbn. case_decide as Hlen; [|done].
  by apply nil_length_inv, splitLines_nonempty in Hlen.
Qed.

Lemma normalizeFileCoverage_unreadable fs filePath fileData :
  unreadable fs filePath → normalizeFileCoverage fs filePath fileData = (fileData, noRemovals).
Proof.
  intros [Hfs|Hfs]; unfold normalizeFileCoverage, readLines, existsSync, readFileSync;
    by rewrite Hfs.
Qed.

Lemma removeStep_fold (items : list (string * RemovalType)) fileData result :
  foldl removeStep (fileData, result) items =
    (removed fileData items,
     {| fileImportsRemoved :=
          fileImportsRemoved result + length (filter (λ item, item.2 = import_) items);
        fileDirectivesRemoved :=
          fileDirectivesRemoved result + length (filter (λ item, item.2 = directive) items) |}).
Proof.
  revert fileData result. induction items as [|item items IH]; intros fileData result.
  - cbn. unfold removed. cbn. rewrite !Nat.add_0_r.
    destruct fileData, result. f_equal. cbn. f_equal.
    induction statementMap0 as [|e l IHl]; [done|].
    rewrite filter_cons_True by apply not_elem_of_nil. by rewrite <- IHl.
  - cbn [foldl]. unfold removeStep at 2. cbn [fst snd]. rewrite IH. clear IH.
    unfold removed. cbn [path statementMap s fnMap f branchMap b foldl]. f_equal.
    + f_equal. unfold objDelete. rewrite list_filter_filter. apply list_filter_iff.
      intros entry. rewrite fmap_cons, not_elem_of_cons. tauto.
    + rewrite !filter_cons.
      destruct (item.2); repeat case_decide; try congruence; cbn; f_equal; lia.
Qed.

Lemma deleted_lookup (items : list (string * RemovalType)) (counts : gmap string N) key :
  foldl (λ counts item, delete item.1 counts) counts items !! key =
    if decide (key ∈ items.*1) then None else counts !! key.
Proof.
  revert counts. induction items as [|item items IH]; intros counts; cbn [foldl].
  - by rewrite decide_False by apply not_elem_of_nil.
  - rewrite IH, fmap_cons. destruct (decide (key ∈ items.*1)) as [Hin|Hnot].
    + by rewrite decide_True by (by right).
    + destruct (decide (item.1 = key)) as [<-|Hne].
      * rewrite lookup_delete_eq. by rewrite decide_True by left.
      * rewrite lookup_delete_ne by done. rewrite decide_False; [done|].
        rewrite elem_of_cons. intros [?|?]; congruence.
Qed.

Lemma elem_of_keysToRemove lines (stmtMap : list (string * Location)) key :
  key ∈ (keysToRemove lines stmtMap).*1 ↔
  ∃ entry, entry ∈ stmtMap ∧ entry.1 = key ∧ stmtKind lines entry ≠ None.
Proof.
  unfold keysToRemove, stmtKind. rewrite list_elem_of_fmap. split.
  - intros (item & -> & (entry & Hin & Hitem)%list_elem_of_omap). exists entry.
    destruct (classify _); [|done]. injection Hitem as <-. done.
  - intros (entry & Hin & <- & Hkind).
    destruct (classify (lineContentAt lines (line (start entry.2)))) as [ty|] eqn:Hty; [|done].
    exists (entry.1, ty). split; [done|]. apply list_elem_of_omap. exists entry.
    by rewrite Hty.
Qed.

Lemma entry_by_key {V} (o : list (string * V)) (e e' : string * V) :
  NoDup o.*1 → e ∈ o → e' ∈ o → e.1 = e'.1 → e = e'.
Proof.
  induction o as [|x o IH]; intros Hnd He He' Hk; [by apply elem_of_nil in He|].
  rewrite fmap_cons in Hnd. apply NoDup_cons in Hnd as [Hfresh Hnd].
  apply elem_of_cons in He as [->|He]; apply elem_of_cons in He' as [->|He']; [done|..].
  - exfalso. apply Hfresh. rewrite Hk. by apply list_elem_of_fmap_2.
  - exfalso. apply Hfresh. rewrite <- Hk. by apply list_elem_of_fmap_2.
  - by apply IH.
Qed.

Lemma filter_iff_on {A} (P Q : A → Prop) `{!∀ x, Decision (P x), !∀ x, Decision (Q x)}
    (l : list A) :
  (∀ x, x ∈ l → P x ↔ Q x) → filter P l = filter Q l.
Proof.
  induction l as [|x l IH]; intros Hiff; [done|].
  rewrite !filter_cons, IH by (intros y Hy; apply Hiff; by right).
  apply decide_ext, Hiff. left.
Qed.

(** With distinct keys, what survives the removal loop is what was not
    classified. *)
Lemma remaining_statements lines (stmtMap : list (string * Location)) :
  NoDup stmtMap.*1 →
  filter (λ entry, entry.1 ∉ (keysToRemove lines stmtMap).*1) stmtMap =
  filter (λ entry, stmtKind lines entry = None) stmtMap.
Proof.
  intros Hnd. apply filter_iff_on. intros entry Hin. rewrite elem_of_keysToRemove. split.
  - intros Hnot. destruct (stmtKind lines entry) eqn:Hkind; [|done].
    exfalso. apply Hnot. exists entry. by rewrite Hkind.
  - intros Hnone (entry' & Hin' & Hkey & Hkind).
    by rewrite (entry_by_key stmtMap entry' entry Hnd Hin' Hin Hkey) in Hkind.
Qed.

Lemma count_kind lines (stmtMap : list (string * Location)) (ty : RemovalType) :
  length (filter (λ item, item.2 = ty) (keysToRemove lines stmtMap)) =
  length (filter (λ entry, stmtKind lines entry = Some ty) stmtMap).
Proof.
  unfold keysToRemove, stmtKind. induction stmtMap as [|entry stmtMap IH]; [done|].
  rewrite LookupProps.omap_cons_eq, (filter_cons _ entry).
  destruct (classify _) as [ty'|]; cbn [fmap option_fmap option_map].
  - rewrite filter_cons. cbn [snd]. destruct (decide (ty' = ty)) as [->|Hne].
    + rewrite decide_True by done. cbn [length]. by rewrite IH.
    + rewrite decide_False by congruence. done.
  - by rewrite decide_False by done.
Qed.

Lemma keysToRemove_nil lines (stmtMap : list (string * Location)) :
  (∀ entry, entry ∈ stmtMap → stmtKind lines entry = None) → keysToRemove lines stmtMap = [].
Proof.
  intros Hnone. apply OrchestratorProps.omap_all_None. intros entry Hin.
  specialize (Hnone entry Hin). unfold stmtKind in Hnone. by rewrite Hnone.
Qed.

(** A second pass over a normalized record removes nothing. *)
Lemma normalizeFileCoverage_idem fs filePath fileData :
  normalizeFileCoverage fs filePath (normalizeFileCoverage fs filePath fileData).1 =
    ((normalizeFileCoverage fs filePath fileData).1, noRemovals).
Proof.
  destruct (fs filePath) as [| |text] eqn:Hfs.
  - rewrite !normalizeFileCoverage_unreadable by (by left). done.
  - rewrite !normalizeFileCoverage_unreadable by (by right). done.
  - rewrite !(normalizeFileCoverage_readable fs filePath _ text Hfs).
    rewrite (removeStep_fold _ fileData noRemovals). cbn [fst].
    set (items := keysToRemove (splitLines text) (statementMap fileData)).
    assert (keysToRemove (splitLines text) (statementMap (removed fileData items)) = [])
      as ->; [|done].
    apply keysToRemove_nil. unfold removed. cbn [statementMap].
    intros entry [Hnot Hin]%list_elem_of_filter.
    destruct (stmtKind (splitLines text) entry) eqn:Hkind; [|done].
    exfalso. apply Hnot, elem_of_keysToRemove. exists entry. by rewrite Hkind.
Qed.

(** The map-level pass normalizes each record in turn and adds up the
    counters. *)
Lemma normalizeCoverage_each fs (cm : list (string * FileCoverageData)) :
  normalizeCoverage fs cm =
    {| coverageMap := (λ entry, (entry.1, (normalizeFileCoverage fs entry.1 entry.2).1)) <$> cm;
       importsRemoved :=
         sum_list_with (λ entry, fileImportsRemoved (normalizeFileCoverage fs entry.1 entry.2).2) cm;
       directivesRemoved :=
         sum_list_with (λ entry, fileDirectivesRemoved (normalizeFileCoverage fs entry.1 entry.2).2) cm |}.
Proof.
  unfold normalizeCoverage.
  assert (∀ acc, foldl (normalizeEntry fs) acc cm =
    {| coverageMap := coverageMap acc ++
         ((λ entry, (entry.1, (normalizeFileCoverage fs entry.1 entry.2).1)) <$> cm);
       importsRemoved := importsRemoved acc +
         sum_list_with (λ entry, fileImportsRemoved (normalizeFileCoverage fs entry.1 entry.2).2) cm;
       directivesRemoved := directivesRemoved acc +
         sum_list_with (λ entry, fileDirectivesRemoved (normalizeFileCoverage fs entry.1 entry.2).2) cm |})
    as Hgen.
  { induction cm as [|entry cm IH]; intros acc; cbn [foldl].
    - cbn. rewrite app_nil_r, !Nat.add_0_r. by destruct acc.
    - rewrite IH. unfold normalizeEntry.
      cbn [coverageMap importsRemoved directivesRemoved fmap list_fmap sum_list_with].
      f_equal; [by rewrite <- app_assoc|lia..]. }
  by rewrite Hgen.
Qed.

(** C9. A second normalization of an already normalized map, over the same
    source texts, leaves the map as it is and reports no removal. *)
Theorem normalizeCoverage_idempotent fs (cm : list (string * FileCoverageData)) :
  normalizeCoverage fs (coverageMap (normalizeCoverage fs cm)) =
    {| coverageMap := coverageMap (normalizeCoverage fs cm);
       importsRemoved := 0; directivesRemoved := 0 |}.
Proof.
  rewrite (normalizeCoverage_each fs cm). cbn [coverageMap].
  rewrite normalizeCoverage_each. f_equal.
  - rewrite <- list_fmap_compose. apply list_fmap_ext. intros i entry _. cbn.
    by rewrite normalizeFileCoverage_idem.
  - induction cm as [|entry cm IH]; [done|]. cbn. by rewrite normalizeFileCoverage_idem, IH.
  - induction cm as [|entry cm IH]; [done|]. cbn. by rewrite normalizeFileCoverage_idem, IH.
Qed.

(** C8. A record whose source text is missing or cannot be read passes through
    normalization unchanged and adds nothing to either counter: the map's
    totals are those of the map without that record. *)
Theorem normalize_skips_unreadable fs (cm : list (string * FileCoverageData))
    (i : nat) (filePath : string) (fileData : FileCoverageData) :
  cm !! i = Some (filePath, fileData) →
  unreadable fs filePath →
  normalizeFileCoverage fs filePath fileData = (fileData, noRemovals) ∧
  coverageMap (normalizeCoverage fs cm) !! i = Some (filePath, fileData) ∧
  importsRemoved (normalizeCoverage fs cm) = importsRemoved (normalizeCoverage fs (delete i cm)) ∧
  directivesRemoved (normalizeCoverage fs cm) =
    directivesRemoved (normalizeCoverage fs (delete i cm)).
Proof.
  intros Hi Hfs. pose proof (normalizeFileCoverage_unreadable fs filePath fileData Hfs) as Hskip.
  rewrite !normalizeCoverage_each. cbn [coverageMap importsRemoved directivesRemoved].
  split_and!; [done| | |].
  - rewrite list_lookup_fmap, Hi. cbn. by rewrite Hskip.
  - rewrite delete_take_drop, <- (take_drop_middle cm i _ Hi) at 1.
    rewrite !sum_list_with_app. cbn. rewrite Hskip. cbn. lia.
  - rewrite delete_take_drop, <- (take_drop_middle cm i _ Hi) at 1.
    rewrite !sum_list_with_app. cbn. rewrite Hskip. cbn. lia.
Qed.

Lemma startsWith_app (l p : list N) : startsWith l p = true ↔ ∃ rest, l = p ++ rest.
Proof.
  revert l. induction p as [|c p IH]; intros [|c' l]; cbn [startsWith].
  - split; [|done]. intros _. by exists [].
  - split; [|done]. intros _. by exists (c' :: l).
  - split; [done|]. by intros (rest & ?).
  - rewrite andb_true_iff, N.eqb_eq, IH. split.
    + intros [-> (rest & ->)]. by exists rest.
    + intros (rest & Hrest). injection Hrest as -> ->. split; [done|by exists rest].
Qed.

Lemma isDirective_spec (l : list N) : isDirective l = true ↔ l ∈ directiveLiterals.
Proof.
  unfold isDirective, directiveLiterals, useServerLiterals, useClientLiterals.
  rewrite !orb_true_iff, !bool_decide_eq_true. cbn [app fmap list_fmap].
  rewrite !elem_of_cons, elem_of_nil. tauto.
Qed.

Lemma classify_import (l : list N) : classify l = Some import_ ↔ isImportLine l.
Proof.
  unfold classify, isImportLine.
  destruct (startsWith l (js "import ")) eqn:H1; cbn [orb].
  - apply startsWith_app in H1 as [rest ->]. split; [|done]. intros _. exists rest. by left.
  - destruct (startsWith l (js "import{")) eqn:H2.
    + apply startsWith_app in H2 as [rest ->]. split; [|done]. intros _. exists rest. by right.
    + split; [by destruct (isDirective l)|].
      intros (rest & [Hl|Hl]).
      * assert (startsWith l (js "import ") = true) by (apply startsWith_app; by exists rest).
        congruence.
      * assert (startsWith l (js "import{") = true) by (apply startsWith_app; by exists rest).
        congruence.
Qed.

Lemma classify_directive (l : list N) : classify l = Some directive ↔ l ∈ directiveLiterals.
Proof.
  rewrite <- isDirective_spec. split.
  - unfold classify. destruct (_ || _); [done|]. by destruct (isDirective l).
  - intros Hd. pose proof Hd as Hl. apply isDirective_spec in Hl.
    unfold directiveLiterals, useServerLiterals, useClientLiterals in Hl.
    cbn [app fmap list_fmap] in Hl. rewrite !elem_of_cons, elem_of_nil in Hl.
    destruct Hl as [->|[->|[->|[->|[->|[->|[->|[->|[]]]]]]]]]; reflexivity.
Qed.

Lemma lineContentAt_trim (lines : list (list N)) (n : nat) (l : list N) :
  lines !! n = Some l → lineContentAt lines (Z.of_nat n + 1) = trim l.
Proof.
  intros Hn. unfold lineContentAt.
  destruct (Z.ltb_spec (Z.of_nat n + 1 - 1) 0) as [?|_]; [lia|].
  replace (Z.to_nat (Z.of_nat n + 1 - 1)) with n by lia. by rewrite Hn.
Qed.

(** ** Lines and trimming, against their descriptions *)

Lemma splitLines_app_feed (l rest : list N) :
  10%N ∉ l → splitLines (l ++ 10%N :: rest) = l :: splitLines rest.
Proof.
  induction l as [|c l IH]; intros Hfree; [done|].
  cbn [app splitLines]. apply not_elem_of_cons in Hfree as [Hc Hfree].
  rewrite (proj2 (N.eqb_neq c 10)) by done. by rewrite IH.
Qed.

Lemma splitLines_feed_free (l : list N) : 10%N ∉ l → splitLines l = [l].
Proof.
  induction l as [|c l IH]; intros Hfree; [done|].
  cbn [splitLines]. apply not_elem_of_cons in Hfree as [Hc Hfree].
  rewrite (proj2 (N.eqb_neq c 10)) by done. by rewrite IH.
Qed.

Lemma splitLines_joinLines (lines : list (list N)) :
  lines ≠ [] → Forall (λ l, 10%N ∉ l) lines → splitLines (joinLines lines) = lines.
Proof.
  intros Hne Hfree. induction Hfree as [|l rest Hl Hrest IH]; [done|].
  destruct rest as [|l' rest]; [by apply splitLines_feed_free|].
  change (joinLines (l :: l' :: rest)) with (l ++ 10%N :: joinLines (l' :: rest)).
  rewrite splitLines_app_feed by done. by rewrite IH.
Qed.

Lemma splitLines_linesOf (text : list N) : linesOf text (splitLines text).
Proof.
  unfold linesOf. induction text as [|c text (Hne & Hfree & Hjoin)].
  - split; [done|]. split; [|done]. repeat constructor. apply not_elem_of_nil.
  - cbn [splitLines]. destruct (N.eqb_spec c 10) as [->|Hc].
    + split; [done|]. split; [constructor; [apply not_elem_of_nil|done]|].
      destruct (splitLines text) as [|cur more]; [done|].
      change (joinLines ([] :: cur :: more)) with (10%N :: joinLines (cur :: more)).
      by rewrite Hjoin.
    + destruct (splitLines text) as [|cur more]; [done|].
      apply Forall_cons in Hfree as [Hcur Hmore].
      split; [done|]. split; [constructor; [by apply not_elem_of_cons|done]|].
      rewrite <- Hjoin. by destruct more.
Qed.

(** The lines of a text are what [splitLines] returns, and nothing else. *)
Lemma linesOf_splitLines (text : list N) (lines : list (list N)) :
  linesOf text lines ↔ lines = splitLines text.
Proof.
  split; [|intros ->; apply splitLines_linesOf].
  intros (Hne & Hfree & <-). by rewrite splitLines_joinLines.
Qed.

Lemma isWhiteSpace_spec (c : N) : isWhiteSpace c = true ↔ whiteSpace c.
Proof.
  unfold isWhiteSpace, whiteSpace, whiteSpaceCodes.
  rewrite !elem_of_cons, elem_of_nil, !orb_true_iff, !andb_true_iff, !N.leb_le, !N.eqb_eq.
  lia.
Qed.

Lemma isWhiteSpace_false (c : N) : isWhiteSpace c = false ↔ ¬ whiteSpace c.
Proof. rewrite <- isWhiteSpace_spec. by destruct (isWhiteSpace c). Qed.

Lemma trimStart_white (pre rest : list N) :
  Forall whiteSpace pre → trimStart (pre ++ rest) = trimStart rest.
Proof.
  induction 1 as [|c pre Hc%isWhiteSpace_spec _ IH]; [done|].
  cbn [app trimStart]. by rewrite Hc.
Qed.

Lemma trimStart_kept (t : list N) :
  (∀ c, head t = Some c → ¬ whiteSpace c) → trimStart t = t.
Proof.
  destruct t as [|c t]; [done|]. intros Hhead. cbn [trimStart].
  by rewrite (proj2 (isWhiteSpace_false c)) by (by apply Hhead).
Qed.

Lemma trimStart_split (l : list N) :
  ∃ pre, l = pre ++ trimStart l ∧ Forall whiteSpace pre ∧
         ∀ c, head (trimStart l) = Some c → ¬ whiteSpace c.
Proof.
  induction l as [|c l (pre & Hl & Hpre & Hhead)]; [by exists []|].
  cbn [trimStart]. destruct (isWhiteSpace c) eqn:Hc.
  - exists (c :: pre). split; [cbn; by rewrite <- Hl|].
    split; [|done]. constructor; [by apply isWhiteSpace_spec|done].
  - exists []. split; [done|]. split; [done|]. intros c' [= <-]. by apply isWhiteSpace_false.
Qed.

Lemma trimEnd_white (t post : list N) :
  Forall whiteSpace post → trimEnd (t ++ post) = trimEnd t.
Proof.
  induction post as [|c post IH] using rev_ind; intros Hpost; [by rewrite app_nil_r|].
  apply Forall_app in Hpost as [Hpost Hc%Forall_inv%isWhiteSpace_spec].
  rewrite app_assoc. transitivity (trimEnd (t ++ post)); [|by apply IH].
  generalize (t ++ post). intros l. induction l as [|x l IHl]; cbn [app trimEnd].
  - by rewrite Hc.
  - by rewrite IHl.
Qed.

Lemma trimEnd_kept (t : list N) :
  (∀ c, last t = Some c → ¬ whiteSpace c) → trimEnd t = t.
Proof.
  induction t as [|c t IH]; [done|]. intros Hlast. cbn [trimEnd].
  destruct t as [|c' t].
  - cbn. by rewrite (proj2 (isWhiteSpace_false c)) by (by apply Hlast).
  - rewrite IH; [done|]. intros x Hx. apply Hlast. by rewrite last_cons, Hx.
Qed.

Lemma trimEnd_split (l : list N) :
  ∃ post, l = trimEnd l ++ post ∧ Forall whiteSpace post ∧
          (∀ c, last (trimEnd l) = Some c → ¬ whiteSpace c) ∧
          (trimEnd l ≠ [] → head (trimEnd l) = head l).
Proof.
  induction l as [|c l (post & Hl & Hpost & Hlast & Hhead)]; [by exists []|].
  cbn [trimEnd]. destruct (trimEnd l) as [|x kept] eqn:Hkept.
  - destruct (isWhiteSpace c) eqn:Hc.
    + exists (c :: post). cbn [app] in *. split; [by rewrite <- Hl|].
      split; [constructor; [by apply isWhiteSpace_spec|done]|]. by split.
    + exists post. cbn [app] in *. split; [by rewrite <- Hl|]. split; [done|].
      split; [|done]. intros c' [= <-]. by apply isWhiteSpace_false.
  - exists post. split; [by rewrite Hl at 1|]. split; [done|].
    split; [|done]. intros c' Hc'. apply Hlast.
    change (last (c :: x :: kept)) with (last (x :: kept)) in Hc'. done.
Qed.

(** [trim] returns the trimmed line, and the trimmed line is unique. *)
Lemma trimmed_trim (l t : list N) : trimmed l t ↔ t = trim l.
Proof.
  unfold trim. split.
  - intros (pre & post & -> & Hpre & Hpost & Hhead & Hlast).
    rewrite trimStart_white by done. destruct t as [|c t].
    + cbn [app]. destruct (trimStart_split post) as (pre' & Hsplit & _ & Hnot).
      destruct (trimStart post) as [|x rest]; [done|]. exfalso.
      apply (Hnot x eq_refl). rewrite Hsplit in Hpost.
      apply Forall_app in Hpost as [_ Hpost]. by apply Forall_inv in Hpost.
    + rewrite trimStart_kept by (intros x [= <-]; by apply Hhead).
      rewrite trimEnd_white by done. by rewrite trimEnd_kept.
  - intros ->. destruct (trimStart_split l) as (pre & Hl & Hpre & Hhead).
    destruct (trimEnd_split (trimStart l)) as (post & Hmid & Hpost & Hlast & Hfirst).
    exists pre, post. split; [by rewrite <- Hmid|]. split; [done|]. split; [done|].
    split; [|done]. intros c Hc. apply Hhead. rewrite <- Hfirst; [done|].
    intros Hnil. by rewrite Hnil in Hc.
Qed.

(** The content of a line, as described, is what [lineContentAt] returns. *)
Lemma lineContent_lineContentAt (lines : list (list N)) (n : Z) (t : list N) :
  lineContent lines n t ↔ t = lineContentAt lines n.
Proof.
  unfold lineContent, lineContentAt. destruct (Z.ltb_spec (n - 1) 0) as [Hlow|Hin].
  - split; [|intros ->; right; split; [lia|done]].
    intros [(l & Hn & _)|[_ ->]]; [lia|done].
  - destruct (lines !! Z.to_nat (n - 1)) as [l|] eqn:Hl.
    + rewrite <- trimmed_trim. split.
      * intros [(l' & _ & [= <-] & Ht)|[[?|Hlen] _]]; [done|lia|].
        apply lookup_lt_Some in Hl. lia.
      * intros Ht. left. exists l. split; [lia|done].
    + apply lookup_ge_None in Hl. split.
      * by intros [(l' & _ & ? & _)|[_ ->]].
      * intros ->. right. split; [lia|done].
Qed.

(** The classification of the program is the described one. *)
Lemma stmtKind_removable (lines : list (list N)) (entry : string * Location)
    (ty : RemovalType) :
  stmtKind lines entry = Some ty ↔ removable lines entry ty.
Proof.
  unfold stmtKind, removable. split.
  - intros Hkind. exists (lineContentAt lines (line (start entry.2))).
    split; [by apply lineContent_lineContentAt|].
    destruct ty; [by apply classify_import|by apply classify_directive].
  - intros (t & ->%lineContent_lineContentAt & Hty).
    destruct ty; [by apply classify_import|by apply classify_directive].
Qed.

(** Every entry falls in exactly one of the three classes. *)
Lemma length_by_kind lines (stmtMap : list (string * Location)) :
  length stmtMap =
    (length (filter (λ entry, stmtKind lines entry = None) stmtMap) +
     length (filter (λ entry, stmtKind lines entry = Some import_) stmtMap) +
     length (filter (λ entry, stmtKind lines entry = Some directive) stmtMap))%nat.
Proof.
  induction stmtMap as [|entry stmtMap IH]; [done|].
  rewrite !filter_cons. cbn [length]. rewrite IH.
  destruct (stmtKind lines entry) as [[]|]; repeat case_decide; try congruence; cbn [length]; lia.
Qed.

Lemma directiveThenImport_counts lines (stmtMap : list (string * Location)) :
  directiveThenImport lines stmtMap →
  length (filter (λ entry, stmtKind lines entry = Some import_) stmtMap) = 1%nat ∧
  length (filter (λ entry, stmtKind lines entry = Some directive) stmtMap) = 1%nat.
Proof.
  intros (((t1 & ->%lineContent_lineContentAt & Hclient) &
           (t2 & ->%lineContent_lineContentAt & Himport) & Hone & Htwo) & Hother).
  assert (classify (lineContentAt lines 1) = Some directive) as Hk1.
  { apply classify_directive. unfold directiveLiterals. apply elem_of_app. by right. }
  assert (classify (lineContentAt lines 2) = Some import_) as Hk2
    by (by apply classify_import).
  assert (∀ entry, entry ∈ stmtMap →
            stmtKind lines entry =
              if decide (line (start entry.2) = 1) then Some directive
              else if decide (line (start entry.2) = 2) then Some import_ else None) as Hkind.
  { intros entry Hin. repeat case_decide.
    - unfold stmtKind. by rewrite H.
    - unfold stmtKind. by rewrite H0.
    - destruct (stmtKind lines entry) as [ty|] eqn:Hty; [|done].
      by apply stmtKind_removable, Hother in Hty. }
  split.
  - rewrite <- Htwo. f_equal. apply filter_iff_on. intros entry Hin.
    rewrite (Hkind entry Hin). repeat case_decide; split; (done || lia).
  - rewrite <- Hone. f_equal. apply filter_iff_on. intros entry Hin.
    rewrite (Hkind entry Hin). repeat case_decide; split; (done || lia).
Qed.

(** C6. For a record whose source text is readable, normalization
    deletes from [statementMap] and [s] exactly the statement entries whose
    trimmed source line (at the 1-indexed start line) begins with "import "
    or "import{" or is one of the eight directive literals, and counts them
    as [importsRemoved] and [directivesRemoved]; nothing else of the record
    changes. In the scenario of a 'use client' first line and an import
    second line, with one statement entry on each and no statement entry on
    another import or directive line, exactly two entries are removed, one
    counted as a directive and one as an import. *)
Theorem normalize_removes_imports_and_directives fs (cm : list (string * FileCoverageData))
    (i : nat) (filePath : string) (fileData : FileCoverageData) (text : list N) :
  cm !! i = Some (filePath, fileData) →
  fs filePath = Readable text →
  NoDup (statementMap fileData).*1 →
  ∃ lines fileData' result,
    (∀ lines', linesOf text lines' ↔ lines' = lines) ∧
    normalizeFileCoverage fs filePath fileData = (fileData', result) ∧
    coverageMap (normalizeCoverage fs cm) !! i = Some (filePath, fileData') ∧
    (∀ entry, entry ∈ statementMap fileData' ↔
       entry ∈ statementMap fileData ∧ ∀ ty, ¬ removable lines entry ty) ∧
    statementMap fileData' `sublist_of` statementMap fileData ∧
    (∀ entry, entry ∈ statementMap fileData →
       (∀ ty, ¬ removable lines entry ty) → s fileData' !! entry.1 = s fileData !! entry.1) ∧
    (∀ entry ty, entry ∈ statementMap fileData →
       removable lines entry ty → s fileData' !! entry.1 = None) ∧
    (∀ key, key ∉ (statementMap fileData).*1 → s fileData' !! key = s fileData !! key) ∧
    path fileData' = path fileData ∧
    fnMap fileData' = fnMap fileData ∧ f fileData' = f fileData ∧
    branchMap fileData' = branchMap fileData ∧ b fileData' = b fileData ∧
    (∃ imports, imports `sublist_of` statementMap fileData ∧
       (∀ entry, entry ∈ imports ↔
          entry ∈ statementMap fileData ∧ removable lines entry import_) ∧
       fileImportsRemoved result = length imports) ∧
    (∃ directives, directives `sublist_of` statementMap fileData ∧
       (∀ entry, entry ∈ directives ↔
          entry ∈ statementMap fileData ∧ removable lines entry directive) ∧
       fileDirectivesRemoved result = length directives) ∧
    (length (statementMap fileData) =
       length (statementMap fileData') + fileImportsRemoved result +
       fileDirectivesRemoved result)%nat ∧
    importsRemoved (normalizeCoverage fs cm) =
      sum_list_with (λ e, fileImportsRemoved (normalizeFileCoverage fs e.1 e.2).2) cm ∧
    directivesRemoved (normalizeCoverage fs cm) =
      sum_list_with (λ e, fileDirectivesRemoved (normalizeFileCoverage fs e.1 e.2).2) cm ∧
    (directiveThenImport lines (statementMap fileData) →
       (length (statementMap fileData') + 2)%nat = length (statementMap fileData) ∧
       fileDirectivesRemoved result = 1%nat ∧ fileImportsRemoved result = 1%nat).
Proof.
  intros Hi Hfs Hnd. set (lines := splitLines text).
  pose proof (normalizeFileCoverage_readable fs filePath fileData text Hfs) as Hrun.
  rewrite removeStep_fold in Hrun. fold lines in Hrun.
  assert (∀ entry, stmtKind lines entry = None ↔ ∀ ty, ¬ removable lines entry ty) as Hnone.
  { intros entry. split.
    - intros Hkind ty Hty%stmtKind_removable. congruence.
    - intros Hno. destruct (stmtKind lines entry) as [ty|] eqn:Hty; [|done].
      by apply stmtKind_removable, Hno in Hty. }
  eexists lines, _, _. split; [apply linesOf_splitLines|]. split; [exact Hrun|].
  rewrite !normalizeCoverage_each. cbn [coverageMap importsRemoved directivesRemoved].
  unfold removed. cbn [path statementMap s fnMap f branchMap b fileImportsRemoved
                       fileDirectivesRemoved noRemovals Nat.add].
  rewrite remaining_statements, !count_kind by done.
  split_and!; try done.
  - rewrite list_lookup_fmap, Hi. cbn [fmap option_fmap option_map fst snd].
    rewrite Hrun. cbn [fst]. unfold removed. by rewrite remaining_statements.
  - intros entry. rewrite list_elem_of_filter, Hnone. tauto.
  - apply sublist_filter.
  - intros entry Hin Hno%Hnone. rewrite deleted_lookup, decide_False; [done|].
    intros (entry' & Hin' & Hkey & Hkind')%elem_of_keysToRemove.
    by rewrite (entry_by_key _ entry' entry Hnd Hin' Hin Hkey) in Hkind'.
  - intros entry ty Hin Hty%stmtKind_removable. rewrite deleted_lookup, decide_True; [done|].
    apply elem_of_keysToRemove. exists entry. by rewrite Hty.
  - intros key Hkey. rewrite deleted_lookup, decide_False; [done|].
    intros (entry & Hin & <- & _)%elem_of_keysToRemove. apply Hkey.
    by apply list_elem_of_fmap_2.
  - exists (filter (λ entry, stmtKind lines entry = Some import_) (statementMap fileData)).
    split; [apply sublist_filter|]. split; [|done].
    intros entry. rewrite list_elem_of_filter, stmtKind_removable. tauto.
  - exists (filter (λ entry, stmtKind lines entry = Some directive) (statementMap fileData)).
    split; [apply sublist_filter|]. split; [|done].
    intros entry. rewrite list_elem_of_filter, stmtKind_removable. tauto.
  - pose proof (length_by_kind lines (statementMap fileData)). lia.
  - intros Hscenario. destruct (directiveThenImport_counts _ _ Hscenario) as [Himp Hdir].
    rewrite Himp, Hdir. split; [|done].
    pose proof (length_by_kind lines (statementMap fileData)). lia.
Qed.

Lemma normalize_skips_unreadable_witness :
  clientMap !! 1%nat =
    Some ("/path/to/nonexistent.ts", oneStatement "/path/to/nonexistent.ts") ∧
  unreadable clientFs "/path/to/nonexistent.ts" ∧
  normalizeFileCoverage clientFs "/path/to/nonexistent.ts"
      (oneStatement "/path/to/nonexistent.ts") =
    (oneStatement "/path/to/nonexistent.ts", noRemovals) ∧
  coverageMap (normalizeCoverage clientFs clientMap) !! 1%nat =
    Some ("/path/to/nonexistent.ts", oneStatement "/path/to/nonexistent.ts") ∧
  importsRemoved (normalizeCoverage clientFs clientMap) =
    importsRemoved (normalizeCoverage clientFs (delete 1%nat clientMap)) ∧
  directivesRemoved (normalizeCoverage clientFs clientMap) =
    directivesRemoved (normalizeCoverage clientFs (delete 1%nat clientMap)).
Proof.
  assert (unreadable clientFs "/path/to/nonexistent.ts") as Hfs by (left; reflexivity).
  split; [reflexivity|]. split; [exact Hfs|].
  exact (normalize_skips_unreadable clientFs clientMap 1 _ _ eq_refl Hfs).
Defined.

Lemma clientRecord_distinct : NoDup (statementMap clientRecord).*1.
Proof. apply (bool_decide_unpack _). vm_compute. exact I. Qed.

Lemma normalize_removes_imports_and_directives_witness :
  clientMap !! 0%nat = Some (filePath, clientRecord) ∧
  clientFs filePath = Readable clientSource ∧
  NoDup (statementMap clientRecord).*1 ∧
  directiveThenImport (splitLines clientSource) (statementMap clientRecord) ∧
  ∃ fileData' result,
    normalizeFileCoverage clientFs filePath clientRecord = (fileData', result) ∧
    coverageMap (normalizeCoverage clientFs clientMap) !! 0%nat = Some (filePath, fileData') ∧
    (length (statementMap fileData') + 2)%nat = length (statementMap clientRecord) ∧
    fileDirectivesRemoved result = 1%nat ∧ fileImportsRemoved result = 1%nat.
Proof.
  assert (directiveThenImport (splitLines clientSource) (statementMap clientRecord)) as Hscenario.
  { split; [split_and!|].
    - eexists. split; [by apply lineContent_lineContentAt|]. by left.
    - eexists. split; [by apply lineContent_lineContentAt|].
      by exists (js "React from 'react'"); left.
    - reflexivity.
    - reflexivity.
    - intros entry ty Hin H1 H2 Hty%stmtKind_removable. cbn in Hin.
      rewrite !elem_of_cons, elem_of_nil in Hin.
      destruct Hin as [->|[->|[->|[]]]]; [by destruct H1|by destruct H2|discriminate Hty]. }
  split; [reflexivity|]. split; [reflexivity|]. split; [exact clientRecord_distinct|].
  split; [exact Hscenario|].
  destruct (normalize_removes_imports_and_directives clientFs clientMap 0 filePath
              clientRecord clientSource eq_refl eq_refl clientRecord_distinct)
    as (lines & fileData' & result & Hlines & Hrun & Hmap & _ & _ & _ & _ & _ & _ & _ & _ & _
        & _ & _ & _ & _ & _ & _ & Hcount).
  exists fileData', result. split; [exact Hrun|]. split; [exact Hmap|].
  apply Hcount. by rewrite <- (proj1 (Hlines _) (splitLines_linesOf clientSource)).
Defined.

(** The scenario as it is worded does not fix the counts: with a second
    import on the third line, and a statement entry on it, three entries are
    removed and two of them are counted as imports. *)
Lemma normalize_scenario_needs_no_other_import :
  twoImportsFs filePath = Readable twoImportsSource ∧
  NoDup (statementMap clientRecord).*1 ∧
  statedScenario (splitLines twoImportsSource) (statementMap clientRecord) ∧
  length (statementMap (normalizeFileCoverage twoImportsFs filePath clientRecord).1) = 0%nat ∧
  length (statementMap clientRecord) = 3%nat ∧
  fileDirectivesRemoved (normalizeFileCoverage twoImportsFs filePath clientRecord).2 = 1%nat ∧
  fileImportsRemoved (normalizeFileCoverage twoImportsFs filePath clientRecord).2 = 2%nat ∧
  ¬ ((length (statementMap (normalizeFileCoverage twoImportsFs filePath clientRecord).1) + 2)%nat
       = length (statementMap clientRecord) ∧
     fileDirectivesRemoved (normalizeFileCoverage twoImportsFs filePath clientRecord).2 = 1%nat ∧
     fileImportsRemoved (normalizeFileCoverage twoImportsFs filePath clientRecord).2 = 1%nat).
Proof.
  split; [reflexivity|]. split; [exact clientRecord_distinct|]. split.
  { split_and!.
    - eexists. split; [by apply lineContent_lineContentAt|]. by left.
    - eexists. split; [by apply lineContent_lineContentAt|].
      by exists (js "React from 'react'"); left.
    - reflexivity.
    - reflexivity. }
  assert (normalizeFileCoverage twoImportsFs filePath clientRecord =
            ({| path := filePath; statementMap := []; s := ∅;
                fnMap := []; f := ∅; branchMap := []; b := ∅ |},
             {| fileImportsRemoved := 2; fileDirectivesRemoved := 1 |})) as ->
    by (vm_compute; reflexivity).
  cbn. split_and!; [done..|]. intros (? & _). lia.
Qed.

End NormalizerProps.


(** * More on the Lookup Index Builder *)

Module LookupFacts.
Import SmartMerge Spec MoreSpec Samples.

(** The exact branch index keeps the last array written under each key. *)
Lemma branchStep_exact bc (entries : list (string * BranchEntry)) acc (k : string) :
  (foldl (branchStep bc) acc entries).1 !! k =
    nullish (last (omap (liveBranchAt bc k) entries)) (acc.1 !! k).
Proof.
  revert acc. induction entries as [|entry entries IH]; intros acc; [done|].
  cbn [foldl]. rewrite IH, LookupProps.omap_cons_eq. clear IH.
  generalize (omap (liveBranchAt bc k) entries). intros live.
  unfold branchStep, liveBranchAt.
  destruct (existsb _ _) eqn:Hsome.
  - apply LookupProps.some_positive_iff in Hsome. cbn [fst]. case_decide as Hk.
    + destruct Hk as [<- _]. rewrite lookup_insert_eq, last_cons. by destruct (last live).
    + by rewrite lookup_insert_ne by (intros ?; by apply Hk).
  - case_decide as Hk; [|done]. destruct Hk as [_ Hex].
    apply LookupProps.some_positive_iff in Hex. congruence.
Qed.

Lemma branchStep_live bc (entries : list (string * BranchEntry)) acc :
  (∀ k arr, acc.1 !! k = Some arr → Exists (λ c, c ≠ 0%N) arr) →
  (∀ l arr, acc.2 !! l = Some arr → Exists (λ c, c ≠ 0%N) arr) →
  let r := foldl (branchStep bc) acc entries in
  (∀ k arr, r.1 !! k = Some arr → Exists (λ c, c ≠ 0%N) arr) ∧
  (∀ l arr, r.2 !! l = Some arr → Exists (λ c, c ≠ 0%N) arr).
Proof.
  revert acc. induction entries as [|entry entries IH]; intros acc H1 H2; [done|].
  cbn [foldl]. apply IH; unfold branchStep;
    destruct (existsb _ _) eqn:Hsome; cbn [fst snd]; try done.
  - intros k arr. rewrite lookup_insert. case_decide; [|by apply H1].
    intros [= <-]. by apply LookupProps.some_positive_iff.
  - intros l arr. destruct (acc.2 !! lineKey _) eqn:Hl; [by apply H2|].
    rewrite lookup_insert. case_decide; [|by apply H2].
    intros [= <-]. by apply LookupProps.some_positive_iff.
Qed.

(** Only executed items are indexed: every count stored in a statement or
    function index is nonzero, and every array stored in a branch index has a
    nonzero count. *)
Theorem buildLookups_only_executed (data : FileCoverageData) :
  (∀ k c, stmts (buildLookups data) !! k = Some c → c ≠ 0%N) ∧
  (∀ l c, stmtsByLine (buildLookups data) !! l = Some c → c ≠ 0%N) ∧
  (∀ k c, fns (buildLookups data) !! k = Some c → c ≠ 0%N) ∧
  (∀ l c, fnsByLine (buildLookups data) !! l = Some c → c ≠ 0%N) ∧
  (∀ k arr, branches (buildLookups data) !! k = Some arr → Exists (λ c, c ≠ 0%N) arr) ∧
  (∀ l arr, branchesByLine (buildLookups data) !! l = Some arr → Exists (λ c, c ≠ 0%N) arr).
Proof.
  unfold buildLookups. cbn [stmts stmtsByLine fns fnsByLine branches branchesByLine].
  destruct (LookupProps.countStep_positive id (s data) (statementMap data) (∅, ∅))
    as [Hs1 Hs2]; [by cbn; intros ?? ?%lookup_empty_Some..|].
  destruct (LookupProps.countStep_positive fn_loc (f data) (fnMap data) (∅, ∅))
    as [Hf1 Hf2]; [by cbn; intros ?? ?%lookup_empty_Some..|].
  destruct (branchStep_live (b data) (branchMap data) (∅, ∅))
    as [Hb1 Hb2]; [by cbn; intros ?? ?%lookup_empty_Some..|].
  done.
Qed.

Lemma elem_of_liveBranchAt (src : FileCoverageData) (loc : Location) (counts : list N) :
  counts ∈ omap (liveBranchAt (b src) (locationKey loc)) (branchMap src) ↔
  liveBranchExactMatch src loc counts.
Proof.
  rewrite list_elem_of_omap. unfold liveBranchAt, liveBranchExactMatch. split.
  - intros ([key br] & Hin & Hlive). case_decide as H; [|done].
    injection Hlive as <-. destruct H. by exists key, br.
  - intros (key & br & Hin & Hk & Hc & Hnz). exists (key, br). split; [done|].
    cbn [fst snd]. rewrite decide_True by (by rewrite Hc). by rewrite Hc.
Qed.

Lemma elem_of_liveBranch (src : FileCoverageData) (loc : Location) (counts : list N) :
  counts ∈ branchArraysOnLine src (lineKey loc) ↔ liveBranchLineMatch src loc counts.
Proof.
  unfold branchArraysOnLine. rewrite list_elem_of_omap.
  unfold liveBranch, liveBranchLineMatch. split.
  - intros ([key br] & Hin & Hlive). case_decide as H; [|done].
    injection Hlive as <-. destruct H. by exists key, br.
  - intros (key & br & Hin & Hk & Hc & Hnz). exists (key, br). split; [done|].
    cbn [fst snd]. rewrite decide_True by (by rewrite Hc). by rewrite Hc.
Qed.

(** The two-tier branch lookup, unfolded. *)
Lemma branchContribution_unfold (src : FileCoverageData) (loc : Location) :
  branchContribution loc src =
    nullish (last (omap (liveBranchAt (b src) (locationKey loc)) (branchMap src)))
            (head (branchArraysOnLine src (lineKey loc))).
Proof.
  unfold branchContribution, buildLookups. cbn [branches branchesByLine].
  rewrite branchStep_exact, LookupProps.branchStep_byLine. cbn [fst snd].
  rewrite !lookup_empty. by destruct (last _).
Qed.

(** What a source contributes to a branch of the baseline: the counts array
    of one of its own branch entries with a nonzero count, matching by exact
    key when there is such an entry and by line otherwise; and nothing
    exactly when it has no such entry. *)
Theorem branchContribution_by_match (src : FileCoverageData) (loc : Location) :
  (∀ counts, branchContribution loc src = Some counts →
     liveBranchExactMatch src loc counts ∨ liveBranchLineMatch src loc counts) ∧
  ((∃ counts, liveBranchExactMatch src loc counts) →
   ∃ counts, branchContribution loc src = Some counts ∧ liveBranchExactMatch src loc counts) ∧
  (branchContribution loc src = None ↔
   ∀ counts, ¬ liveBranchExactMatch src loc counts ∧ ¬ liveBranchLineMatch src loc counts).
Proof.
  rewrite branchContribution_unfold.
  pose proof (elem_of_liveBranchAt src loc) as Hexact.
  pose proof (elem_of_liveBranch src loc) as Hline.
  destruct (last _) as [c0|] eqn:Hlast; cbn [nullish].
  - apply last_Some_elem_of in Hlast. split_and!.
    + intros c [= <-]. left. by apply Hexact.
    + intros _. exists c0. split; [done|by apply Hexact].
    + split; [done|]. intros Hnone. exfalso.
      destruct (Hnone c0) as [Hn _]. by apply Hn, Hexact.
  - apply last_None in Hlast. split_and!.
    + intros c Hc. right. apply Hline. by apply head_Some_elem_of.
    + intros (c & Hc). apply Hexact in Hc. rewrite Hlast in Hc. by apply elem_of_nil in Hc.
    + destruct (branchArraysOnLine src (lineKey loc)) as [|c l] eqn:Hl; cbn [head].
      * split; [|done]. intros _ c. split.
        -- intros Hc%Hexact. rewrite Hlast in Hc. by apply elem_of_nil in Hc.
        -- intros Hc%Hline. by apply elem_of_nil in Hc.
      * split; [done|]. intros Hnone. exfalso.
        destruct (Hnone c) as [_ Hn]. apply Hn, Hline. left.
Qed.


End LookupFacts.

(** * More on the Source Selector *)

Module SelectorFacts.
Import SmartMerge Spec MoreSpec Samples.

Lemma selectBestSource_elem (coverages : list FileCoverageData) (best : FileCoverageData) :
  selectBestSource coverages = Some best → best ∈ coverages.
Proof.
  destruct (nonEmptyWithIndex coverages) as [|first rest] eqn:Hcands.
  - unfold selectBestSource. rewrite Hcands. apply list_elem_of_lookup_2.
  - destruct (SelectorProps.selectBestSource_spec coverages) as (item & Hin & -> & _);
      [by rewrite Hcands|].
    intros [= <-]. apply SelectorProps.elem_of_nonEmptyWithIndex in Hin as [Hin _].
    by eapply list_elem_of_lookup_2.
Qed.

Lemma nonEmptyWithIndex_nil (coverages : list FileCoverageData) :
  (∀ c, c ∈ coverages → getTotalItems c = 0%nat) → nonEmptyWithIndex coverages = [].
Proof.
  intros Hempty. destruct (nonEmptyWithIndex coverages) as [|item rest] eqn:Hcands; [done|].
  assert (item ∈ nonEmptyWithIndex coverages) as Hin by (rewrite Hcands; left).
  apply SelectorProps.elem_of_nonEmptyWithIndex in Hin as [Hin Hpos].
  apply list_elem_of_lookup_2, Hempty in Hin. lia.
Qed.

(** The selector returns one of the records it is given, and nothing only
    for the empty list; when no record declares any item it returns the
    first record. *)
Theorem selectBestSource_picks_an_input (coverages : list FileCoverageData) :
  (selectBestSource coverages = None ↔ coverages = []) ∧
  (∀ best, selectBestSource coverages = Some best → best ∈ coverages) ∧
  ((∀ c, c ∈ coverages → getTotalItems c = 0%nat) →
   selectBestSource coverages = head coverages).
Proof.
  split_and!.
  - split.
    + intros Hnone. destruct coverages as [|c l]; [done|].
      by destruct (MergerProps.selectBestSource_total (c :: l)) as [? ?]; [|congruence].
    + by intros ->.
  - apply selectBestSource_elem.
  - intros Hempty%nonEmptyWithIndex_nil. unfold selectBestSource. rewrite Hempty.
    by destruct coverages.
Qed.

End SelectorFacts.

(** * More on the File Merger *)

Module MergerFacts.
Import SmartMerge Spec MoreSpec Samples MoreSamples.

Section count_merge_shape.
Context {E : Type} (getLoc : E → Location).
Context (exact : CoverageLookups → gmap string N) (byLine : CoverageLookups → gmap Z N).
Context (lookups : list CoverageLookups).

(** Every id of the map that is iterated ends with a count. *)
Lemma mergeCountStep_defined (entries : list (string * E)) counts key :
  key ∈ entries.*1 →
  is_Some (foldl (mergeCountStep getLoc exact byLine lookups) counts entries !! key).
Proof.
  revert counts. induction entries as [|entry entries IH]; intros counts Hin.
  { by apply elem_of_nil in Hin. }
  rewrite fmap_cons in Hin. cbn [foldl].
  destruct (decide (entry.1 = key)) as [<-|Hne].
  - edestruct (MergerProps.mergeCountStep_mono getLoc exact byLine lookups entries)
      as (c' & -> & _); [|done].
    unfold mergeCountStep. apply lookup_insert_eq.
  - apply IH. apply elem_of_cons in Hin as [?|?]; [congruence|done].
Qed.


End count_merge_shape.


(** The branch loop keeps the length of every array. *)
Lemma mergeBranchStep_length (lookups : list CoverageLookups)
    (entries : list (string * BranchEntry)) (bc : gmap string (list N)) (key : string) :
  length (default [] (foldl (mergeBranchStep lookups) bc entries !! key)) =
  length (default [] (bc !! key)).
Proof.
  revert bc. induction entries as [|entry entries IH]; intros bc; [done|].
  cbn [foldl]. rewrite IH. unfold mergeBranchStep. rewrite MergerProps.branchHit_fold.
  BranchProps.split_last_hit; [|done].
  rewrite lookup_insert. case_decide as Hk; [|done].
  subst key. cbn [default from_option id]. unfold maxWith. by rewrite length_imap.
Qed.


(** The merged record has the path of the first record and the three maps
    of the baseline, with their order; every statement and function id of
    the baseline has a count in it, counts stored under other ids are those
    of the baseline, and every branch array keeps the length it has in the
    baseline. *)
Theorem merge_keeps_baseline_shape (coverages : list FileCoverageData) :
  (2 ≤ length coverages)%nat →
  ∃ first best merged,
    head coverages = Some first ∧ selectBestSource coverages = Some best ∧
    mergeFileCoverages coverages = Some merged ∧
    path merged = path first ∧
    statementMap merged = statementMap best ∧ fnMap merged = fnMap best ∧
    branchMap merged = branchMap best ∧
    (∀ key, key ∈ (statementMap best).*1 → is_Some (s merged !! key)) ∧
    (∀ key, key ∉ (statementMap best).*1 → s merged !! key = s best !! key) ∧
    (∀ key, key ∈ (fnMap best).*1 → is_Some (f merged !! key)) ∧
    (∀ key, key ∉ (fnMap best).*1 → f merged !! key = f best !! key) ∧
    (∀ key, key ∉ (branchMap best).*1 → b merged !! key = b best !! key) ∧
    (∀ key, length (default [] (b merged !! key)) = length (default [] (b best !! key))).
Proof.
  intros Hlen.
  destruct (MergerProps.mergeFileCoverages_many coverages Hlen)
    as (first & best & Hfirst & Hbest & Hmerged).
  eexists first, best, _. split_and!; [exact Hfirst|exact Hbest|exact Hmerged|done..| | | | | |];
    cbn [s f b].
  - intros key. apply mergeCountStep_defined.
  - intros key. apply MergerProps.mergeCountStep_other.
  - intros key. apply mergeCountStep_defined.
  - intros key. apply MergerProps.mergeCountStep_other.
  - intros key. apply BranchProps.mergeBranchStep_other.
  - intros key. apply mergeBranchStep_length.
Qed.

Lemma NoDup_fmap_same {A B} (g : A → B) (l : list A) (x y : A) :
  NoDup (g <$> l) → x ∈ l → y ∈ l → g x = g y → x = y.
Proof.
  induction l as [|z l IH]; intros Hnd Hx Hy Hg; [by apply elem_of_nil in Hx|].
  rewrite fmap_cons in Hnd. apply NoDup_cons in Hnd as [Hfresh Hnd].
  apply elem_of_cons in Hx as [->|Hx]; apply elem_of_cons in Hy as [->|Hy]; [done|..].
  - exfalso. apply Hfresh. rewrite Hg. by apply list_elem_of_fmap_2.
  - exfalso. apply Hfresh. rewrite <- Hg. by apply list_elem_of_fmap_2.
  - by apply IH.
Qed.

Lemma lineKey_of_key (loc1 loc2 : Location) :
  locationKey loc1 = locationKey loc2 → lineKey loc1 = lineKey loc2.
Proof. intros Hk%KeyerProps.locationKey_same_start. unfold lineKey. by rewrite Hk. Qed.

Section contribution_origin.
Context {E : Type} (getLoc : E → Location) (counts : gmap string N).
Context (entries : list (string * E)) (contribution : Location → option N).
Context (Hmatch : contributesByMatch getLoc counts entries contribution).

(** A contribution is the nonzero count of an entry on the same line. *)
Lemma contribution_on_line (loc : Location) (c : N) :
  contribution loc = Some c →
  ∃ key e, (key, e) ∈ entries ∧ lineKey (getLoc e) = lineKey loc ∧ counts !! key = Some c.
Proof.
  intros Hc. destruct (Hmatch loc) as (Hfrom & _).
  destruct (Hfrom c Hc) as [(key & e & Hin & Hk & Hcount & Hnz)|(key & e & Hin & Hk & Hcount & Hnz)];
    exists key, e; (split; [done|]); (split; [first [done|by apply lineKey_of_key]|]);
    destruct (counts !! key); cbn in Hcount; congruence.
Qed.
End contribution_origin.

Lemma branchContribution_on_line (src : FileCoverageData) (loc : Location) (counts : list N) :
  branchContribution loc src = Some counts →
  ∃ key br, (key, br) ∈ branchMap src ∧ lineKey (br_loc br) = lineKey loc ∧
            b src !! key = Some counts.
Proof.
  rewrite LookupFacts.branchContribution_unfold. intros Hc.
  assert (liveBranchExactMatch src loc counts ∨ liveBranchLineMatch src loc counts) as Hfrom.
  { destruct (last _) as [c0|] eqn:Hlast; cbn [nullish] in Hc.
    - injection Hc as <-. left. by apply LookupFacts.elem_of_liveBranchAt, last_Some_elem_of.
    - right. by apply LookupFacts.elem_of_liveBranch, head_Some_elem_of. }
  destruct Hfrom as [(key & br & Hin & Hk & Hcount & Hnz)|(key & br & Hin & Hk & Hcount & Hnz)];
    exists key, br; (split; [done|]); (split; [first [done|by apply lineKey_of_key]|]);
    destruct (b src !! key); cbn in Hcount; subst; first [done|by apply Exists_nil in Hnz].
Qed.



Lemma merge_keeps_baseline_shape_witness :
  (2 ≤ length directiveRuns)%nat ∧
  ∃ first best merged,
    head directiveRuns = Some first ∧ selectBestSource directiveRuns = Some best ∧
    mergeFileCoverages directiveRuns = Some merged ∧
    path merged = path first ∧
    statementMap merged = statementMap best ∧ fnMap merged = fnMap best ∧
    branchMap merged = branchMap best ∧
    (∀ key, key ∈ (statementMap best).*1 → is_Some (s merged !! key)) ∧
    (∀ key, key ∉ (statementMap best).*1 → s merged !! key = s best !! key) ∧
    (∀ key, key ∈ (fnMap best).*1 → is_Some (f merged !! key)) ∧
    (∀ key, key ∉ (fnMap best).*1 → f merged !! key = f best !! key) ∧
    (∀ key, key ∉ (branchMap best).*1 → b merged !! key = b best !! key) ∧
    (∀ key, length (default [] (b merged !! key)) = length (default [] (b best !! key))).
Proof.
  assert (2 ≤ length directiveRuns)%nat as Hlen by (cbn; lia).
  split; [exact Hlen|]. exact (merge_keeps_baseline_shape directiveRuns Hlen).
Defined.



Lemma maxWith_self (counts : list N) : maxWith counts counts = counts.
Proof.
  unfold maxWith. apply list_eq. intros i. rewrite list_lookup_imap.
  destruct (counts !! i) as [c|] eqn:Hc; [|done]. cbn. f_equal. lia.
Qed.

Lemma foldr_max_all_equal (l : list N) (m : N) :
  (∀ c, c ∈ l → c = m) → foldr N.max m l = m.
Proof.
  induction l as [|x l IH]; intros Hall; [done|]. cbn [foldr].
  rewrite IH by (intros c Hc; apply Hall; by right).
  rewrite (Hall x) by left. lia.
Qed.

(** Merging two or more copies of one record whose statements, functions and
    branches each sit on a line of their own gives the counts of that
    record back: every statement and function id has its own count (zero
    when the record has none for it), every branch array is unchanged. *)
Theorem merge_copies_is_identity (record : FileCoverageData) (n : nat) :
  (2 ≤ n)%nat →
  onePerLine id (statementMap record) →
  onePerLine fn_loc (fnMap record) →
  onePerLine br_loc (branchMap record) →
  ∃ merged,
    mergeFileCoverages (replicate n record) = Some merged ∧
    path merged = path record ∧
    statementMap merged = statementMap record ∧ fnMap merged = fnMap record ∧
    branchMap merged = branchMap record ∧
    (∀ key, key ∈ (statementMap record).*1 →
            s merged !! key = Some (default 0%N (s record !! key))) ∧
    (∀ key, key ∉ (statementMap record).*1 → s merged !! key = s record !! key) ∧
    (∀ key, key ∈ (fnMap record).*1 →
            f merged !! key = Some (default 0%N (f record !! key))) ∧
    (∀ key, key ∉ (fnMap record).*1 → f merged !! key = f record !! key) ∧
    b merged = b record.
Proof.
  intros Hn [Hskeys Hslines] [Hfkeys Hflines] [Hbkeys Hblines].
  assert (2 ≤ length (replicate n record))%nat as Hlen by (by rewrite length_replicate).
  destruct (MergerProps.mergeFileCoverages_many _ Hlen) as (first & best & Hfirst & Hbest & ->).
  assert (best = record) as ->.
  { apply SelectorFacts.selectBestSource_elem in Hbest. by apply elem_of_replicate in Hbest as [? _]. }
  assert (first = record) as ->.
  { apply head_Some_elem_of in Hfirst. by apply elem_of_replicate in Hfirst as [? _]. }
  eexists. split; [done|]. cbn [path statementMap fnMap branchMap s f b].
  split_and!; [done..| | | | |].
  - intros key ((key' & loc) & -> & Hin)%list_elem_of_fmap. cbn [fst].
    rewrite (MergerProps.mergeCountStep_at id stmts stmtsByLine _ _ _ key' loc Hskeys Hin).
    rewrite MergerProps.maxStep_fold, CountProps.omap_fmap_compose. f_equal.
    apply foldr_max_all_equal. intros c (src & [-> _]%elem_of_replicate & Hc)%list_elem_of_omap.
    destruct (contribution_on_line id (s record) (statementMap record) _
                (CountProps.stmtContribution_by_match record) loc c Hc)
      as (key2 & loc2 & Hin2 & Hline & Hcount).
    assert ((key2, loc2) = (key', loc)) as [= -> ->].
    { by apply (NoDup_fmap_same (λ entry, lineKey (id entry.2)) (statementMap record)). }
    by rewrite Hcount.
  - intros key. apply MergerProps.mergeCountStep_other.
  - intros key ((key' & fn) & -> & Hin)%list_elem_of_fmap. cbn [fst].
    rewrite (MergerProps.mergeCountStep_at fn_loc fns fnsByLine _ _ _ key' fn Hfkeys Hin).
    rewrite MergerProps.maxStep_fold, CountProps.omap_fmap_compose. f_equal.
    apply foldr_max_all_equal. intros c (src & [-> _]%elem_of_replicate & Hc)%list_elem_of_omap.
    destruct (contribution_on_line fn_loc (f record) (fnMap record) _
                (CountProps.fnContribution_by_match record) (fn_loc fn) c Hc)
      as (key2 & fn2 & Hin2 & Hline & Hcount).
    assert ((key2, fn2) = (key', fn)) as [= -> ->].
    { by apply (NoDup_fmap_same (λ entry, lineKey (fn_loc entry.2)) (fnMap record)). }
    by rewrite Hcount.
  - intros key. apply MergerProps.mergeCountStep_other.
  - apply map_eq. intros key.
    destruct (decide (key ∈ (branchMap record).*1)) as [Hkey|Hkey];
      [|by apply BranchProps.mergeBranchStep_other].
    apply list_elem_of_fmap in Hkey as ((key' & br) & -> & Hin). cbn [fst].
    rewrite (BranchProps.mergeBranchStep_at _ _ _ key' br Hbkeys Hin).
    rewrite CountProps.omap_fmap_compose.
    destruct (last _) as [counts|] eqn:Hlast; [|done].
    apply last_Some_elem_of, list_elem_of_omap in Hlast as (src & [-> _]%elem_of_replicate & Hc).
    destruct (branchContribution_on_line record (br_loc br) counts Hc)
      as (key2 & br2 & Hin2 & Hline & Hcount).
    assert ((key2, br2) = (key', br)) as [= -> ->].
    { by apply (NoDup_fmap_same (λ entry, lineKey (br_loc entry.2)) (branchMap record)). }
    rewrite Hcount. cbn [default from_option id]. by rewrite maxWith_self.
Qed.

Lemma merge_copies_is_identity_witness :
  (2 ≤ 2)%nat ∧
  onePerLine id (statementMap clientRecord) ∧
  onePerLine fn_loc (fnMap clientRecord) ∧
  onePerLine br_loc (branchMap clientRecord) ∧
  ∃ merged,
    mergeFileCoverages (replicate 2 clientRecord) = Some merged ∧
    path merged = path clientRecord ∧
    statementMap merged = statementMap clientRecord ∧ fnMap merged = fnMap clientRecord ∧
    branchMap merged = branchMap clientRecord ∧
    (∀ key, key ∈ (statementMap clientRecord).*1 →
            s merged !! key = Some (default 0%N (s clientRecord !! key))) ∧
    (∀ key, key ∉ (statementMap clientRecord).*1 → s merged !! key = s clientRecord !! key) ∧
    (∀ key, key ∈ (fnMap clientRecord).*1 →
            f merged !! key = Some (default 0%N (f clientRecord !! key))) ∧
    (∀ key, key ∉ (fnMap clientRecord).*1 → f merged !! key = f clientRecord !! key) ∧
    b merged = b clientRecord.
Proof.
  assert (onePerLine id (statementMap clientRecord)) as Hs.
  { split; apply (bool_decide_unpack _); vm_compute; exact I. }
  assert (onePerLine fn_loc (fnMap clientRecord)) as Hf by (split; apply NoDup_nil_2).
  assert (onePerLine br_loc (branchMap clientRecord)) as Hb by (split; apply NoDup_nil_2).
  split; [lia|]. split; [exact Hs|]. split; [exact Hf|]. split; [exact Hb|].
  exact (merge_copies_is_identity clientRecord 2 (le_n 2) Hs Hf Hb).
Defined.

End MergerFacts.

(** * More on the Map Orchestrator *)

Module OrchestratorFacts.
Import SmartMerge Spec MoreSpec Samples.

Lemma addFiles_NoDup (keys acc : list string) : NoDup acc → NoDup (foldl addFile acc keys).
Proof.
  revert acc. induction keys as [|k keys IH]; intros acc Hacc; [done|].
  cbn [foldl]. apply IH. unfold addFile. case_decide; [done|].
  apply NoDup_app. split_and!; [done| |apply NoDup_singleton].
  intros x Hx ->%list_elem_of_singleton. done.
Qed.

Lemma collectFiles_NoDup (coverageMaps : list (list (string * FileCoverageData))) :
  NoDup (collectFiles coverageMaps).
Proof.
  unfold collectFiles. generalize (NoDup_nil_2 (A:=string)). generalize (@nil string).
  induction coverageMaps as [|m ms IH]; intros acc Hacc; [done|].
  cbn [foldl]. by apply IH, addFiles_NoDup.
Qed.

Lemma addFiles_fresh (keys acc : list string) :
  NoDup keys → (∀ k, k ∈ keys → k ∉ acc) → foldl addFile acc keys = acc ++ keys.
Proof.
  revert acc. induction keys as [|k keys IH]; intros acc Hnd Hfresh; cbn [foldl].
  { by rewrite app_nil_r. }
  apply NoDup_cons in Hnd as [Hk Hnd]. unfold addFile at 2.
  rewrite decide_False by (apply Hfresh; left).
  rewrite IH, <- app_assoc; [done..|].
  intros k' Hk' [?|Heq%list_elem_of_singleton]%elem_of_app; [|by subst].
  by apply (Hfresh k'); [right|].
Qed.

Lemma objGet_elem {V} (o : list (string * V)) (entry : string * V) :
  NoDup o.*1 → entry ∈ o → objGet o entry.1 = Some entry.2.
Proof.
  induction o as [|x o IH]; intros Hnd Hin; [by apply elem_of_nil in Hin|].
  rewrite fmap_cons in Hnd. apply NoDup_cons in Hnd as [Hfresh Hnd]. cbn [objGet].
  apply elem_of_cons in Hin as [->|Hin]; [by rewrite decide_True|].
  rewrite decide_False; [by apply IH|].
  intros Hk. apply Hfresh. rewrite Hk. by apply list_elem_of_fmap_2.
Qed.

(** Empty input maps add no file and no record. *)
Lemma collectFiles_drop_empty (coverageMaps : list (list (string * FileCoverageData))) :
  collectFiles (filter (λ m, m ≠ []) coverageMaps) = collectFiles coverageMaps.
Proof.
  unfold collectFiles. generalize (@nil string).
  induction coverageMaps as [|m ms IH]; intros acc; [done|].
  rewrite filter_cons. destruct m as [|entry m].
  - rewrite decide_False by (by intros ?). cbn [foldl fmap list_fmap]. apply IH.
  - rewrite decide_True by done. cbn [foldl]. apply IH.
Qed.

Lemma fileCoveragesOf_drop_empty (coverageMaps : list (list (string * FileCoverageData)))
    (file : string) :
  fileCoveragesOf (filter (λ m, m ≠ []) coverageMaps) file = fileCoveragesOf coverageMaps file.
Proof.
  unfold fileCoveragesOf. induction coverageMaps as [|m ms IH]; [done|].
  rewrite filter_cons. destruct m as [|entry m].
  - rewrite decide_False by (by intros ?). by rewrite LookupProps.omap_cons_eq.
  - rewrite decide_True by done. by rewrite !LookupProps.omap_cons_eq, IH.
Qed.

Lemma mergeEachFile_drop_empty (coverageMaps : list (list (string * FileCoverageData))) :
  mergeEachFile (filter (λ m, m ≠ []) coverageMaps) = mergeEachFile coverageMaps.
Proof.
  unfold mergeEachFile. rewrite collectFiles_drop_empty.
  generalize (collectFiles coverageMaps). intros files.
  induction files as [|file files IH]; [done|].
  cbn [mapM]. rewrite IH. unfold mergeOneFile. by rewrite fileCoveragesOf_drop_empty.
Qed.

Lemma mergeEachFile_single (m : list (string * FileCoverageData)) :
  NoDup m.*1 → mergeEachFile [m] = Some m.
Proof.
  intros Hnd. unfold mergeEachFile, collectFiles. cbn [foldl].
  rewrite addFiles_fresh; [|done|by intros ? _ ?%elem_of_nil]. cbn [app].
  assert (∀ l, (∀ entry, entry ∈ l → objGet m entry.1 = Some entry.2) →
               mapM (mergeOneFile [m]) l.*1 = Some l) as Hgen.
  { induction l as [|entry l IH]; intros Hget; [done|].
    rewrite fmap_cons. cbn [mapM]. rewrite IH by (intros e He; apply Hget; by right).
    unfold mergeOneFile, fileCoveragesOf. rewrite LookupProps.omap_cons_eq.
    rewrite (Hget entry) by left. cbn. by destruct entry. }
  apply Hgen. intros entry Hin. by apply objGet_elem.
Qed.

(** The shortcuts for no map and for one map return what the per-file loop
    returns, and input maps without any file can be left out: they change
    neither the files nor the records of the merged map. (The keys of a
    coverage map are distinct.) *)
Theorem smartMergeCoverage_ignores_empty_maps
    (coverageMaps : list (list (string * FileCoverageData))) :
  (∀ m, m ∈ coverageMaps → NoDup m.*1) →
  smartMergeCoverage coverageMaps = mergeEachFile coverageMaps ∧
  smartMergeCoverage (filter (λ m, m ≠ []) coverageMaps) = smartMergeCoverage coverageMaps.
Proof.
  assert (∀ maps : list (list (string * FileCoverageData)),
            (∀ m, m ∈ maps → NoDup m.*1) → smartMergeCoverage maps = mergeEachFile maps)
    as Huniform.
  { intros [|m [|m' ms]] Hnd; [done| |done].
    cbn [smartMergeCoverage]. symmetry. apply mergeEachFile_single, Hnd. left. }
  intros Hnd. split; [by apply Huniform|].
  rewrite !Huniform; [apply mergeEachFile_drop_empty|done|].
  intros m [_ Hm]%list_elem_of_filter. by apply Hnd.
Qed.

Lemma smartMergeCoverage_ignores_empty_maps_witness :
  (∀ m, m ∈ [unitOnly; []; componentOnly] → NoDup m.*1) ∧
  smartMergeCoverage [unitOnly; []; componentOnly] =
    mergeEachFile [unitOnly; []; componentOnly] ∧
  smartMergeCoverage (filter (λ m, m ≠ []) [unitOnly; []; componentOnly]) =
    smartMergeCoverage [unitOnly; []; componentOnly].
Proof.
  assert (∀ m, m ∈ [unitOnly; []; componentOnly] → NoDup m.*1) as Hnd.
  { intros m Hm. rewrite !elem_of_cons, elem_of_nil in Hm.
    destruct Hm as [->|[->|[->|[]]]]; apply (bool_decide_unpack _); vm_compute; exact I. }
  split; [exact Hnd|]. exact (smartMergeCoverage_ignores_empty_maps _ Hnd).
Defined.

(** With two or more input maps, the merged map lists every file once, and
    the record of a file is the merge of the records that the input maps
    hold for it, in the order of the maps: a map without the file takes no
    part in it. *)
Theorem smartMergeCoverage_per_file (coverageMaps : list (list (string * FileCoverageData))) :
  (2 ≤ length coverageMaps)%nat →
  ∃ merged, smartMergeCoverage coverageMaps = Some merged ∧
    NoDup merged.*1 ∧
    ∀ file, objGet merged file =
              match fileCoveragesOf coverageMaps file with
              | [] => None
              | records => mergeFileCoverages records
              end.
Proof.
  intros Hlen.
  destruct (OrchestratorProps.smartMergeCoverage_total coverageMaps) as [merged Hmerged].
  exists merged. split; [done|].
  unfold smartMergeCoverage in Hmerged.
  destruct coverageMaps as [|m0 [|m1 ms]]; [cbn in Hlen; lia..|].
  set (maps := m0 :: m1 :: ms) in *.
  pose proof (OrchestratorProps.mapM_keys _ _ _ (OrchestratorProps.mergeOneFile_key _) Hmerged)
    as Hkeys.
  split; [rewrite Hkeys; apply collectFiles_NoDup|].
  intros file. destruct (decide (file ∈ collectFiles maps)) as [Hfile|Hfile].
  - rewrite (OrchestratorProps.objGet_mapM _ _ _ file
               (OrchestratorProps.mergeOneFile_key _) Hmerged Hfile).
    pose proof (OrchestratorProps.fileCoveragesOf_nonempty _ _ Hfile) as Hne.
    unfold mergeOneFile.
    destruct (fileCoveragesOf maps file) as [|c [|c' l]]; [done|done|].
    by destruct (mergeFileCoverages (c :: c' :: l)).
  - assert (objGet merged file = None) as ->.
    { apply eq_None_not_Some. rewrite OrchestratorProps.objGet_is_Some. by rewrite Hkeys. }
    assert (fileCoveragesOf maps file = []) as ->; [|done].
    apply OrchestratorProps.omap_all_None. intros m Hm.
    apply eq_None_not_Some. rewrite OrchestratorProps.objGet_is_Some. intros Hin.
    apply Hfile, OrchestratorProps.elem_of_collectFiles. by exists m.
Qed.

Lemma smartMergeCoverage_per_file_witness :
  (2 ≤ length disjointMaps)%nat ∧
  ∃ merged, smartMergeCoverage disjointMaps = Some merged ∧
    NoDup merged.*1 ∧
    ∀ file, objGet merged file =
              match fileCoveragesOf disjointMaps file with
              | [] => None
              | records => mergeFileCoverages records
              end.
Proof.
  assert (2 ≤ length disjointMaps)%nat as Hlen by (cbn; lia).
  split; [exact Hlen|]. exact (smartMergeCoverage_per_file disjointMaps Hlen).
Defined.

End OrchestratorFacts.


(** * More on the Normalizer *)

Module NormalizerFacts.
Import SmartMerge Normalize NormalizeSpec Spec MoreSpec Samples MoreSamples.

Lemma removed_only_deletes (filePath : string) (fileData : FileCoverageData)
    (items : list (string * RemovalType)) :
  onlyStatementsDeleted (filePath, fileData) (filePath, removed fileData items).
Proof.
  unfold onlyStatementsDeleted, removed. cbn. split_and!; [done..|apply sublist_filter|].
  apply map_subseteq_spec. intros key c. rewrite NormalizerProps.deleted_lookup.
  by case_decide.
Qed.

Lemma normalizeFileCoverage_cases fs (filePath : string) (fileData : FileCoverageData) :
  normalizeFileCoverage fs filePath fileData = (fileData, noRemovals) ∨
  ∃ text, fs filePath = Readable text ∧
    normalizeFileCoverage fs filePath fileData =
      (removed fileData (keysToRemove (splitLines text) (statementMap fileData)),
       {| fileImportsRemoved :=
            length (filter (λ entry, stmtKind (splitLines text) entry = Some import_)
                           (statementMap fileData));
          fileDirectivesRemoved :=
            length (filter (λ entry, stmtKind (splitLines text) entry = Some directive)
                           (statementMap fileData)) |}).
Proof.
  destruct (fs filePath) as [| |text] eqn:Hfs.
  - left. apply NormalizerProps.normalizeFileCoverage_unreadable. by left.
  - left. apply NormalizerProps.normalizeFileCoverage_unreadable. by right.
  - right. exists text. split; [done|].
    rewrite (NormalizerProps.normalizeFileCoverage_readable fs filePath _ text Hfs).
    rewrite NormalizerProps.removeStep_fold, !NormalizerProps.count_kind. done.
Qed.

(** Normalization keeps the files of the map and their order, and never
    touches a path, a function or a branch: in every record it may only
    delete statement entries and their counts. *)
Theorem normalizeCoverage_only_deletes_statements fs (cm : list (string * FileCoverageData)) :
  Forall2 onlyStatementsDeleted cm (coverageMap (normalizeCoverage fs cm)).
Proof.
  rewrite NormalizerProps.normalizeCoverage_each. cbn [coverageMap].
  induction cm as [|[filePath fileData] cm IH]; [constructor|].
  rewrite fmap_cons. constructor; [|done]. cbn [fst snd].
  destruct (normalizeFileCoverage_cases fs filePath fileData) as [->|(text & _ & ->)].
  - unfold onlyStatementsDeleted. cbn. done.
  - apply removed_only_deletes.
Qed.

Lemma removed_length lines (fileData : FileCoverageData) :
  NoDup (statementMap fileData).*1 →
  length (statementMap fileData) =
    (length (statementMap (removed fileData (keysToRemove lines (statementMap fileData)))) +
     length (filter (λ entry, stmtKind lines entry = Some import_) (statementMap fileData)) +
     length (filter (λ entry, stmtKind lines entry = Some directive) (statementMap fileData)))%nat.
Proof.
  intros Hnd. unfold removed. cbn [statementMap].
  rewrite NormalizerProps.remaining_statements by done. apply NormalizerProps.length_by_kind.
Qed.

(** The two counters add up to the number of statement entries that were
    deleted from the map. (The keys of a [statementMap] are distinct.) *)
Theorem normalizeCoverage_counts_deletions fs (cm : list (string * FileCoverageData)) :
  (∀ entry, entry ∈ cm → NoDup (statementMap entry.2).*1) →
  statementTotal cm =
    (statementTotal (coverageMap (normalizeCoverage fs cm)) +
     importsRemoved (normalizeCoverage fs cm) +
     directivesRemoved (normalizeCoverage fs cm))%nat.
Proof.
  rewrite NormalizerProps.normalizeCoverage_each.
  cbn [coverageMap importsRemoved directivesRemoved]. unfold statementTotal.
  induction cm as [|[filePath fileData] cm IH]; intros Hnd; [done|].
  rewrite fmap_cons. cbn [sum_list_with fst snd].
  specialize (IH (λ entry Hin, Hnd entry (list_elem_of_further _ _ _ Hin))).
  pose proof (Hnd (filePath, fileData) (list_elem_of_here _ _)) as Hkeys. cbn in Hkeys.
  destruct (normalizeFileCoverage_cases fs filePath fileData) as [->|(text & _ & ->)];
    cbn [fst snd fileImportsRemoved fileDirectivesRemoved noRemovals].
  - lia.
  - pose proof (removed_length (splitLines text) fileData Hkeys). lia.
Qed.

Lemma normalizeCoverage_counts_deletions_witness :
  (∀ entry, entry ∈ clientMap → NoDup (statementMap entry.2).*1) ∧
  statementTotal clientMap =
    (statementTotal (coverageMap (normalizeCoverage clientFs clientMap)) +
     importsRemoved (normalizeCoverage clientFs clientMap) +
     directivesRemoved (normalizeCoverage clientFs clientMap))%nat.
Proof.
  assert (∀ entry, entry ∈ clientMap → NoDup (statementMap entry.2).*1) as Hnd.
  { intros entry Hin. unfold clientMap in Hin. rewrite !elem_of_cons, elem_of_nil in Hin.
    destruct Hin as [->|[->|[]]]; apply (bool_decide_unpack _); vm_compute; exact I. }
  split; [exact Hnd|]. exact (normalizeCoverage_counts_deletions clientFs clientMap Hnd).
Defined.

Lemma removed_counts_match (fileData : FileCoverageData) (items : list (string * RemovalType)) :
  countsMatchStatements fileData → countsMatchStatements (removed fileData items).
Proof.
  unfold countsMatchStatements, removed. cbn [s statementMap]. intros Hdom.
  apply set_eq. intros key.
  assert (is_Some (s fileData !! key) ↔ key ∈ (statementMap fileData).*1) as Hkey.
  { by rewrite <- elem_of_dom, Hdom, elem_of_list_to_set. }
  rewrite elem_of_dom, elem_of_list_to_set, list_elem_of_fmap.
  pose proof (NormalizerProps.deleted_lookup items (s fileData) key) as Hdel.
  destruct (decide (key ∈ items.*1)) as [Hgone|Hgone]; rewrite Hdel.
  - split; [by intros [? ?]|]. intros (entry & -> & [Hkept _]%list_elem_of_filter). done.
  - rewrite Hkey, list_elem_of_fmap. split.
    + intros (entry & -> & Hin). exists entry. split; [done|]. by apply list_elem_of_filter.
    + intros (entry & -> & [_ Hin]%list_elem_of_filter). by exists entry.
Qed.

(** Counts and statements stay in step: when, in every record, the ids with
    a count are the statement ids, the same holds after normalization. *)
Theorem normalizeCoverage_keeps_counts_in_step fs (cm : list (string * FileCoverageData)) :
  Forall (λ entry, countsMatchStatements entry.2) cm →
  Forall (λ entry, countsMatchStatements entry.2) (coverageMap (normalizeCoverage fs cm)).
Proof.
  rewrite NormalizerProps.normalizeCoverage_each. cbn [coverageMap].
  induction 1 as [|[filePath fileData] cm Hhead _ IH]; [constructor|].
  rewrite fmap_cons. constructor; [|done]. cbn [fst snd] in *.
  destruct (normalizeFileCoverage_cases fs filePath fileData) as [->|(text & _ & ->)];
    [done|by apply removed_counts_match].
Qed.

Lemma normalizeCoverage_keeps_counts_in_step_witness :
  Forall (λ entry, countsMatchStatements entry.2) clientMap ∧
  Forall (λ entry, countsMatchStatements entry.2)
         (coverageMap (normalizeCoverage clientFs clientMap)).
Proof.
  assert (Forall (λ entry, countsMatchStatements entry.2) clientMap) as Hstep.
  { repeat constructor; unfold countsMatchStatements; vm_compute; reflexivity. }
  split; [exact Hstep|]. exact (normalizeCoverage_keeps_counts_in_step clientFs clientMap Hstep).
Defined.

Lemma splitLines_length (text : list N) :
  length (splitLines text) = S (length (filter (λ c, c = 10%N) text)).
Proof.
  induction text as [|c text IH]; [done|]. cbn [splitLines]. rewrite filter_cons.
  destruct (N.eqb_spec c 10) as [->|Hne].
  - rewrite decide_True by done. cbn [length]. by rewrite IH.
  - rewrite decide_False by done. rewrite <- IH.
    pose proof (NormalizerProps.splitLines_nonempty text). by destruct (splitLines text).
Qed.

Lemma lineContentAt_outside (lines : list (list N)) (lineNum : Z) :
  lineNum < 1 ∨ Z.of_nat (length lines) < lineNum → lineContentAt lines lineNum = [].
Proof.
  intros Hout. unfold lineContentAt.
  destruct (Z.ltb_spec (lineNum - 1) 0) as [|Hpos]; [done|].
  rewrite lookup_ge_None_2; [done|]. lia.
Qed.

(** A statement entry whose start line lies outside the source text (below
    line 1, or beyond the last line, the text having one line more than it
    has newlines) is never deleted, and neither is its count. *)
Theorem normalize_keeps_entries_outside_text fs (filePath : string)
    (fileData : FileCoverageData) (text : list N) :
  fs filePath = Readable text →
  NoDup (statementMap fileData).*1 →
  length (splitLines text) = S (length (filter (λ c, c = 10%N) text)) ∧
  ∀ entry, entry ∈ statementMap fileData →
    line (start entry.2) < 1 ∨ Z.of_nat (length (splitLines text)) < line (start entry.2) →
    entry ∈ statementMap (normalizeFileCoverage fs filePath fileData).1 ∧
    s (normalizeFileCoverage fs filePath fileData).1 !! entry.1 = s fileData !! entry.1.
Proof.
  intros Hfs Hnd. split; [apply splitLines_length|]. intros entry Hin Hout.
  rewrite (NormalizerProps.normalizeFileCoverage_readable fs filePath _ text Hfs).
  rewrite NormalizerProps.removeStep_fold. cbn [fst]. unfold removed. cbn [statementMap s].
  assert (stmtKind (splitLines text) entry = None) as Hkind.
  { unfold stmtKind. by rewrite lineContentAt_outside. }
  assert (entry.1 ∉ (keysToRemove (splitLines text) (statementMap fileData)).*1) as Hkept.
  { intros (entry' & Hin' & Hkey & Hkind')%NormalizerProps.elem_of_keysToRemove.
    by rewrite (NormalizerProps.entry_by_key _ entry' entry Hnd Hin' Hin Hkey) in Hkind'. }
  split.
  - by apply list_elem_of_filter.
  - rewrite NormalizerProps.deleted_lookup. by rewrite decide_False.
Qed.

Lemma normalize_keeps_entries_outside_text_witness :
  clientFs filePath = Readable clientSource ∧
  NoDup (statementMap staleRecord).*1 ∧
  ("1", at_ 7 0) ∈ statementMap (normalizeFileCoverage clientFs filePath staleRecord).1 ∧
  s (normalizeFileCoverage clientFs filePath staleRecord).1 !! "1" = Some 4%N.
Proof.
  assert (clientFs filePath = Readable clientSource) as Hfs by reflexivity.
  assert (NoDup (statementMap staleRecord).*1) as Hnd.
  { apply (bool_decide_unpack _); vm_compute; exact I. }
  split; [exact Hfs|]. split; [exact Hnd|].
  destruct (normalize_keeps_entries_outside_text clientFs filePath staleRecord clientSource
              Hfs Hnd) as [_ Hkeep].
  destruct (Hkeep ("1", at_ 7 0)) as [Hin Hcount].
  - unfold staleRecord. cbn [statementMap]. rewrite !elem_of_cons. by right; left.
  - right. vm_compute. reflexivity.
  - split; [exact Hin|]. exact Hcount.
Defined.

(** ** Line endings *)

Lemma trimEnd_whitespace (l : list N) (c : N) :
  isWhiteSpace c = true → trimEnd (l ++ [c]) = trimEnd l.
Proof.
  intros Hc. induction l as [|x l IH]; cbn [app trimEnd]; [by rewrite Hc|]. by rewrite IH.
Qed.

Lemma trim_whitespace (l : list N) (c : N) :
  isWhiteSpace c = true → trim (l ++ [c]) = trim l.
Proof.
  intros Hc. unfold trim. induction l as [|x l IH]; cbn [app trimStart].
  - by rewrite Hc.
  - destruct (isWhiteSpace x); [done|]. by apply (trimEnd_whitespace (x :: l)).
Qed.

(** Line by line, the text with carriage returns has the lines of the text,
    some of them followed by a carriage return. *)
Lemma splitLines_toCRLF (text : list N) :
  Forall2 (λ l l', l' = l ∨ l' = l ++ [13%N]) (splitLines text) (splitLines (toCRLF text)).
Proof.
  unfold toCRLF. induction text as [|c text IH]; [by repeat constructor|].
  rewrite bind_cons. destruct (N.eqb_spec c 10) as [->|Hne].
  - cbn [app splitLines N.eqb Pos.eqb]. destruct (splitLines (text ≫= _)) as [|cur more] eqn:Hcur.
    + by apply NormalizerProps.splitLines_nonempty in Hcur.
    + constructor; [by right|]. done.
  - cbn [app splitLines]. rewrite (proj2 (N.eqb_neq c 10)) by done.
    destruct IH as [|cur cur' more more' Hcur Hmore]; [by repeat constructor|].
    constructor; [|done]. destruct Hcur as [->| ->]; [by left|by right].
Qed.

Lemma lineContentAt_related (lines lines' : list (list N)) (lineNum : Z) :
  Forall2 (λ l l', l' = l ∨ l' = l ++ [13%N]) lines lines' →
  lineContentAt lines' lineNum = lineContentAt lines lineNum.
Proof.
  intros Hlines. unfold lineContentAt. destruct (lineNum - 1 <? 0); [done|].
  destruct (lines !! Z.to_nat (lineNum - 1)) as [l|] eqn:Hl.
  - destruct (Forall2_lookup_l _ _ _ _ _ Hlines Hl) as (l' & -> & [->| ->]); [done|].
    by apply trim_whitespace.
  - apply (Forall2_length) in Hlines. apply lookup_ge_None in Hl.
    rewrite lookup_ge_None_2; [done|]. lia.
Qed.

(** Carriage returns do not matter: a source checked out with carriage
    return, line feed as its line ending is normalized as the source with
    line feeds is. *)
Theorem normalize_ignores_carriage_returns fs fs' (filePath : string)
    (fileData : FileCoverageData) (text : list N) :
  fs filePath = Readable text →
  fs' filePath = Readable (toCRLF text) →
  normalizeFileCoverage fs' filePath fileData = normalizeFileCoverage fs filePath fileData.
Proof.
  intros Hfs Hfs'.
  rewrite (NormalizerProps.normalizeFileCoverage_readable fs filePath _ text Hfs).
  rewrite (NormalizerProps.normalizeFileCoverage_readable fs' filePath _ _ Hfs').
  f_equal. unfold keysToRemove. apply list_omap_ext, Forall_Forall2_diag, Forall_forall.
  intros entry _. by rewrite (lineContentAt_related _ _ _ (splitLines_toCRLF text)).
Qed.

Lemma normalize_ignores_carriage_returns_witness :
  clientFs filePath = Readable clientSource ∧
  crlfFs filePath = Readable (toCRLF clientSource) ∧
  normalizeFileCoverage crlfFs filePath clientRecord =
  normalizeFileCoverage clientFs filePath clientRecord.
Proof.
  assert (clientFs filePath = Readable clientSource) as Hfs by reflexivity.
  assert (crlfFs filePath = Readable (toCRLF clientSource)) as Hfs' by reflexivity.
  split; [exact Hfs|]. split; [exact Hfs'|].
  exact (normalize_ignores_carriage_returns clientFs crlfFs filePath clientRecord
           clientSource Hfs Hfs').
Defined.

End NormalizerFacts.

(** * The command line *)

Module CliFacts.
Import Normalize Cli CliSpec MoreSamples.

Lemma dash_is_no_flag (dir : string) :
  String.prefix "-" dir = false →
  ¬ helpFlag dir ∧ ¬ versionFlag dir ∧ ¬ outputFlag dir ∧ dir ≠ "--normalize".
Proof.
  intros Hdash. unfold helpFlag, versionFlag, outputFlag.
  split_and!; intros Hflag; [destruct Hflag..|]; by subst.
Qed.

Lemma last_output (dir : string) (previous : option string) (rest : list string) :
  from_option Some (Some dir) (last rest) = from_option Some previous (last (dir :: rest)).
Proof. rewrite last_cons. by destruct (last rest). Qed.

Lemma flag_elem (token : Token) (tokens : list Token) :
  token ≠ NormalizeFlag →
  bool_decide (NormalizeFlag ∈ token :: tokens) = bool_decide (NormalizeFlag ∈ tokens).
Proof.
  intros Hne. apply bool_decide_ext. rewrite elem_of_cons.
  split; [intros [?|?]; [congruence|done]|by right].
Qed.

(** The loop on a well-formed line, followed by arbitrary arguments. *)
Lemma parseLoop_tokens (tokens : list Token) (rest : list string) (result : ParsedArgs) :
  wellFormed tokens →
  parseLoop (renderAll tokens ++ rest) result =
  parseLoop rest
    {| inputDirs := inputDirs result ++ dirsOf tokens;
       outputDir := from_option Some (outputDir result) (last (outputsOf tokens));
       normalize := normalize result || bool_decide (NormalizeFlag ∈ tokens);
       help := help result; version := version result; error := error result |}.
Proof.
  revert result. induction tokens as [|token tokens IH]; intros result Hwf.
  - cbn. rewrite app_nil_r, orb_false_r. by destruct result.
  - assert (wellFormed tokens) as Hwf' by (intros dir Hin; apply Hwf; by right).
    unfold renderAll. rewrite bind_cons. fold (renderAll tokens). rewrite <- app_assoc.
    destruct token as [dir|long dir|].
    + destruct (dash_is_no_flag dir) as (Hh & Hv & Ho & Hn); [apply Hwf; by left|].
      cbn [render app parseLoop]. unfold helpFlag, versionFlag, outputFlag in *.
      rewrite !decide_False by done. rewrite (Hwf dir) by (by left).
      rewrite IH by done. cbn. f_equal. f_equal.
      * by rewrite <- app_assoc.
      * f_equal. symmetry. by apply flag_elem.
    + cbn [render app]. destruct long; cbn [parseLoop].
      all: rewrite !(decide_False (P := _ ∨ _)) by (intros [?|?]; done).
      all: rewrite decide_True by (by (left + right)).
      all: rewrite IH by done; cbn; f_equal; f_equal;
        [apply last_output|f_equal; symmetry; by apply flag_elem].
    + cbn [render app parseLoop].
      rewrite !decide_False by (intros [?|?]; done). rewrite decide_True by done.
      rewrite IH by done. cbn. f_equal. f_equal.
      rewrite (bool_decide_eq_true_2 (NormalizeFlag ∈ NormalizeFlag :: tokens)) by left.
      by rewrite orb_true_r.
Qed.

Lemma parseArgs_tokens (tokens : list Token) :
  wellFormed tokens →
  parseArgs (renderAll tokens) =
    {| inputDirs := dirsOf tokens; outputDir := last (outputsOf tokens);
       normalize := bool_decide (NormalizeFlag ∈ tokens);
       help := false; version := false; error := None |}.
Proof.
  intros Hwf. unfold parseArgs. rewrite <- (app_nil_r (renderAll tokens)).
  rewrite parseLoop_tokens by done. cbn. f_equal. by destruct (last _).
Qed.

Lemma usageLine_wellFormed : wellFormed usageLine.
Proof.
  intros dir. unfold usageLine. rewrite !elem_of_cons, elem_of_nil.
  intros [Heq|[Heq|[Heq|[Heq|[Heq|[]]]]]]; by simplify_eq.
Qed.

(** Reading back a command line: directories, output options and
    normalization flags written in any order, no directory starting with a
    dash, parse to the directories in their order, the value of the last
    output option and whether the flag occurs; nothing is reported.  The
    value of an output option is taken as it is, whatever it looks like. *)
Theorem parseArgs_round_trip (tokens : list Token) :
  wellFormed tokens →
  parseArgs (renderAll tokens) =
    {| inputDirs := dirsOf tokens; outputDir := last (outputsOf tokens);
       normalize := bool_decide (NormalizeFlag ∈ tokens);
       help := false; version := false; error := None |}.
Proof.
  intros Hwf. unfold parseArgs.
  rewrite <- (app_nil_r (renderAll tokens)), parseLoop_tokens by done.
  cbn [parseLoop inputDirs outputDir normalize help version error app orb].
  f_equal. by destruct (last (outputsOf tokens)).
Qed.

Lemma parseArgs_round_trip_witness :
  wellFormed usageLine ∧
  parseArgs ["coverage/unit"; "coverage/empty"; "coverage/component"; "-o";
             "coverage/merged"; "--normalize"] =
    {| inputDirs := ["coverage/unit"; "coverage/empty"; "coverage/component"];
       outputDir := Some "coverage/merged"; normalize := true;
       help := false; version := false; error := None |}.
Proof.
  split; [exact usageLine_wellFormed|].
  exact (parseArgs_round_trip usageLine usageLine_wellFormed).
Defined.

(** ** Where parsing stops *)

Lemma parseLoop_help (flag : string) (rest : list string) (result : ParsedArgs) :
  helpFlag flag →
  parseLoop (flag :: rest) result =
    {| inputDirs := inputDirs result; outputDir := outputDir result;
       normalize := normalize result; help := true; version := version result;
       error := error result |}.
Proof. intros Hflag. cbn [parseLoop]. by rewrite decide_True. Qed.

Lemma parseLoop_version (flag : string) (rest : list string) (result : ParsedArgs) :
  versionFlag flag →
  parseLoop (flag :: rest) result =
    {| inputDirs := inputDirs result; outputDir := outputDir result;
       normalize := normalize result; help := help result; version := true;
       error := error result |}.
Proof.
  intros Hflag. cbn [parseLoop].
  rewrite decide_False by (destruct Hflag as [->| ->]; intros [?|?]; done).
  by rewrite decide_True.
Qed.

Lemma parseLoop_missing (flag : string) (result : ParsedArgs) :
  outputFlag flag →
  parseLoop [flag] result =
    {| inputDirs := inputDirs result; outputDir := outputDir result;
       normalize := normalize result; help := help result; version := version result;
       error := Some "Missing output directory after -o/--output" |}.
Proof.
  intros Hflag. cbn [parseLoop].
  rewrite !(decide_False (P := _ ∨ _)) by (destruct Hflag as [->| ->]; intros [?|?]; done).
  by rewrite decide_True.
Qed.

Lemma parseLoop_unknown (arg : string) (rest : list string) (result : ParsedArgs) :
  unknownOption arg →
  parseLoop (arg :: rest) result =
    {| inputDirs := inputDirs result; outputDir := outputDir result;
       normalize := normalize result; help := help result; version := version result;
       error := Some ("Unknown option: " +:+ arg) |}.
Proof.
  intros (Hdash & Hh & Hv & Ho & Hn). cbn [parseLoop].
  unfold helpFlag, versionFlag, outputFlag in *.
  rewrite !decide_False by done. by rewrite Hdash.
Qed.

Lemma renderAll_cons (token : Token) (tokens : list Token) :
  renderAll (token :: tokens) = render token ++ renderAll tokens.
Proof. unfold renderAll. by rewrite bind_cons. Qed.

Lemma wellFormed_cons (token : Token) (tokens : list Token) :
  (∀ dir, token = Dir dir → String.prefix "-" dir = false) →
  wellFormed tokens → wellFormed (token :: tokens).
Proof.
  intros Hhead Htail dir [Heq|Hin]%elem_of_cons; [by apply Hhead|by apply Htail].
Qed.

(** Every argument list is a well-formed line followed by what stops the
    parsing. *)
Lemma args_shape (args : list string) :
  ∃ tokens tail, args = renderAll tokens ++ tail ∧ wellFormed tokens ∧ Stop tail.
Proof.
  remember (length args) as n eqn:Hn. revert args Hn.
  induction (lt_wf n) as [n _ IH]. intros [|arg rest] ->.
  { exists [], []. split; [done|]. split; [by intros ? ?%elem_of_nil|constructor]. }
  destruct (decide (helpFlag arg)) as [Hh|Hh].
  { exists [], (arg :: rest). split; [done|].
    split; [by intros ? ?%elem_of_nil|by constructor]. }
  destruct (decide (versionFlag arg)) as [Hv|Hv].
  { exists [], (arg :: rest). split; [done|].
    split; [by intros ? ?%elem_of_nil|by apply stop_version]. }
  destruct (decide (outputFlag arg)) as [Ho|Ho].
  { destruct rest as [|dir rest].
    - exists [], [arg]. split; [done|].
      split; [by intros ? ?%elem_of_nil|by apply stop_missing].
    - destruct (IH (length rest)) with (args := rest) as (tokens & tail & -> & Hwf & Hstop);
        [cbn; lia|done|].
      exists (Output (bool_decide (arg = "--output")) dir :: tokens), tail.
      split; [|split; [by apply wellFormed_cons|done]].
      rewrite renderAll_cons. cbn [render app]. by destruct Ho as [->| ->]. }
  destruct (decide (arg = "--normalize")) as [->|Hn].
  { destruct (IH (length rest)) with (args := rest) as (tokens & tail & -> & Hwf & Hstop);
      [cbn; lia|done|].
    exists (NormalizeFlag :: tokens), tail.
    split; [by rewrite renderAll_cons|]. split; [by apply wellFormed_cons|done]. }
  destruct (String.prefix "-" arg) eqn:Hdash.
  { exists [], (arg :: rest). split; [done|].
    split; [by intros ? ?%elem_of_nil|by apply stop_unknown]. }
  destruct (IH (length rest)) with (args := rest) as (tokens & tail & -> & Hwf & Hstop);
    [cbn; lia|done|].
  exists (Dir arg :: tokens), tail.
  split; [by rewrite renderAll_cons|].
  split; [apply wellFormed_cons; [by intros ? [= <-]|done]|done].
Qed.

Lemma dirsOf_sublist (tokens : list Token) : dirsOf tokens `sublist_of` renderAll tokens.
Proof.
  induction tokens as [|token tokens IH]; [done|]. rewrite renderAll_cons.
  destruct token as [dir|long dir|]; cbn.
  - by apply sublist_skip.
  - by do 2 apply sublist_cons.
  - by apply sublist_cons.
Qed.

Lemma dirsOf_no_dash (tokens : list Token) :
  wellFormed tokens → Forall (λ dir, String.prefix "-" dir = false) (dirsOf tokens).
Proof.
  intros Hwf. apply Forall_forall. intros dir (token & Hin & Hdir)%list_elem_of_omap.
  destruct token; simplify_eq. by apply Hwf.
Qed.

Lemma outputsOf_rendered (tokens : list Token) (dir : string) :
  dir ∈ outputsOf tokens → dir ∈ renderAll tokens.
Proof.
  intros (token & Hin & Hdir)%list_elem_of_omap. destruct token as [|long out|]; simplify_eq.
  unfold renderAll. apply list_elem_of_bind. exists (Output long dir).
  split; [|done]. cbn. by right; left.
Qed.

(** What [parseArgs] returns, by what stopped it. *)
Lemma parseArgs_shape (tokens : list Token) (tail : list string) :
  wellFormed tokens → Stop tail →
  inputDirs (parseArgs (renderAll tokens ++ tail)) = dirsOf tokens ∧
  outputDir (parseArgs (renderAll tokens ++ tail)) = last (outputsOf tokens) ∧
  normalize (parseArgs (renderAll tokens ++ tail)) = bool_decide (NormalizeFlag ∈ tokens) ∧
  match tail with
  | [] => help (parseArgs (renderAll tokens ++ tail)) = false ∧
          version (parseArgs (renderAll tokens ++ tail)) = false ∧
          error (parseArgs (renderAll tokens ++ tail)) = None
  | arg :: rest =>
    (helpFlag arg ∧ help (parseArgs (renderAll tokens ++ tail)) = true ∧
     version (parseArgs (renderAll tokens ++ tail)) = false ∧
     error (parseArgs (renderAll tokens ++ tail)) = None) ∨
    (versionFlag arg ∧ help (parseArgs (renderAll tokens ++ tail)) = false ∧
     version (parseArgs (renderAll tokens ++ tail)) = true ∧
     error (parseArgs (renderAll tokens ++ tail)) = None) ∨
    (unknownOption arg ∧ help (parseArgs (renderAll tokens ++ tail)) = false ∧
     version (parseArgs (renderAll tokens ++ tail)) = false ∧
     error (parseArgs (renderAll tokens ++ tail)) = Some ("Unknown option: " +:+ arg)) ∨
    (outputFlag arg ∧ rest = [] ∧ help (parseArgs (renderAll tokens ++ tail)) = false ∧
     version (parseArgs (renderAll tokens ++ tail)) = false ∧
     error (parseArgs (renderAll tokens ++ tail)) =
       Some "Missing output directory after -o/--output")
  end.
Proof.
  intros Hwf Hstop. unfold parseArgs. rewrite parseLoop_tokens by done.
  cbn [inputDirs outputDir normalize help version error app orb from_option].
  assert (from_option Some None (last (outputsOf tokens)) = last (outputsOf tokens)) as ->
    by (by destruct (last _)).
  destruct Hstop as [|flag rest Hflag|flag rest Hflag|arg rest Harg|flag Hflag].
  - done.
  - rewrite parseLoop_help by done. cbn. split_and!; [done..|]. by left.
  - rewrite parseLoop_version by done. cbn. split_and!; [done..|]. by right; left.
  - rewrite parseLoop_unknown by done. cbn. split_and!; [done..|]. by right; right; left.
  - rewrite parseLoop_missing by done. cbn. split_and!; [done..|]. by right; right; right.
Qed.

Lemma flag_rendered (tokens : list Token) :
  NormalizeFlag ∈ tokens → "--normalize" ∈ renderAll tokens.
Proof.
  intros Hin. unfold renderAll. apply list_elem_of_bind. exists NormalizeFlag.
  split; [by left|done].
Qed.

Lemma parseArgs_facts (args : list string) :
  inputDirs (parseArgs args) `sublist_of` args ∧
  Forall (λ dir, String.prefix "-" dir = false) (inputDirs (parseArgs args)) ∧
  (∀ dir, outputDir (parseArgs args) = Some dir → dir ∈ args) ∧
  (normalize (parseArgs args) = true → "--normalize" ∈ args).
Proof.
  destruct (args_shape args) as (tokens & tail & -> & Hwf & Hstop).
  destruct (parseArgs_shape tokens tail Hwf Hstop) as (-> & -> & -> & _).
  split; [apply sublist_inserts_r, dirsOf_sublist|].
  split; [by apply dirsOf_no_dash|].
  split.
  - intros dir Hlast%last_Some_elem_of. apply elem_of_app. left. by apply outputsOf_rendered.
  - intros Hflag%bool_decide_eq_true. apply elem_of_app. left. by apply flag_rendered.
Qed.

(** Whatever its arguments, [parseArgs] takes its directories from them in
    their order and none that starts with a dash, takes its output
    directory from them, turns normalization on only when the flag is among
    them, and reports at most one of help, version and error, an error
    being one of its two messages. *)
Theorem parseArgs_invariants (args : list string) :
  inputDirs (parseArgs args) `sublist_of` args ∧
  Forall (λ dir, String.prefix "-" dir = false) (inputDirs (parseArgs args)) ∧
  (∀ dir, outputDir (parseArgs args) = Some dir → dir ∈ args) ∧
  (normalize (parseArgs args) = true → "--normalize" ∈ args) ∧
  (help (parseArgs args) = true → version (parseArgs args) = false ∧ error (parseArgs args) = None) ∧
  (version (parseArgs args) = true → error (parseArgs args) = None) ∧
  (∀ message, error (parseArgs args) = Some message →
     message = "Missing output directory after -o/--output" ∨
     ∃ arg, arg ∈ args ∧ String.prefix "-" arg = true ∧ message = "Unknown option: " +:+ arg).
Proof.
  destruct (args_shape args) as (tokens & tail & -> & Hwf & Hstop).
  destruct (parseArgs_shape tokens tail Hwf Hstop) as (-> & -> & -> & Hflags).
  split; [apply sublist_inserts_r, dirsOf_sublist|].
  split; [by apply dirsOf_no_dash|].
  split.
  { intros dir Hlast%last_Some_elem_of. apply elem_of_app. left. by apply outputsOf_rendered. }
  split.
  { intros Hflag%bool_decide_eq_true. apply elem_of_app. left. by apply flag_rendered. }
  destruct tail as [|arg rest].
  - destruct Hflags as (-> & -> & ->). by split_and!.
  - destruct Hflags as [(_ & -> & -> & ->)|[(_ & -> & -> & ->)|[(Harg & -> & -> & ->)|
                        (_ & _ & -> & -> & ->)]]]; split_and!; try done.
    + intros message [= <-]. right. exists arg. split; [|by destruct Harg].
      apply elem_of_app. right. by left.
    + intros message [= <-]. by left.
Qed.

(** ** The decisions of [main] *)

Lemma validate_fold (resolve : list string → string) (fs : string → FileState)
    (dirs : list string) (acc : list string * list string) :
  foldl (validate resolve fs) acc dirs =
    (acc.1 ++ ((λ dir, resolve [dir]) <$> filter (usable resolve fs) dirs),
     acc.2 ++ filter (λ dir, ¬ usable resolve fs dir) dirs).
Proof.
  revert acc. induction dirs as [|dir dirs IH]; intros [valid skipped]; cbn [foldl fst snd].
  - by rewrite !app_nil_r.
  - rewrite IH. unfold validate. cbn [fst snd]. rewrite !filter_cons.
    destruct (decide (usable resolve fs dir)) as [[Hdir Hfile]|Hno].
    + rewrite Hdir, Hfile. cbn [negb fst snd]. rewrite decide_False by (by intros []).
      rewrite fmap_cons. by rewrite <- app_assoc.
    + rewrite decide_True by done. unfold usable in Hno.
      destruct (existsSync fs (resolve [dir])) eqn:Hdir; cbn [negb fst snd].
      * destruct (existsSync fs (resolve [resolve [dir]; "coverage-final.json"])) eqn:Hfile;
          cbn [negb fst snd]; [by destruct Hno|]. by rewrite <- app_assoc.
      * by rewrite <- app_assoc.
Qed.

Lemma rendered_nonempty (tokens : list Token) (arg : string) (rest : list string) :
  length (renderAll tokens ++ arg :: rest) ≠ 0%nat.
Proof. rewrite length_app. cbn. lia. Qed.

(** A help or version flag after a well-formed line decides the run,
    whatever follows it and whatever the line lacks: the usage or the
    version is printed, no error is reported and nothing is merged. *)
Theorem main_help_wins (resolve : list string → string) (fs : string → FileState)
    (tokens : list Token) (flag : string) (rest : list string) :
  wellFormed tokens →
  (helpFlag flag → main resolve fs (renderAll tokens ++ flag :: rest) = Usage) ∧
  (versionFlag flag → main resolve fs (renderAll tokens ++ flag :: rest) = Version).
Proof.
  intros Hwf. split; intros Hflag; unfold main.
  all: rewrite decide_False by apply rendered_nonempty.
  all: cbn zeta; unfold parseArgs; rewrite parseLoop_tokens by done.
  - by rewrite parseLoop_help.
  - by rewrite parseLoop_version.
Qed.

Lemma main_help_wins_witness :
  wellFormed [Dir "coverage/unit"] ∧
  main cwdResolve disk ["coverage/unit"; "--help"; "--bogus"] = Usage ∧
  main cwdResolve disk ["coverage/unit"; "-v"; "-o"] = Version.
Proof.
  assert (wellFormed [Dir "coverage/unit"]) as Hwf.
  { intros dir [Heq|[]%elem_of_nil]%elem_of_cons. by simplify_eq. }
  split; [exact Hwf|]. split.
  - apply (main_help_wins cwdResolve disk [Dir "coverage/unit"] "--help" ["--bogus"] Hwf). by right.
  - apply (main_help_wins cwdResolve disk [Dir "coverage/unit"] "-v" ["-o"] Hwf). by left.
Defined.

(** An unknown option, or an output flag in the last place, after a
    well-formed line ends the run with its error message, whatever else the
    line holds. *)
Theorem main_reports_bad_arguments (resolve : list string → string)
    (fs : string → FileState) (tokens : list Token) (arg : string) (rest : list string) :
  wellFormed tokens →
  (unknownOption arg →
     main resolve fs (renderAll tokens ++ arg :: rest) =
       Failure ("Error: Unknown option: " +:+ arg)) ∧
  (outputFlag arg →
     main resolve fs (renderAll tokens ++ [arg]) =
       Failure "Error: Missing output directory after -o/--output").
Proof.
  intros Hwf. split; intros Harg; unfold main.
  all: rewrite decide_False by apply rendered_nonempty.
  all: cbn zeta; unfold parseArgs; rewrite parseLoop_tokens by done.
  - by rewrite parseLoop_unknown.
  - by rewrite parseLoop_missing.
Qed.

Lemma main_reports_bad_arguments_witness :
  wellFormed usageLine ∧
  main cwdResolve disk
    ["coverage/unit"; "coverage/empty"; "coverage/component"; "-o"; "coverage/merged";
     "--normalize"; "--verbose"; "more"] = Failure "Error: Unknown option: --verbose" ∧
  main cwdResolve disk
    ["coverage/unit"; "coverage/empty"; "coverage/component"; "-o"; "coverage/merged";
     "--normalize"; "--output"] = Failure "Error: Missing output directory after -o/--output".
Proof.
  split; [exact usageLine_wellFormed|]. split.
  - apply (main_reports_bad_arguments cwdResolve disk usageLine "--verbose" ["more"]
             usageLine_wellFormed).
    unfold unknownOption, helpFlag, versionFlag, outputFlag.
    split_and!; [done|intros [?|?]; done..|done].
  - apply (main_reports_bad_arguments cwdResolve disk usageLine "--output" []
             usageLine_wellFormed). by right.
Defined.

Lemma filter_length_le {A} (P : A → Prop) `{!∀ x, Decision (P x)} (l : list A) :
  (length (filter P l) ≤ length l)%nat.
Proof. apply sublist_length, sublist_filter. Qed.

(** The usage is accepted: on a well-formed line whose last output option
    has a non-empty value and at least two of whose directories exist and
    hold the artifact, [main] calls [mergeCoverage] with these directories
    resolved, in their order, the resolved output directory and the
    normalization flag, and logs the other directories as skipped. *)
Theorem main_accepts_usage (resolve : list string → string) (fs : string → FileState)
    (tokens : list Token) (output : string) :
  wellFormed tokens →
  last (outputsOf tokens) = Some output → output ≠ "" →
  (2 ≤ length (filter (usable resolve fs) (dirsOf tokens)))%nat →
  main resolve fs (renderAll tokens) =
    Merge {| Index.inputDirs :=
               (λ dir, resolve [dir]) <$> filter (usable resolve fs) (dirsOf tokens);
             Index.outputDir := resolve [output];
             Index.normalize := Some (bool_decide (NormalizeFlag ∈ tokens));
             Index.reporters := None |}
          (filter (λ dir, ¬ usable resolve fs dir) (dirsOf tokens)).
Proof.
  intros Hwf Hout Hne Husable. unfold main.
  pose proof (filter_length_le (usable resolve fs) (dirsOf tokens)) as Hle.
  pose proof (sublist_length _ _ (dirsOf_sublist tokens)) as Hargs.
  rewrite decide_False by lia. cbn zeta. rewrite parseArgs_tokens by done.
  cbn [error help version inputDirs outputDir normalize truthy].
  rewrite decide_False by lia. rewrite Hout. cbn [truthy default].
  rewrite bool_decide_eq_true_2 by done. cbn [negb].
  rewrite validate_fold. cbn [fst snd app]. rewrite length_fmap.
  by rewrite decide_False by lia.
Qed.

Lemma main_accepts_usage_witness :
  wellFormed usageLine ∧
  main cwdResolve disk
    ["coverage/unit"; "coverage/empty"; "coverage/component"; "-o"; "coverage/merged";
     "--normalize"] =
    Merge {| Index.inputDirs := ["/cwd/coverage/unit"; "/cwd/coverage/component"];
             Index.outputDir := "/cwd/coverage/merged";
             Index.normalize := Some true;
             Index.reporters := None |}
          ["coverage/empty"].
Proof.
  split; [exact usageLine_wellFormed|].
  apply (main_accepts_usage cwdResolve disk usageLine "coverage/merged" usageLine_wellFormed).
  - reflexivity.
  - done.
  - vm_compute. lia.
Defined.

(** [main] calls [mergeCoverage] only with at least two directories: the
    resolved ones of some directories among the arguments, none starting
    with a dash, that exist and hold the artifact, in their order, the
    others being the skipped ones; with the resolved form of a non-empty
    argument as the output directory; with normalization switched on only
    when the flag is among the arguments, and never left to the default;
    and with no reporters of its own. *)
Theorem main_merge_call_is_valid (resolve : list string → string) (fs : string → FileState)
    (args : list string) (options : Index.MergeOptions) (skippedDirs : list string) :
  main resolve fs args = Merge options skippedDirs →
  (2 ≤ length (Index.inputDirs options))%nat ∧
  (∃ dirs, dirs `sublist_of` args ∧
     Forall (λ dir, String.prefix "-" dir = false) dirs ∧
     Index.inputDirs options = (λ dir, resolve [dir]) <$> filter (usable resolve fs) dirs ∧
     skippedDirs = filter (λ dir, ¬ usable resolve fs dir) dirs) ∧
  (∃ output, output ∈ args ∧ output ≠ "" ∧ Index.outputDir options = resolve [output]) ∧
  (∃ flag, Index.normalize options = Some flag ∧ (flag = true → "--normalize" ∈ args)) ∧
  Index.reporters options = None.
Proof.
  unfold main. intros Hmain.
  destruct (parseArgs_facts args) as (Hsub & Hdash & Hout & Hflag).
  destruct (decide (length args = 0%nat)); [done|]. cbn zeta in Hmain.
  destruct (truthy (error (parseArgs args))); [done|].
  destruct (help (parseArgs args)); [done|].
  destruct (version (parseArgs args)); [done|].
  destruct (decide (length (inputDirs (parseArgs args)) < 2)%nat); [done|].
  destruct (outputDir (parseArgs args)) as [output|] eqn:Houtput; [|done].
  cbn [truthy] in Hmain. case_bool_decide as Hne; [|done]. cbn [negb default] in Hmain.
  rewrite validate_fold in Hmain. cbn [fst snd app] in Hmain.
  destruct (decide (_ < 2)%nat) as [|Hlen]; [done|]. injection Hmain as <- <-.
  cbn [Index.inputDirs Index.outputDir Index.normalize Index.reporters].
  split; [lia|]. split; [by exists (inputDirs (parseArgs args))|].
  split; [exists output; split; [by apply Hout|done]|].
  split; [by exists (normalize (parseArgs args))|done].
Qed.

Lemma main_merge_call_is_valid_witness :
  main cwdResolve disk
    ["coverage/unit"; "coverage/empty"; "coverage/component"; "-o"; "coverage/merged";
     "--normalize"] =
    Merge {| Index.inputDirs := ["/cwd/coverage/unit"; "/cwd/coverage/component"];
             Index.outputDir := "/cwd/coverage/merged";
             Index.normalize := Some true;
             Index.reporters := None |}
          ["coverage/empty"] ∧
  ∃ dirs, dirs `sublist_of` ["coverage/unit"; "coverage/empty"; "coverage/component"; "-o";
                             "coverage/merged"; "--normalize"] ∧
    ["/cwd/coverage/unit"; "/cwd/coverage/component"] =
      (λ dir, cwdResolve [dir]) <$> filter (usable cwdResolve disk) dirs.
Proof.
  assert (main cwdResolve disk
    ["coverage/unit"; "coverage/empty"; "coverage/component"; "-o"; "coverage/merged";
     "--normalize"] =
    Merge {| Index.inputDirs := ["/cwd/coverage/unit"; "/cwd/coverage/component"];
             Index.outputDir := "/cwd/coverage/merged";
             Index.normalize := Some true;
             Index.reporters := None |}
          ["coverage/empty"]) as Hmain by (vm_compute; reflexivity).
  split; [exact Hmain|].
  destruct (main_merge_call_is_valid cwdResolve disk _ _ _ Hmain)
    as (_ & (dirs & Hsub & _ & Hdirs & _) & _).
  exists dirs. by split.
Defined.

End CliFacts.

(** * The entry point *)

Module IndexFacts.
Import SmartMerge Normalize NormalizeSpec MoreSpec Index IndexSpec Samples MoreSamples.

Section loading_facts.
Context (join : string → string → string).
Context (parse : list N → option (list (string * FileCoverageData))).
Context (fs : string → FileState).

Lemma mapM_cons_eq {A B} (g : A → option B) (x : A) (l : list A) :
  mapM g (x :: l) = y ← g x; k ← mapM g l; Some (y :: k).
Proof. done. Qed.

(** The loading loop collects the maps of the directories that hold an
    artifact, in their order. *)
Lemma loadDirs_maps (normalize : bool) (dirs : list string) (acc : Loaded) :
  coverageMaps <$> loadDirs join parse fs normalize acc dirs =
  (λ maps, coverageMaps acc ++ maps) <$>
    mapM (artifact join parse fs normalize) (filter (hasArtifact join fs) dirs).
Proof.
  revert acc. induction dirs as [|dir dirs IH]; intros acc.
  - cbn. by rewrite app_nil_r.
  - cbn [loadDirs]. rewrite filter_cons. unfold loadDir.
    destruct (decide (hasArtifact join fs dir)) as [Hhas|Hno].
    + rewrite Hhas. cbn [negb]. rewrite mapM_cons_eq.
      pose proof (eq_refl (artifact join parse fs normalize dir)) as Hart.
      unfold artifact at 1 in Hart.
      destruct (readFileSync fs (join dir "coverage-final.json")) as [rawData|];
        cbn [mbind option_bind] in Hart |- *; [|by rewrite <- Hart].
      destruct (parse rawData) as [coverageData|];
        cbn [mbind option_bind] in Hart |- *; [|by rewrite <- Hart].
      rewrite <- Hart. clear Hart.
      destruct normalize; cbn [mbind option_bind]; rewrite IH; cbn [coverageMaps];
        destruct (mapM _ _); cbn; by rewrite <- ?app_assoc.
    + apply not_true_is_false in Hno. rewrite Hno. cbn [negb mbind option_bind]. apply IH.
Qed.

Lemma mergedData_spec (options : MergeOptions) :
  mergedData join parse fs options =
    maps ← mapM (artifact join parse fs (default true (normalize options)))
              (filter (hasArtifact join fs) (inputDirs options));
    smartMergeCoverage maps.
Proof.
  unfold mergedData. cbv zeta.
  pose proof (loadDirs_maps (default true (normalize options)) (inputDirs options)
    {| coverageMaps := []; totalImportsRemoved := 0; totalDirectivesRemoved := 0 |}) as Hmaps.
  destruct (loadDirs _ _ _ _ _ _) as [loaded|]; destruct (mapM _ _) as [maps|];
    by simplify_eq/=.
Qed.

Lemma artifact_is_Some (normalize : bool) (dir : string) :
  hasArtifact join fs dir →
  is_Some (artifact join parse fs normalize dir) ↔
  ∃ text, fs (join dir "coverage-final.json") = Readable text ∧ is_Some (parse text).
Proof.
  intros _. unfold artifact, readFileSync.
  destruct (fs (join dir "coverage-final.json")) as [| |text]; cbn.
  - split; [by intros [? ?]|by intros (? & ? & _)].
  - split; [by intros [? ?]|by intros (? & ? & _)].
  - destruct (parse text) as [coverageData|] eqn:Hparse; cbn.
    + split; [|by eexists]. intros _. exists text. split; [done|]. by rewrite Hparse.
    + split; [by intros [? ?]|]. intros (text' & [= <-] & Hsome). rewrite Hparse in Hsome.
      by destruct Hsome.
Qed.

Lemma missing_artifact (dir : string) :
  ¬ hasArtifact join fs dir ↔ fs (join dir "coverage-final.json") = Missing.
Proof.
  unfold hasArtifact, existsSync. by destruct (fs (join dir "coverage-final.json")).
Qed.

End loading_facts.

(** [mergeCoverage] gets as far as its merged data exactly when every input
    directory either lacks the artifact or holds one that can be read and
    parsed: a missing artifact is passed over, a broken one is fatal
    wherever it stands, and the merge itself never fails. *)
Theorem mergeCoverage_loads_iff (join : string → string → string)
    (parse : list N → option (list (string * FileCoverageData)))
    (fs : string → FileState) (options : MergeOptions) :
  is_Some (mergedData join parse fs options) ↔
  Forall (loadable join parse fs) (inputDirs options).
Proof.
  rewrite mergedData_spec.
  assert (is_Some (mapM (artifact join parse fs (default true (normalize options)))
                        (filter (hasArtifact join fs) (inputDirs options))) ↔
          Forall (loadable join parse fs) (inputDirs options)) as <-.
  { rewrite mapM_is_Some, !Forall_forall. split.
    - intros Hall dir Hin. destruct (decide (hasArtifact join fs dir)) as [Hhas|Hno].
      + right. apply (artifact_is_Some join parse fs (default true (normalize options)));
          [done|].
        apply Hall. by apply list_elem_of_filter.
      + left. by apply missing_artifact.
    - intros Hall dir [Hhas Hin]%list_elem_of_filter. apply artifact_is_Some; [done|].
      destruct (Hall dir Hin) as [Hmiss|Hok]; [|done]. by apply missing_artifact in Hmiss. }
  destruct (mapM _ _) as [maps|]; cbn.
  - split; [by eexists|]. intros _. apply OrchestratorProps.smartMergeCoverage_total.
  - split; by intros [? ?].
Qed.

(** A directory without the artifact, at any place among the input
    directories, leaves the merged data as they are without it. *)
Theorem mergeCoverage_skips_missing (join : string → string → string)
    (parse : list N → option (list (string * FileCoverageData)))
    (fs : string → FileState) (options : MergeOptions)
    (before after : list string) (dir : string) :
  inputDirs options = before ++ dir :: after →
  fs (join dir "coverage-final.json") = Missing →
  mergedData join parse fs options =
  mergedData join parse fs
    {| inputDirs := before ++ after; outputDir := outputDir options;
       normalize := normalize options; reporters := reporters options |}.
Proof.
  intros Hdirs Hmissing%missing_artifact. rewrite !mergedData_spec.
  cbn [inputDirs normalize]. rewrite Hdirs, !filter_app, filter_cons.
  by rewrite decide_False.
Qed.

Lemma mergeCoverage_skips_missing_witness :
  disk (slashJoin "/cwd/coverage/empty" "coverage-final.json") = Missing ∧
  mergedData slashJoin diskParse disk
    {| inputDirs := ["/cwd/coverage/unit"; "/cwd/coverage/empty"; "/cwd/coverage/component"];
       outputDir := "/cwd/coverage/merged"; normalize := None; reporters := None |} =
  mergedData slashJoin diskParse disk
    {| inputDirs := ["/cwd/coverage/unit"; "/cwd/coverage/component"];
       outputDir := "/cwd/coverage/merged"; normalize := None; reporters := None |}.
Proof.
  split; [reflexivity|].
  apply (mergeCoverage_skips_missing slashJoin diskParse disk
           {| inputDirs := ["/cwd/coverage/unit"; "/cwd/coverage/empty";
                            "/cwd/coverage/component"];
              outputDir := "/cwd/coverage/merged"; normalize := None; reporters := None |}
           ["/cwd/coverage/unit"] ["/cwd/coverage/component"] "/cwd/coverage/empty");
    reflexivity.
Defined.

(** ** From the command line to the merge *)

Lemma filter_all {A} (P : A → Prop) `{!∀ x, Decision (P x)} (l : list A) :
  Forall P l → filter P l = l.
Proof.
  induction 1 as [|x l Hx _ IH]; [done|]. rewrite filter_cons, decide_True by done.
  by rewrite IH.
Qed.

(** When the two path functions agree on the artifact of a resolved
    directory, every directory that [main] hands to [mergeCoverage] is
    loaded: none is passed over there, at least two maps are merged, and
    the merged data are those of the general path of the orchestrator. *)
Theorem cli_dirs_are_all_loaded (resolve : list string → string)
    (join : string → string → string)
    (parse : list N → option (list (string * FileCoverageData)))
    (fs : string → FileState) (args : list string)
    (options : MergeOptions) (skippedDirs : list string) :
  (∀ dir, dir ∈ args →
     join (resolve [dir]) "coverage-final.json" =
     resolve [resolve [dir]; "coverage-final.json"]) →
  Cli.main resolve fs args = Cli.Merge options skippedDirs →
  mergedData join parse fs options =
    maps ← mapM (artifact join parse fs (default true (normalize options)))
              (inputDirs options);
    mergeEachFile maps.
Proof.
  intros Hjoin Hmain. rewrite mergedData_spec.
  unfold Cli.main in Hmain.
  destruct (decide (length args = 0%nat)); [done|]. cbn zeta in Hmain.
  destruct (Cli.truthy (Cli.error (Cli.parseArgs args))); [done|].
  destruct (Cli.help (Cli.parseArgs args)); [done|].
  destruct (Cli.version (Cli.parseArgs args)); [done|].
  destruct (decide (length (Cli.inputDirs (Cli.parseArgs args)) < 2)%nat); [done|].
  destruct (negb (Cli.truthy (Cli.outputDir (Cli.parseArgs args)))); [done|].
  rewrite CliFacts.validate_fold in Hmain. cbn [fst snd app] in Hmain.
  destruct (decide (_ < 2)%nat) as [|Hlen]; [done|]. injection Hmain as <- <-.
  cbn [inputDirs normalize] in *. rewrite length_fmap in Hlen.
  destruct (CliFacts.parseArgs_facts args) as (Hsub & _).
  rewrite filter_all.
  - destruct (mapM _ _) as [maps|] eqn:Hmaps; [|done]. cbn [mbind option_bind].
    apply length_mapM in Hmaps. rewrite length_fmap in Hmaps.
    unfold smartMergeCoverage, mergeEachFile.
    destruct maps as [|m [|m' maps]]; cbn [length] in Hmaps; [lia..|done].
  - apply Forall_forall. intros path (dir & -> & [[_ Hfile] Hin]%list_elem_of_filter)%list_elem_of_fmap.
    unfold hasArtifact. rewrite Hjoin; [done|]. by eapply elem_of_sublist.
Qed.

Lemma cli_dirs_are_all_loaded_witness :
  (∀ dir, dir ∈ ["coverage/unit"; "coverage/empty"; "coverage/component"; "-o";
                 "coverage/merged"] →
     slashJoin (cwdResolve [dir]) "coverage-final.json" =
     cwdResolve [cwdResolve [dir]; "coverage-final.json"]) ∧
  Cli.main cwdResolve disk
    ["coverage/unit"; "coverage/empty"; "coverage/component"; "-o"; "coverage/merged"] =
    Cli.Merge
      {| inputDirs := ["/cwd/coverage/unit"; "/cwd/coverage/component"];
         outputDir := "/cwd/coverage/merged"; normalize := Some false; reporters := None |}
      ["coverage/empty"] ∧
  mergedData slashJoin diskParse disk
    {| inputDirs := ["/cwd/coverage/unit"; "/cwd/coverage/component"];
       outputDir := "/cwd/coverage/merged"; normalize := Some false; reporters := None |} =
    mergeEachFile [clientMap; [(filePath, clientRecord)]].
Proof.
  assert (∀ dir, dir ∈ ["coverage/unit"; "coverage/empty"; "coverage/component"; "-o";
                        "coverage/merged"] →
     slashJoin (cwdResolve [dir]) "coverage-final.json" =
     cwdResolve [cwdResolve [dir]; "coverage-final.json"]) as Hjoin.
  { intros dir. rewrite !elem_of_cons, elem_of_nil.
    intros [->|[->|[->|[->|[->|[]]]]]]; reflexivity. }
  assert (Cli.main cwdResolve disk
    ["coverage/unit"; "coverage/empty"; "coverage/component"; "-o"; "coverage/merged"] =
    Cli.Merge
      {| inputDirs := ["/cwd/coverage/unit"; "/cwd/coverage/component"];
         outputDir := "/cwd/coverage/merged"; normalize := Some false; reporters := None |}
      ["coverage/empty"]) as Hmain by (vm_compute; reflexivity).
  split; [exact Hjoin|]. split; [exact Hmain|].
  rewrite (cli_dirs_are_all_loaded cwdResolve slashJoin diskParse disk _ _ _ Hjoin Hmain).
  reflexivity.
Defined.

End IndexFacts.

(** * Normalizing, then merging *)

Module PipelineFacts.
Import SmartMerge Normalize NormalizeSpec MoreSpec Index IndexSpec Samples MoreSamples.

Lemma objGet_Some_elem {V} (o : list (string * V)) (k : string) (v : V) :
  objGet o k = Some v → (k, v) ∈ o.
Proof.
  induction o as [|[k' v'] o IH]; cbn [objGet fst snd]; [done|]. case_decide as Hk.
  - intros [= <-]. subst. by left.
  - intros Hget. right. by apply IH.
Qed.

Lemma fileCoveragesOf_elem (coverageMaps : list (list (string * FileCoverageData)))
    (file : string) (record : FileCoverageData) :
  record ∈ fileCoveragesOf coverageMaps file →
  ∃ m, m ∈ coverageMaps ∧ (file, record) ∈ m.
Proof.
  intros (m & Hm & Hget)%list_elem_of_omap. exists m. split; [done|].
  by apply objGet_Some_elem.
Qed.

(** The statement map of a merged entry is the statement map some input
    map has for the file. *)
Lemma merged_statementMap_origin (coverageMaps : list (list (string * FileCoverageData)))
    (merged : list (string * FileCoverageData)) (file : string) (record : FileCoverageData) :
  smartMergeCoverage coverageMaps = Some merged → (file, record) ∈ merged →
  ∃ m source, m ∈ coverageMaps ∧ (file, source) ∈ m ∧
    statementMap record = statementMap source.
Proof.
  unfold smartMergeCoverage. destruct coverageMaps as [|m0 [|m1 ms]].
  - intros [= <-] Hin. by apply elem_of_nil in Hin.
  - intros [= <-] Hin. exists m0, record. split; [by left|done].
  - set (cms := m0 :: m1 :: ms). intros Hmap%mapM_Some_1 Hin.
    apply list_elem_of_lookup in Hin as [i Hi].
    destruct (Forall2_lookup_r _ _ _ _ _ Hmap Hi) as (x & _ & Hx).
    pose proof (OrchestratorProps.mergeOneFile_key _ _ _ Hx) as Hkey. cbn in Hkey. subst x.
    unfold mergeOneFile in Hx. cbv zeta in Hx.
    destruct (fileCoveragesOf cms file) as [|c [|c' l]] eqn:Hfc.
    + done.
    + injection Hx as <-. destruct (fileCoveragesOf_elem cms file c) as (m & Hm & Hc);
        [rewrite Hfc; by left|]. by exists m, c.
    + destruct (MergerProps.mergeFileCoverages_many (c :: c' :: l)) as
        (first & best & _ & Hbest & Hmerged); [cbn; lia|].
      rewrite Hmerged in Hx. cbn in Hx. injection Hx as <-.
      apply SelectorFacts.selectBestSource_elem in Hbest. rewrite <- Hfc in Hbest.
      destruct (fileCoveragesOf_elem cms file best Hbest) as (m & Hm & Hc).
      by exists m, best.
Qed.

(** What normalization leaves of the statement map of a file whose source
    can be read is not classified. *)
Lemma normalized_statements fs (cm : list (string * FileCoverageData))
    (file : string) (record : FileCoverageData) (text : list N) (entry : string * Location) :
  distinctStatementIds cm →
  (file, record) ∈ coverageMap (normalizeCoverage fs cm) →
  fs file = Readable text → entry ∈ statementMap record →
  stmtKind (splitLines text) entry = None.
Proof.
  intros Hnd. rewrite NormalizerProps.normalizeCoverage_each. cbn [coverageMap].
  intros (source & [= -> ->] & Hsource)%list_elem_of_fmap Hfs.
  rewrite (NormalizerProps.normalizeFileCoverage_readable fs _ _ text Hfs).
  rewrite NormalizerProps.removeStep_fold. cbn [fst]. unfold removed. cbn [statementMap].
  rewrite NormalizerProps.remaining_statements by (by apply Hnd).
  by intros [Hkind _]%list_elem_of_filter.
Qed.

Lemma normalized_merge fs (coverageMaps : list (list (string * FileCoverageData)))
    (merged : list (string * FileCoverageData)) :
  (∀ m, m ∈ coverageMaps →
     ∃ cm, distinctStatementIds cm ∧ m = coverageMap (normalizeCoverage fs cm)) →
  smartMergeCoverage coverageMaps = Some merged →
  ∀ file record text entry,
    (file, record) ∈ merged → fs file = Readable text → entry ∈ statementMap record →
    stmtKind (splitLines text) entry = None.
Proof.
  intros Hmaps Hmerged file record text entry Hin Hfs Hentry.
  destruct (merged_statementMap_origin _ _ _ _ Hmerged Hin) as (m & source & Hm & Hsource & Heq).
  destruct (Hmaps m Hm) as (cm & Hnd & ->). rewrite Heq in Hentry.
  by eapply normalized_statements.
Qed.

(** Merging normalized maps gives a normalized map: no statement of a
    merged record starts on a line of the file's source that holds an
    import or a directive. *)
Theorem normalize_then_merge_is_normalized fs
    (coverageMaps : list (list (string * FileCoverageData)))
    (merged : list (string * FileCoverageData)) :
  Forall distinctStatementIds coverageMaps →
  smartMergeCoverage ((λ cm, coverageMap (normalizeCoverage fs cm)) <$> coverageMaps) =
    Some merged →
  ∀ file record text entry,
    (file, record) ∈ merged → fs file = Readable text → entry ∈ statementMap record →
    stmtKind (splitLines text) entry = None.
Proof.
  intros Hnd. apply normalized_merge.
  intros m (cm & -> & Hcm)%list_elem_of_fmap. exists cm. split; [|done].
  by eapply Forall_forall in Hnd.
Qed.

Lemma clientMap_distinct : distinctStatementIds clientMap.
Proof.
  intros entry. unfold clientMap. rewrite !elem_of_cons, elem_of_nil.
  intros [->|[->|[]]]; apply (bool_decide_unpack _); vm_compute; exact I.
Qed.

Lemma normalize_then_merge_is_normalized_witness :
  Forall distinctStatementIds [clientMap; clientMap] ∧
  ∃ merged record,
    smartMergeCoverage
      ((λ cm, coverageMap (normalizeCoverage clientFs cm)) <$> [clientMap; clientMap]) =
      Some merged ∧
    (filePath, record) ∈ merged ∧ statementMap record = [("2", at_ 3 0)] ∧
    ∀ entry, entry ∈ statementMap record → stmtKind (splitLines clientSource) entry = None.
Proof.
  assert (Forall distinctStatementIds [clientMap; clientMap]) as Hnd.
  { repeat constructor; apply clientMap_distinct. }
  split; [exact Hnd|].
  destruct (smartMergeCoverage
    ((λ cm, coverageMap (normalizeCoverage clientFs cm)) <$> [clientMap; clientMap]))
    as [merged|] eqn:Hmerged; [|by vm_compute in Hmerged].
  pose proof (normalize_then_merge_is_normalized clientFs _ merged Hnd Hmerged) as Hclean.
  vm_compute in Hmerged. injection Hmerged as <-.
  eexists _, _. split; [reflexivity|]. split; [by left|]. split; [reflexivity|].
  intros entry Hentry.
  eapply (Hclean filePath _ clientSource entry); [by left|reflexivity|exact Hentry].
Defined.

(** With normalization on, which it is unless the caller turns it off, the
    merged data of [mergeCoverage] are normalized, provided the statement
    ids of every parsed record are distinct. *)
Theorem mergeCoverage_output_is_normalized (join : string → string → string)
    (parse : list N → option (list (string * FileCoverageData)))
    (fs : string → FileState) (options : MergeOptions)
    (merged : list (string * FileCoverageData)) :
  (∀ text cm, parse text = Some cm → distinctStatementIds cm) →
  normalize options ≠ Some false →
  mergedData join parse fs options = Some merged →
  ∀ file record text entry,
    (file, record) ∈ merged → fs file = Readable text → entry ∈ statementMap record →
    stmtKind (splitLines text) entry = None.
Proof.
  intros Hparse Hon. rewrite IndexFacts.mergedData_spec.
  assert (default true (normalize options) = true) as ->
    by (by destruct (normalize options) as [[]|]).
  destruct (mapM _ _) as [maps|] eqn:Hmaps; [|done]. cbn [mbind option_bind].
  apply normalized_merge. intros m Hm. apply mapM_Some_1 in Hmaps.
  apply list_elem_of_lookup in Hm as [i Hi].
  destruct (Forall2_lookup_r _ _ _ _ _ Hmaps Hi) as (dir & _ & Hdir).
  unfold artifact in Hdir.
  destruct (readFileSync fs _) as [rawData|]; [|done]. cbn [mbind option_bind] in Hdir.
  destruct (parse rawData) as [cm|] eqn:Hcm; [|done]. cbn [mbind option_bind] in Hdir.
  injection Hdir as <-. exists cm. split; [by eapply Hparse|done].
Qed.

Lemma mergeCoverage_output_is_normalized_witness :
  (∀ text cm, diskParse text = Some cm → distinctStatementIds cm) ∧
  ∃ merged record,
    mergedData slashJoin diskParse disk
      {| inputDirs := ["/cwd/coverage/unit"; "/cwd/coverage/component"];
         outputDir := "/cwd/coverage/merged"; normalize := None; reporters := None |} =
      Some merged ∧
    (filePath, record) ∈ merged ∧ statementMap record = [("2", at_ 3 0)] ∧
    ∀ entry, entry ∈ statementMap record → stmtKind (splitLines clientSource) entry = None.
Proof.
  assert (∀ text cm, diskParse text = Some cm → distinctStatementIds cm) as Hparse.
  { intros text cm. unfold diskParse. repeat case_decide; intros [= <-].
    - apply clientMap_distinct.
    - intros entry [->|[]%elem_of_nil]%elem_of_cons.
      apply (bool_decide_unpack _); vm_compute; exact I. }
  split; [exact Hparse|].
  destruct (mergedData slashJoin diskParse disk
      {| inputDirs := ["/cwd/coverage/unit"; "/cwd/coverage/component"];
         outputDir := "/cwd/coverage/merged"; normalize := None; reporters := None |})
    as [merged|] eqn:Hmerged; [|by vm_compute in Hmerged].
  assert (normalize
      {| inputDirs := ["/cwd/coverage/unit"; "/cwd/coverage/component"];
         outputDir := "/cwd/coverage/merged"; normalize := None; reporters := None |}
      ≠ Some false) as Hon by done.
  pose proof (mergeCoverage_output_is_normalized slashJoin diskParse disk _ merged Hparse
    Hon Hmerged) as Hclean.
  vm_compute in Hmerged. injection Hmerged as <-.
  eexists _, _. split; [reflexivity|]. split; [by left|]. split; [reflexivity|].
  intros entry Hentry.
  eapply (Hclean filePath _ clientSource entry); [by left|reflexivity|exact Hentry].
Defined.

End PipelineFacts.
